(** * Passcards item store: a shallow embedding of [lib/item_store.ts]

    The development follows the TypeScript source: the [Item] class with
    its lazily fetched content, the [Store] capability interface, the
    content-hash revision identifiers and the helpers [itemStates] and
    [unlockStore].  Promises are represented by their settled outcome and
    the effects of a store by explicit state passing over a [World]. *)

Set Warnings "-register-all".
From Stdlib Require Import ZArith String Ascii List Lia Bool.
From Stdlib Require Import DecimalString DecimalZ.
From stdpp Require Import base option gmap strings list.
From stdpp Require Import sorting.

Local Open Scope string_scope.
Local Open Scope Z_scope.

(* String concatenation computes on literals. *)
#[local] Arguments String.append : simpl nomatch.

(** ** JavaScript values used by the model *)

(** A property that may hold [undefined], [null] or a proper value. *)
Inductive nullable (A : Type) : Type :=
| undefined
| null
| val (a : A).
Arguments undefined {A}.
Arguments null {A}.
Arguments val {A} a.

(** Truthiness of an object-valued property: [if (x)], [!x], [x && ...]. *)
Definition truthy {A} (x : nullable A) : bool :=
  match x with val _ => true | _ => false end.

(** [x != null] (loose comparison: false for [null] and [undefined]). *)
Definition not_nullish {A} (x : nullable A) : bool :=
  match x with val _ => true | _ => false end.

(** A JavaScript number.  Every numeric field of an item is integer
    valued (favourite index, enum codes, timestamps), so finite numbers
    are integers: [Num z] is the number whose value is [z], for an
    integer [z] that a double holds exactly (every integer up to 2^53
    in magnitude and, beyond, the multiples of the spacing of the
    doubles); for another integer, [JSNumber.of_Z] below gives the
    number that JavaScript reads it as.  Numbers with a fractional
    part and the negative zero are outside this development.  The
    three non-finite numbers are kept because [JSON.stringify] and the
    comparisons treat them specially. *)
Inductive number : Type :=
| Num (z : Z)
| NaN
| PosInfinity
| NegInfinity.

(** The arithmetic of numbers that the code uses: [a + b], [a - b],
    [a < b] and [a <= b]. *)
Module JSNumber.
(** The integer that a double holds nearest to [z]; a tie goes to the
    even significand.  Below 2^53 in magnitude every integer is held
    exactly; from there on the doubles are [2 ^ u] apart, where the
    significand [q] has 53 bits. *)
Definition nearest (z : Z) : Z :=
  let a := Z.abs z in
  if a <? 2 ^ 53 then z
  else
    let u := Z.log2 a - 52 in
    let q := a / 2 ^ u in
    let r := a mod 2 ^ u in
    let q' :=
        if 2 * r <? 2 ^ u then q
        else if 2 ^ u <? 2 * r then q + 1
        else if Z.even q then q else q + 1 in
    Z.sgn z * (q' * 2 ^ u).

(** [Number.MAX_VALUE] *)
Definition MAX_VALUE : Z := (2 ^ 53 - 1) * 2 ^ 971.

(** The number for the integer [z]: the one that the literal [z]
    denotes, and the result of an operation whose exact result is
    [z]. *)
Definition of_Z (z : Z) : number :=
  let v := nearest z in
  if MAX_VALUE <? v then PosInfinity
  else if v <? - MAX_VALUE then NegInfinity
  else Num v.

(** [a + b] *)
Definition add (a b : number) : number :=
  match a, b with
  | NaN, _ | _, NaN => NaN
  | PosInfinity, NegInfinity | NegInfinity, PosInfinity => NaN
  | PosInfinity, _ | _, PosInfinity => PosInfinity
  | NegInfinity, _ | _, NegInfinity => NegInfinity
  | Num x, Num y => of_Z (x + y)
  end.

(** [- a] *)
Definition neg (a : number) : number :=
  match a with
  | Num x => Num (- x)
  | NaN => NaN
  | PosInfinity => NegInfinity
  | NegInfinity => PosInfinity
  end.

(** [a - b] *)
Definition sub (a b : number) : number := add a (neg b).

(** [a < b]: false as soon as one side is [NaN]. *)
Definition ltb (a b : number) : bool :=
  match a, b with
  | NaN, _ | _, NaN => false
  | Num x, Num y => x <? y
  | NegInfinity, NegInfinity => false
  | NegInfinity, _ => true
  | PosInfinity, _ => false
  | Num _, PosInfinity => true
  | Num _, NegInfinity => false
  end.

(** [a <= b] *)
Definition leb (a b : number) : bool :=
  match a, b with
  | NaN, _ | _, NaN => false
  | Num x, Num y => x <=? y
  | NegInfinity, _ => true
  | _, PosInfinity => true
  | PosInfinity, _ => false
  | Num _, NegInfinity => false
  end.
End JSNumber.

(** A [Date] object: [DateAt t] is the date [new Date(t)], a valid
    date with the time value [t] in milliseconds since the epoch when
    [t] is at most [JSDate.MAX_TIME] in magnitude, and an Invalid
    Date otherwise; [InvalidDate] is the Invalid Date made from a
    value that is not a number ([new Date(NaN)]).  The time value of
    an Invalid Date is [NaN]. *)
Inductive Date : Type :=
| DateAt (time : Z)
| InvalidDate.

(** A time value written as a number stands for the date with that
    time value. *)
Coercion DateAt : Z >-> Date.

Module JSDate.
(** The largest time value of a date: 100,000,000 days from the
    epoch. *)
Definition MAX_TIME : Z := 8640000000000000.

(** [TimeClip(time)] *)
Definition TimeClip (time : number) : number :=
  match time with
  | Num t => if Z.abs t <=? MAX_TIME then Num t else NaN
  | _ => NaN
  end.

(** [new Date(value)] for a number [value] *)
Definition new (value : number) : Date :=
  match TimeClip value with
  | Num t => DateAt t
  | _ => InvalidDate
  end.

(** [date.getTime()] *)
Definition getTime (date : Date) : number :=
  match date with
  | DateAt t => TimeClip (Num t)
  | InvalidDate => NaN
  end.

(** A valid date. *)
Definition valid (date : Date) : bool :=
  match date with
  | DateAt t => (- MAX_TIME <=? t) && (t <=? MAX_TIME)
  | InvalidDate => false
  end.
End JSDate.

(** Values of type [any], as they occur in [ItemField.value]. *)
Inductive JSValue : Type :=
| JUndefined
| JNull
| JBool (b : bool)
| JNumber (n : number)
| JString (s : string)
| JArray (l : list JSValue)
| JObject (props : list (string * JSValue)).

(** ** Errors and promises *)

Inductive Error : Type :=
| UnsavedItemError            (* 'Item has not been saved to a store' *)
| PlainError (message : string) (* new Error(message) *)
| DecryptionError
| ValidationError
| CryptoError
| ItemNotFound
| LockedStoreError
| IOError (detail : string).

(** The settled outcome of a [Promise<A>]. *)
Inductive Promise (A : Type) : Type :=
| Resolved (a : A)
| Rejected (e : Error).
Arguments Resolved {A} a.
Arguments Rejected {A} e.

Definition is_resolved {A} (p : Promise A) : bool :=
  match p with Resolved _ => true | Rejected _ => false end.

(** ** Item types *)

Module ItemTypes.
Definition LOGIN : string := "webforms.WebForm".
Definition FOLDER : string := "system.folder.Regular".
Definition SAVED_SEARCH : string := "system.folder.SavedSearch".
Definition TOMBSTONE : string := "system.Tombstone".
End ItemTypes.

(** ** Item content *)

Inductive FieldType : Type :=
| FT_Text | FT_Password | FT_Address | FT_Date | FT_MonthYear | FT_URL
| FT_CreditCardType | FT_PhoneNumber | FT_Gender | FT_Email | FT_Menu.

Inductive FormFieldType : Type :=
| FFT_Text | FFT_Password | FFT_Email | FFT_Checkbox | FFT_Input.

(** The properties of the content objects.  An object keeps its
    properties in the order in which they were created, and
    [JSON.stringify] writes them in that order, so that order is part
    of each object below: the [keys] of a record list the properties
    of the object, first created first.  An object has the properties
    of its interface, each once, so the list is a permutation of them
    ([Representable.own_keys] below); the one exception is the
    property [tags] of the open contents, which is missing from the
    list when the object lacks it, and then reads [undefined]. *)
Inductive ItemFieldKey : Type := IF_kind | IF_name | IF_title | IF_value.

Inductive ItemSectionKey : Type := IS_name | IS_title | IS_fields.

Inductive WebFormFieldKey : Type :=
| WF_value | WF_id | WF_name | WF_type | WF_designation.

Inductive ItemUrlKey : Type := IU_label | IU_url.

Inductive ItemContentKey : Type :=
| IC_sections | IC_urls | IC_notes | IC_formFields
| IC_htmlMethod | IC_htmlAction | IC_htmlId.

Inductive ItemOpenContentsKey : Type := OC_tags | OC_scope.

#[global] Instance ItemFieldKey_eq_dec : EqDecision ItemFieldKey.
Proof. solve_decision. Defined.
#[global] Instance ItemSectionKey_eq_dec : EqDecision ItemSectionKey.
Proof. solve_decision. Defined.
#[global] Instance WebFormFieldKey_eq_dec : EqDecision WebFormFieldKey.
Proof. solve_decision. Defined.
#[global] Instance ItemUrlKey_eq_dec : EqDecision ItemUrlKey.
Proof. solve_decision. Defined.
#[global] Instance ItemContentKey_eq_dec : EqDecision ItemContentKey.
Proof. solve_decision. Defined.
#[global] Instance ItemOpenContentsKey_eq_dec
  : EqDecision ItemOpenContentsKey.
Proof. solve_decision. Defined.

Record ItemField : Type := {
  if_kind : FieldType;
  if_name : string;
  if_title : string;
  if_value : JSValue;
  if_keys : list ItemFieldKey
}.

Record ItemSection : Type := {
  is_name : string;
  is_title : string;
  is_fields : list ItemField;
  is_keys : list ItemSectionKey
}.

Record WebFormField : Type := {
  wf_value : string;
  wf_id : string;
  wf_name : string;
  wf_type : FormFieldType;
  wf_designation : string;
  wf_keys : list WebFormFieldKey
}.

Record ItemUrl : Type := {
  iu_label : string;
  iu_url : string;
  iu_keys : list ItemUrlKey
}.

Record ItemContent : Type := {
  sections : list ItemSection;
  urls : list ItemUrl;
  notes : string;
  formFields : list WebFormField;
  htmlMethod : string;
  htmlAction : string;
  htmlId : string;
  content_keys : list ItemContentKey
}.

Record ItemOpenContents : Type := {
  tags : nullable (list string);
  scope : string;
  oc_keys : list ItemOpenContentsKey
}.

Module ContentUtil.
(** [ContentUtil.empty()] *)
Definition empty : ItemContent :=
  {| sections := []; urls := []; notes := ""; formFields := [];
     htmlMethod := ""; htmlAction := ""; htmlId := "";
     content_keys := [IC_sections; IC_urls; IC_notes; IC_formFields;
                      IC_htmlMethod; IC_htmlAction; IC_htmlId] |}.

(** [ContentUtil.accountField(content)] *)
Definition accountField (content : ItemContent) : nullable WebFormField :=
  match filter (fun field => wf_designation field = "username")
               (formFields content) with
  | f :: _ => val f
  | [] => null
  end.

(** [ContentUtil.account(content)] *)
Definition account (content : ItemContent) : string :=
  match accountField content with
  | val field => wf_value field
  | _ => ""
  end.
End ContentUtil.

(** ** The Item class *)

Record Item (Store : Type) : Type := mkItem {
  store : nullable Store;
  revision : nullable string;
  parentRevision : nullable string;
  uuid : string;
  folderUuid : string;
  faveIndex : nullable number;
  trashed : bool;
  updatedAt : nullable Date;
  createdAt : nullable Date;
  typeName : string;
  title : string;
  openContents : nullable ItemOpenContents;
  locations : list string;
  account : nullable string;
  content : nullable ItemContent
}.
Arguments mkItem {Store}.
Arguments store {Store}.
Arguments revision {Store}.
Arguments parentRevision {Store}.
Arguments uuid {Store}.
Arguments folderUuid {Store}.
Arguments faveIndex {Store}.
Arguments trashed {Store}.
Arguments updatedAt {Store}.
Arguments createdAt {Store}.
Arguments typeName {Store}.
Arguments title {Store}.
Arguments openContents {Store}.
Arguments locations {Store}.
Arguments account {Store}.
Arguments content {Store}.

Record ItemState : Type := {
  st_uuid : string;
  st_revision : nullable string;
  st_deleted : bool
}.

Record ItemAndContent (Store : Type) : Type := {
  iac_item : Item Store;
  iac_content : ItemContent
}.
Arguments iac_item {Store}.
Arguments iac_content {Store}.

Record ListItemsOptions : Type := {
  includeTombstones : nullable bool
}.

(** A stored key generation, as listed by [Store.listKeys()]. *)
Record Key : Type := {
  key_identifier : string;
  key_data : string;
  key_iterations : Z;
  key_validation : string
}.

(** A decrypted key, as produced by [key_agent.decryptKeys]. *)
Record DecryptedKey : Type := {
  dk_id : string;
  dk_key : string
}.

(** ** The Store interface

    [Store] is the type of store references held by items, [World] the
    state of everything a store can read or change (backing files,
    caches).  Each method takes the world and returns the settled promise
    with the new world; methods that receive an item also return the
    item, which a store is free to mutate. *)
Class StoreInterface (Store World : Type) : Type := {
  listItems : Store -> ListItemsOptions -> World ->
              Promise (list (Item Store)) * World;
  saveItem : Store -> Item Store -> World ->
             Promise unit * Item Store * World;
  getContent : Store -> Item Store -> World ->
               Promise ItemContent * Item Store * World;
  getRawDecryptedData : Store -> Item Store -> World ->
                        Promise string * Item Store * World;
  listKeys : Store -> World -> Promise (list Key) * World
}.

Module ItemM.
Section Methods.
Context {Store World : Type} `{StoreInterface Store World}.

(** [new Item(store, uuid)]; [fresh] is the identifier that
  [newUUID()] would allocate when [uuid] is missing or empty. *)
Definition new (st : nullable Store) (id : nullable string)
         (fresh : string) : Item Store :=
{| store := st;
   revision := undefined;
   parentRevision := undefined;
   uuid := match id with
           | val s => if decide (s = "") then fresh else s
           | _ => fresh
           end;
   folderUuid := "";
   faveIndex := undefined;
   trashed := false;
   updatedAt := undefined;
   createdAt := undefined;
   typeName := ItemTypes.LOGIN;
   title := "";
   openContents := undefined;
   locations := [];
   account := undefined;
   content := undefined |}.

Definition setContent (this : Item Store) (c : ItemContent) : Item Store :=
{| store := store this; revision := revision this;
   parentRevision := parentRevision this; uuid := uuid this;
   folderUuid := folderUuid this; faveIndex := faveIndex this;
   trashed := trashed this; updatedAt := updatedAt this;
   createdAt := createdAt this; typeName := typeName this;
   title := title this; openContents := openContents this;
   locations := locations this; account := account this;
   content := val c |}.

(** [getContent()] *)
Definition getContent_ (this : Item Store) (w : World)
: Promise ItemContent * Item Store * World :=
match content this with
| val c => (Resolved c, this, w)
| _ =>
  match store this with
  | val st => getContent st this w
  | _ =>
    let this' := setContent this ContentUtil.empty in
    (Resolved ContentUtil.empty, this', w)
  end
end.

(** [getRawDecryptedData()] *)
Definition getRawDecryptedData_ (this : Item Store) (w : World)
: Promise string * Item Store * World :=
match store this with
| val st => getRawDecryptedData st this w
| _ => (Rejected UnsavedItemError, this, w)
end.

(** [isSaved()] *)
Definition isSaved (this : Item Store) : bool :=
truthy (store this) && not_nullish (updatedAt this).

Definition set_store (this : Item Store) (st : Store) : Item Store :=
{| store := val st; revision := revision this;
   parentRevision := parentRevision this; uuid := uuid this;
   folderUuid := folderUuid this; faveIndex := faveIndex this;
   trashed := trashed this; updatedAt := updatedAt this;
   createdAt := createdAt this; typeName := typeName this;
   title := title this; openContents := openContents this;
   locations := locations this; account := account this;
   content := content this |}.

(** [saveTo(store)] *)
Definition saveTo (this : Item Store) (st : Store) (w : World)
: Promise unit * Item Store * World :=
if negb (truthy (content this)) && negb (isSaved this) then
  (Rejected (PlainError "Unable to save new item, no content set"),
   this, w)
else saveItem st (set_store this st) w.

(** [save()] *)
Definition save (this : Item Store) (w : World)
: Promise unit * Item Store * World :=
match store this with
| val st => saveTo this st w
| _ => (Rejected UnsavedItemError, this, w)
end.

(** The assignments made by [remove()] before it calls the store. *)
Definition tombstone (this : Item Store) : Item Store :=
{| store := store this; revision := revision this;
   parentRevision := parentRevision this; uuid := uuid this;
   folderUuid := "";
   faveIndex := null;
   trashed := true;
   updatedAt := updatedAt this; createdAt := createdAt this;
   typeName := ItemTypes.TOMBSTONE;
   title := "Unnamed";
   openContents := null;
   locations := [];
   account := account this;
   content := val ContentUtil.empty |}.

(** [remove()] *)
Definition remove (this : Item Store) (w : World)
: Promise unit * Item Store * World :=
match store this with
| val st => saveItem st (tombstone this) w
| _ => (Rejected UnsavedItemError, this, w)
end.

(** [isTombstone()] *)
Definition isTombstone (this : Item Store) : bool :=
bool_decide (typeName this = ItemTypes.TOMBSTONE).

Definition set_timestamps (this : Item Store)
         (created updated : nullable Date) : Item Store :=
{| store := store this; revision := revision this;
   parentRevision := parentRevision this; uuid := uuid this;
   folderUuid := folderUuid this; faveIndex := faveIndex this;
   trashed := trashed this; updatedAt := updated;
   createdAt := created; typeName := typeName this;
   title := title this; openContents := openContents this;
   locations := locations this; account := account this;
   content := content this |}.

(** [updateTimestamps()].  [now1] is the date that [new Date()] gives
  when the creation time is initialised, [now2] the one it gives for
  the last-modified time. *)
Definition updateTimestamps (now1 now2 : Date) (this : Item Store)
: Item Store :=
let created :=
  if negb (truthy (createdAt this)) then val now1 else createdAt this in
let prevDate := updatedAt this in
let updated := now2 in
let updated :=
  match prevDate with
  | val prev =>
    if JSNumber.ltb
         (JSNumber.sub (JSDate.getTime updated) (JSDate.getTime prev))
         (Num 1000)
    then JSDate.new (JSNumber.add (JSDate.getTime prev) (Num 1000))
    else updated
  | _ => updated
  end in
set_timestamps this created (val updated).

(** [primaryLocation()] *)
Definition primaryLocation (this : Item Store) : string :=
match locations this with
| l :: _ => l
| [] => ""
end.
End Methods.
End ItemM.

(** ** Helpers on stores *)

Section StoreHelpers.
Context {Store World : Type} `{StoreInterface Store World}.

(** [itemStates(store)]: the default implementation of
    [Store.listItemStates()]. *)
Definition itemStates (st : Store) (w : World)
  : Promise (list ItemState) * World :=
  let '(r, w') := listItems st {| includeTombstones := val true |} w in
  match r with
  | Resolved items =>
    (Resolved
       (map (fun item => {| st_uuid := uuid item;
                            st_revision := revision item;
                            st_deleted := ItemM.isTombstone item |})
            items),
     w')
  | Rejected e => (Rejected e, w')
  end.
End StoreHelpers.

(** ** Key agent *)

(** Modelled from the spec: the [key_agent] module ([KeyAgent],
    [decryptKeys], [decryptKey], [keyFromPassword]) is not part of the
    available source.  The agent is the table from key identifiers to
    unwrapped key material; [addKey] registers a key and replaces an
    existing entry for the same identifier. *)
Abbreviation KeyAgent := (gmap string string).

Module key_agent.
(** Modelled from the spec: [addKey(identifier, rawKeyMaterial)]
    (absent [key_agent] module). *)
Definition addKey (id key : string) (agent : KeyAgent)
  : Promise unit * KeyAgent :=
  (Resolved tt, <[id := key]> agent).

(** Modelled from the spec: the primitives of the absent [key_agent]
    module that unlocking relies on.  [passwordKey] derives the
    password key for one stored generation; [decryptKey] unwraps the
    generation's key under that password key and checks it against the
    validation block, failing with [DecryptionError] on a mismatch. *)
Class Primitives : Type := {
  passwordKey : string -> Key -> Promise string;
  decryptKey : string -> string -> string -> Promise string
}.

Section Decrypt.
Context `{Primitives}.

(** Modelled from the spec: one unlock attempt against one stored key
    generation (derive the password key, then [decryptKey]); part of
    the absent [key_agent] module. *)
Definition attempt (password : string) (k : Key) : Promise DecryptedKey :=
  match passwordKey password k with
  | Resolved derived =>
    match decryptKey derived (key_data k) (key_validation k) with
    | Resolved raw =>
      Resolved {| dk_id := key_identifier k; dk_key := raw |}
    | Rejected e => Rejected e
    end
  | Rejected e => Rejected e
  end.

(** Modelled from the spec: a generation validates against a password
    when the attempt yields a key. *)
Definition validates (password : string) (k : Key) : bool :=
  is_resolved (attempt password k).

(** Modelled from the spec: the keys of the generations that
    validate, in stored order. *)
Fixpoint validated (password : string) (keys : list Key)
  : list DecryptedKey :=
  match keys with
  | [] => []
  | k :: rest =>
    match attempt password k with
    | Resolved dk => dk :: validated password rest
    | Rejected _ => validated password rest
    end
  end.

(** Modelled from the spec: [decryptKeys(keys, password)] of the
    absent [key_agent] module.  Every stored generation is
    attempted; the call succeeds with all keys that validate when at
    least one does, and fails with [DecryptionError] otherwise. *)
Definition decryptKeys (keys : list Key) (password : string)
  : Promise (list DecryptedKey) :=
  match validated password keys with
  | [] => Rejected DecryptionError
  | dks => Resolved dks
  end.
End Decrypt.
End key_agent.

(** [Promise.all] over promises that have settled, in array order. *)
Fixpoint Promise_all {A} (ps : list (Promise A)) : Promise (list A) :=
  match ps with
  | [] => Resolved []
  | Resolved a :: rest =>
    match Promise_all rest with
    | Resolved l => Resolved (a :: l)
    | Rejected e => Rejected e
    end
  | Rejected e :: _ => Rejected e
  end.

(** [asyncutil.eraseResult(p)] *)
Definition eraseResult {A} (p : Promise A) : Promise unit :=
  match p with
  | Resolved _ => Resolved tt
  | Rejected e => Rejected e
  end.

(** The key table after the keys [dks] have been registered in order. *)
Definition with_keys (dks : list DecryptedKey) (agent : KeyAgent) : KeyAgent :=
  foldl (fun a dk => <[dk_id dk := dk_key dk]> a) agent dks.

Section Unlock.
Context {Store World : Type} `{StoreInterface Store World}.
Context `{key_agent.Primitives}.

(** The [keys.forEach] loop of [unlockStore]: every key is handed to
    [agent.addKey] and the returned promise is collected. *)
Fixpoint addKeys (keys : list DecryptedKey) (agent : KeyAgent)
  : list (Promise unit) * KeyAgent :=
  match keys with
  | [] => ([], agent)
  | key :: rest =>
    let '(p, agent1) := key_agent.addKey (dk_id key) (dk_key key) agent in
    let '(ps, agent2) := addKeys rest agent1 in
    (p :: ps, agent2)
  end.

(** [unlockStore(store, agent, password)] *)
Definition unlockStore (st : Store) (agent : KeyAgent) (password : string)
           (w : World) : Promise unit * KeyAgent * World :=
  let '(r, w') := listKeys st w in
  match r with
  | Rejected e => (Rejected e, agent, w')
  | Resolved keys =>
    if (length keys =? 0)%nat then
      (Rejected
         (PlainError
            "Unable to unlock store: No encryption keys have been saved"),
       agent, w')
    else
      match key_agent.decryptKeys keys password with
      | Rejected e => (Rejected e, agent, w')
      | Resolved dks =>
        let '(savedKeys, agent') := addKeys dks agent in
        (eraseResult (Promise_all savedKeys), agent', w')
      end
  end.
End Unlock.

(** ** [JSON.stringify]

    The serialisation that [generateRevisionId] hashes.  Strings are
    sequences of code units below 256. *)
Module JSON.
Definition dquote : ascii := "034"%char.
Definition backslash : ascii := "092"%char.

Definition hex_digit (n : N) : ascii :=
  match n with
  | 0 => "0" | 1 => "1" | 2 => "2" | 3 => "3" | 4 => "4" | 5 => "5"
  | 6 => "6" | 7 => "7" | 8 => "8" | 9 => "9" | 10 => "a" | 11 => "b"
  | 12 => "c" | 13 => "d" | 14 => "e" | _ => "f"
  end%N%char.

(** [\u00XX] for a control character. *)
Definition unicode_escape (n : N) : string :=
  String backslash
    (String "u" (String "0" (String "0"
       (String (hex_digit (n / 16)) (String (hex_digit (n mod 16)) ""))))).

(** The escape of one code unit in [QuoteJSONString]. *)
Definition escape (c : ascii) : string :=
  match N_of_ascii c with
  | 8 => String backslash "b"
  | 9 => String backslash "t"
  | 10 => String backslash "n"
  | 12 => String backslash "f"
  | 13 => String backslash "r"
  | 34 => String backslash (String dquote "")
  | 92 => String backslash (String backslash "")
  | n => if (n <? 32)%N then unicode_escape n else String c ""
  end%N.

Fixpoint escape_string (s : string) : string :=
  match s with
  | EmptyString => ""
  | String c s' => escape c ++ escape_string s'
  end.

Definition quote (s : string) : string :=
  String dquote (escape_string s ++ String dquote "").

(** The 256 code units. *)
Definition all_ascii : list ascii := List.map ascii_of_nat (seq 0 256).

(** The decimal digits of an integer, after a minus sign when it is
    negative. *)
Definition decimal (z : Z) : string :=
  NilEmpty.string_of_int (Z.to_int z).

(** Of the two multiples of [p] around [z], the one that is read back
    as the number [z], if any; when both are, the one closer to [z],
    and at equal distance the one with the even multiplier. *)
Definition closest (z p : Z) : option Z :=
  let s := z / p in
  let lower := s * p in
  let upper := (s + 1) * p in
  match JSNumber.nearest lower =? z, JSNumber.nearest upper =? z with
  | true, false => Some lower
  | false, true => Some upper
  | true, true =>
    if z - lower <? upper - z then Some lower
    else if upper - z <? z - lower then Some upper
    else if Z.even s then Some lower else Some upper
  | false, false => None
  end.

(** The decimal with the fewest significant digits that is read back
    as [z]: the candidates are tried with [zeros] trailing zeros
    first, then with fewer. *)
Fixpoint shortest_from (z : Z) (zeros : nat) : Z :=
  match closest z (10 ^ Z.of_nat zeros) with
  | Some v => v
  | None =>
    match zeros with
    | O => z
    | S zeros' => shortest_from z zeros'
    end
  end.

Definition shortest (z : Z) : Z :=
  shortest_from z (String.length (decimal z) - 1).

(** [v] without its trailing zeros. *)
Fixpoint significand (fuel : nat) (v : Z) : Z :=
  match fuel with
  | O => v
  | S fuel' => if v mod 10 =? 0 then significand fuel' (v / 10) else v
  end.

(** The notation with an exponent, for [v] of 22 digits or more:
    [d.ddde+N], or [de+N] when there is one significant digit. *)
Definition exponential (v : Z) : string :=
  let n := String.length (decimal v) in
  let exponent := "e+" ++ decimal (Z.of_nat (n - 1)) in
  match decimal (significand n v) with
  | String d EmptyString => String d exponent
  | String d rest => String d ("." ++ rest ++ exponent)
  | EmptyString => exponent
  end.

(** [Number::toString] on a positive integer. *)
Definition positive_to_string (z : Z) : string :=
  let v := shortest z in
  if v <? 10 ^ 21 then decimal v else exponential v.

(** [Number::toString] on the integers: the shortest decimal that is
    read back as the number, written in full below 10^21 and with an
    exponent from there on. *)
Definition number_to_string (z : Z) : string :=
  if z <? 0 then "-" ++ positive_to_string (- z)
  else positive_to_string z.

(** The text of a number: [Number::toString] of a finite number,
    [null] for the others. *)
Definition number_text (n : number) : string :=
  match n with
  | Num z =>
    match JSNumber.of_Z z with
    | Num x => number_to_string x
    | _ => "null"
    end
  | _ => "null"
  end.

(** Elements or members joined by commas. *)
Fixpoint join_comma (l : list string) : string :=
  match l with
  | [] => ""
  | [s] => s
  | s :: rest => s ++ "," ++ join_comma rest
  end.

(** [SerializeJSONProperty]: [None] stands for the result
    [undefined].  Array elements that serialise to [undefined] are
    written [null]; object members that do are left out; numbers that
    are not finite are written [null]. *)
Fixpoint serialize (v : JSValue) : option string :=
  match v with
  | JUndefined => None
  | JNull => Some "null"
  | JBool true => Some "true"
  | JBool false => Some "false"
  | JNumber n => Some (number_text n)
  | JString s => Some (quote s)
  | JArray l =>
    Some ("[" ++
          join_comma
            (List.map (fun x => match serialize x with
                                | Some s => s
                                | None => "null"
                                end) l)
          ++ "]")
  | JObject props =>
    Some ("{" ++
          join_comma
            ((fix members (ps : list (string * JSValue)) : list string :=
                match ps with
                | [] => []
                | (k, x) :: ps' =>
                  match serialize x with
                  | Some s => (quote k ++ ":" ++ s) :: members ps'
                  | None => members ps'
                  end
                end) props)
          ++ "}")
  end.

(** [JSON.stringify(value)] of an object or array: always a string. *)
Definition stringify (v : JSValue) : string :=
  match serialize v with
  | Some s => s
  | None => ""
  end.

(** The text of an array element. *)
Definition element (v : JSValue) : string :=
  match serialize v with
  | Some s => s
  | None => "null"
  end.

(** The text of an object member whose value is written. *)
Definition member (kv : string * JSValue) : string :=
  quote (fst kv) ++ ":" ++ element (snd kv).

(** What may follow a value inside a text: nothing, a comma or a
    closing bracket. *)
Definition at_delimiter (r : string) : bool :=
  match r with
  | EmptyString => true
  | String c _ =>
    Ascii.eqb c "," || Ascii.eqb c "]" || Ascii.eqb c "}"
  end.
End JSON.

(** ** [Date.prototype.toISOString]

    The calendar fields of a time value, by the day-to-civil-date
    computation over 400-year eras counted from 1 March of year 0, and
    their rendering as [YYYY-MM-DDTHH:mm:ss.sssZ] (years outside 0..9999
    with a sign and six digits). *)
Module DateISO.
Definition msPerDay : Z := 86400000.

Definition digit (n : Z) : ascii := ascii_of_N (Z.to_N (48 + n mod 10)).

Definition pad2 (n : Z) : string :=
  String (digit (n / 10)) (String (digit n) "").
Definition pad3 (n : Z) : string :=
  String (digit (n / 100)) (pad2 n).
Definition pad4 (n : Z) : string :=
  String (digit (n / 1000)) (pad3 n).
Definition pad6 (n : Z) : string :=
  String (digit (n / 100000)) (String (digit (n / 10000)) (pad4 n)).

(** Year, month (1..12) and day of month of the day number [days]
    (days since 1970-01-01). *)
Definition civil_from_days (days : Z) : Z * Z * Z :=
  let z := days + 719468 in
  let era := z / 146097 in
  let doe := z mod 146097 in
  let yoe := (doe - doe / 1460 + doe / 36524 - doe / 146096) / 365 in
  let doy := doe - (365 * yoe + yoe / 4 - yoe / 100) in
  let mp := (5 * doy + 2) / 153 in
  let d := doy - (153 * mp + 2) / 5 + 1 in
  let m := if mp <? 10 then mp + 3 else mp - 9 in
  let y := yoe + era * 400 + (if m <=? 2 then 1 else 0) in
  (y, m, d).

Definition year_string (y : Z) : string :=
  if (0 <=? y) && (y <=? 9999) then pad4 y
  else if y <? 0 then String "-" (pad6 (- y))
  else String "+" (pad6 y).

Definition toISOString (t : Z) : string :=
  let days := t / msPerDay in
  let ms := t mod msPerDay in
  let '(y, m, d) := civil_from_days days in
  year_string y ++ "-" ++ pad2 m ++ "-" ++ pad2 d ++ "T" ++
  pad2 (ms / 3600000) ++ ":" ++ pad2 (ms / 60000 mod 60) ++ ":" ++
  pad2 (ms / 1000 mod 60) ++ "." ++ pad3 (ms mod 1000) ++ "Z".

(** The time values of valid dates. *)
Definition in_range (t : Z) : Prop :=
  -8640000000000000 <= t <= 8640000000000000.
End DateISO.

(** ** Revision identifiers *)

(** The modules [crypto/sha1] and [base/collectionutil] are not part of
    the available source.  The three functions of theirs that
    [generateRevisionId] calls are parameters of the model:
    [bufferFromString] (the bytes of a string), [SHA1_hash] (the five
    32-bit words that [hasher.hash(srcBuf, digest)] writes into [digest])
    and [hexlify]. *)
Class Digest : Type := {
  bufferFromString : string -> list Z;
  SHA1_hash : list Z -> list Z;
  hexlify : list Z -> string
}.

Definition FieldType_code (k : FieldType) : Z :=
  match k with
  | FT_Text => 0 | FT_Password => 1 | FT_Address => 2 | FT_Date => 3
  | FT_MonthYear => 4 | FT_URL => 5 | FT_CreditCardType => 6
  | FT_PhoneNumber => 7 | FT_Gender => 8 | FT_Email => 9 | FT_Menu => 10
  end.

Definition FormFieldType_code (k : FormFieldType) : Z :=
  match k with
  | FFT_Text => 0 | FFT_Password => 1 | FFT_Email => 2 | FFT_Checkbox => 3
  | FFT_Input => 4
  end.

(** The JavaScript values that [JSON.stringify] sees.  The members of
    an object are its own properties in the order of their creation. *)
Module ToJS.
Definition nullable_ {A} (f : A -> JSValue) (x : nullable A) : JSValue :=
  match x with
  | undefined => JUndefined
  | null => JNull
  | val a => f a
  end.

(** A [Date] is serialised through [toJSON()]: [toISOString()] for a
    valid date and [null] for an Invalid Date. *)
Definition date (d : Date) : JSValue :=
  match JSDate.getTime d with
  | Num t => JString (DateISO.toISOString t)
  | _ => JNull
  end.

(** The object with the properties [keys], named by [name] and holding
    [value]. *)
Definition object_ {K} (name : K -> string) (value : K -> JSValue)
           (keys : list K) : JSValue :=
  JObject (List.map (fun k => (name k, value k)) keys).

Definition ItemFieldKey_name (k : ItemFieldKey) : string :=
  match k with
  | IF_kind => "kind" | IF_name => "name" | IF_title => "title"
  | IF_value => "value"
  end.

Definition field_value (f : ItemField) (k : ItemFieldKey) : JSValue :=
  match k with
  | IF_kind => JNumber (Num (FieldType_code (if_kind f)))
  | IF_name => JString (if_name f)
  | IF_title => JString (if_title f)
  | IF_value => if_value f
  end.

Definition field (f : ItemField) : JSValue :=
  object_ ItemFieldKey_name (field_value f) (if_keys f).

Definition ItemSectionKey_name (k : ItemSectionKey) : string :=
  match k with
  | IS_name => "name" | IS_title => "title" | IS_fields => "fields"
  end.

Definition section_value (s : ItemSection) (k : ItemSectionKey) : JSValue :=
  match k with
  | IS_name => JString (is_name s)
  | IS_title => JString (is_title s)
  | IS_fields => JArray (List.map field (is_fields s))
  end.

Definition section_ (s : ItemSection) : JSValue :=
  object_ ItemSectionKey_name (section_value s) (is_keys s).

Definition ItemUrlKey_name (k : ItemUrlKey) : string :=
  match k with IU_label => "label" | IU_url => "url" end.

Definition url_value (u : ItemUrl) (k : ItemUrlKey) : JSValue :=
  match k with
  | IU_label => JString (iu_label u)
  | IU_url => JString (iu_url u)
  end.

Definition url (u : ItemUrl) : JSValue :=
  object_ ItemUrlKey_name (url_value u) (iu_keys u).

Definition WebFormFieldKey_name (k : WebFormFieldKey) : string :=
  match k with
  | WF_value => "value" | WF_id => "id" | WF_name => "name"
  | WF_type => "type" | WF_designation => "designation"
  end.

Definition formField_value (f : WebFormField) (k : WebFormFieldKey)
  : JSValue :=
  match k with
  | WF_value => JString (wf_value f)
  | WF_id => JString (wf_id f)
  | WF_name => JString (wf_name f)
  | WF_type => JNumber (Num (FormFieldType_code (wf_type f)))
  | WF_designation => JString (wf_designation f)
  end.

Definition formField (f : WebFormField) : JSValue :=
  object_ WebFormFieldKey_name (formField_value f) (wf_keys f).

Definition ItemContentKey_name (k : ItemContentKey) : string :=
  match k with
  | IC_sections => "sections" | IC_urls => "urls" | IC_notes => "notes"
  | IC_formFields => "formFields" | IC_htmlMethod => "htmlMethod"
  | IC_htmlAction => "htmlAction" | IC_htmlId => "htmlId"
  end.

Definition content_value (c : ItemContent) (k : ItemContentKey) : JSValue :=
  match k with
  | IC_sections => JArray (List.map section_ (sections c))
  | IC_urls => JArray (List.map url (urls c))
  | IC_notes => JString (notes c)
  | IC_formFields => JArray (List.map formField (formFields c))
  | IC_htmlMethod => JString (htmlMethod c)
  | IC_htmlAction => JString (htmlAction c)
  | IC_htmlId => JString (htmlId c)
  end.

Definition content_ (c : ItemContent) : JSValue :=
  object_ ItemContentKey_name (content_value c) (content_keys c).

Definition ItemOpenContentsKey_name (k : ItemOpenContentsKey) : string :=
  match k with OC_tags => "tags" | OC_scope => "scope" end.

Definition openContents_value (o : ItemOpenContents)
           (k : ItemOpenContentsKey) : JSValue :=
  match k with
  | OC_tags => nullable_ (fun l => JArray (List.map JString l)) (tags o)
  | OC_scope => JString (scope o)
  end.

Definition openContents_ (o : ItemOpenContents) : JSValue :=
  object_ ItemOpenContentsKey_name (openContents_value o) (oc_keys o).
End ToJS.

Section Revision.
Context {Store : Type}.

(** The object [contentMetadata] built by [generateRevisionId]. *)
Definition contentMetadata (item : ItemAndContent Store) : JSValue :=
  let it := iac_item item in
  JObject
    [("uuid", JString (uuid it));
     ("parentRevision", ToJS.nullable_ JString (parentRevision it));
     ("title", JString (title it));
     ("updatedAt", ToJS.nullable_ ToJS.date (updatedAt it));
     ("createdAt", ToJS.nullable_ ToJS.date (createdAt it));
     ("typeName", JString (typeName it));
     ("openContents", ToJS.nullable_ ToJS.openContents_ (openContents it));
     ("folderUuid", JString (folderUuid it));
     ("faveIndex", ToJS.nullable_ JNumber (faveIndex it));
     ("trashed", JBool (trashed it));
     ("content", ToJS.content_ (iac_content item))].

(** The string that is hashed. *)
Definition contentString (item : ItemAndContent Store) : string :=
  JSON.stringify (contentMetadata item).

(** [generateRevisionId(item)] *)
Definition generateRevisionId `{Digest} (item : ItemAndContent Store)
  : string :=
  let srcBuf := bufferFromString (contentString item) in
  let digest := SHA1_hash srcBuf in
  hexlify digest.

(** Two item-and-content values agree on the fields that enter the
    revision. *)
Definition same_revision_fields (a b : ItemAndContent Store) : Prop :=
  uuid (iac_item a) = uuid (iac_item b) /\
  parentRevision (iac_item a) = parentRevision (iac_item b) /\
  title (iac_item a) = title (iac_item b) /\
  updatedAt (iac_item a) = updatedAt (iac_item b) /\
  createdAt (iac_item a) = createdAt (iac_item b) /\
  typeName (iac_item a) = typeName (iac_item b) /\
  openContents (iac_item a) = openContents (iac_item b) /\
  folderUuid (iac_item a) = folderUuid (iac_item b) /\
  faveIndex (iac_item a) = faveIndex (iac_item b) /\
  trashed (iac_item a) = trashed (iac_item b) /\
  iac_content a = iac_content b.
End Revision.

(** ** Values that JSON tells apart *)

Module Representable.
(** The integers that are written in full and read back exactly:
    [Number.isSafeInteger]. *)
Definition safe_integer (z : Z) : bool := Z.abs z <? 2 ^ 53.

(** A value that JSON writes without loss: no [undefined] and no
    number other than a safe integer, at any depth. *)
Fixpoint clean (v : JSValue) : bool :=
  match v with
  | JUndefined => false
  | JNull | JBool _ | JString _ => true
  | JNumber (Num z) => safe_integer z
  | JNumber _ => false
  | JArray l => forallb clean l
  | JObject props =>
    (fix all (ps : list (string * JSValue)) : bool :=
       match ps with
       | [] => true
       | (_, x) :: ps' => clean x && all ps'
       end) props
  end.

(** A value whose finite numbers are safe integers, at any depth. *)
Fixpoint exact (v : JSValue) : bool :=
  match v with
  | JNumber (Num z) => safe_integer z
  | JArray l => forallb exact l
  | JObject props =>
    (fix all (ps : list (string * JSValue)) : bool :=
       match ps with
       | [] => true
       | (_, x) :: ps' => exact x && all ps'
       end) props
  | _ => true
  end.

(** The kinds of text: [null], [true], [false], numbers, strings,
    arrays and objects, recognised by their first character. *)
Definition kind (v : JSValue) : nat :=
  match v with
  | JUndefined => 0
  | JNull => 1
  | JBool true => 2
  | JBool false => 3
  | JNumber (Num _) => 4
  | JNumber _ => 1
  | JString _ => 5
  | JArray _ => 6
  | JObject _ => 7
  end%nat.

Definition kind_of_head (c : ascii) : nat :=
  (if Ascii.eqb c "n" then 1
   else if Ascii.eqb c "t" then 2
   else if Ascii.eqb c "f" then 3
   else if Ascii.eqb c "-" || (Ascii.leb "0" c && Ascii.leb c "9") then 4
   else if Ascii.eqb c JSON.dquote then 5
   else if Ascii.eqb c "[" then 6
   else if Ascii.eqb c "{" then 7
   else 0)%nat.

(** The representable value that JSON writes in the same way:
    numbers that are not finite and [undefined] array elements become
    [null], object members with value [undefined] are dropped. *)
Fixpoint normal (v : JSValue) : JSValue :=
  match v with
  | JNumber (Num z) => JNumber (Num z)
  | JNumber _ => JNull
  | JArray l =>
    JArray (List.map (fun x => match x with
                               | JUndefined => JNull
                               | _ => normal x
                               end) l)
  | JObject props =>
    JObject
      ((fix members (ps : list (string * JSValue)) :=
          match ps with
          | [] => []
          | (k, x) :: ps' =>
            match x with
            | JUndefined => members ps'
            | _ => (k, normal x) :: members ps'
            end
          end) props)
  | _ => v
  end.

(** The members that [normal] keeps. *)
Fixpoint normal_members (ps : list (string * JSValue))
  : list (string * JSValue) :=
  match ps with
  | [] => []
  | (k, x) :: ps' =>
    match x with
    | JUndefined => normal_members ps'
    | _ => (k, normal x) :: normal_members ps'
    end
  end.

(** [normal] of a member value or top-level value; [None] when
    nothing is written. *)
Definition normal_opt (v : JSValue) : option JSValue :=
  match v with
  | JUndefined => None
  | _ => Some (normal v)
  end.

(** A number that JSON writes in full: finite, and a safe integer. *)
Definition finite (n : number) : bool :=
  match n with Num z => safe_integer z | _ => false end.

Definition nullable_all {A} (p : A -> bool) (x : nullable A) : bool :=
  match x with val a => p a | _ => true end.

Definition date_ok (d : Date) : bool := JSDate.valid d.

(** An object that has each of the properties [all] once. *)
Definition own_keys {K} `{EqDecision K} (all keys : list K) : bool :=
  bool_decide (NoDup keys) &&
  forallb (fun k => bool_decide (k ∈ keys)) all.

Definition field_ok (f : ItemField) : bool :=
  own_keys [IF_kind; IF_name; IF_title; IF_value] (if_keys f) &&
  clean (if_value f).

Definition section_ok (s : ItemSection) : bool :=
  own_keys [IS_name; IS_title; IS_fields] (is_keys s) &&
  forallb field_ok (is_fields s).

Definition url_ok (u : ItemUrl) : bool :=
  own_keys [IU_label; IU_url] (iu_keys u).

Definition formField_ok (f : WebFormField) : bool :=
  own_keys [WF_value; WF_id; WF_name; WF_type; WF_designation] (wf_keys f).

Definition content_ok (c : ItemContent) : bool :=
  own_keys [IC_sections; IC_urls; IC_notes; IC_formFields;
            IC_htmlMethod; IC_htmlAction; IC_htmlId] (content_keys c) &&
  forallb section_ok (sections c) &&
  forallb url_ok (urls c) &&
  forallb formField_ok (formFields c).

(** Open contents have the property [scope], and the property [tags]
    exactly when [tags] is not [undefined]. *)
Definition openContents_ok (o : ItemOpenContents) : bool :=
  bool_decide (NoDup (oc_keys o)) &&
  bool_decide (OC_scope ∈ oc_keys o) &&
  Bool.eqb (bool_decide (OC_tags ∈ oc_keys o))
           (match tags o with undefined => false | _ => true end).

(** An item-and-content value whose revision fields JSON writes
    without loss: the dates are valid dates, the favourite index is a
    safe integer when it is a number, every object of the open
    contents and of the content has each property of its interface
    once, and the field values are [clean]. *)
Definition item_ok {Store} (a : ItemAndContent Store) : bool :=
  nullable_all date_ok (updatedAt (iac_item a)) &&
  nullable_all date_ok (createdAt (iac_item a)) &&
  nullable_all finite (faveIndex (iac_item a)) &&
  nullable_all openContents_ok (openContents (iac_item a)) &&
  content_ok (iac_content a).
End Representable.

(** ** Example inputs for revisions *)

Module RevisionExamples.
(** A digest that performs no hashing: the bytes of the string, and
    back. *)
Definition identity_digest : Digest :=
  {| bufferFromString s :=
       List.map (fun c => Z.of_N (N_of_ascii c)) (list_ascii_of_string s);
     SHA1_hash buf := buf;
     hexlify words :=
       string_of_list_ascii
         (List.map (fun z => ascii_of_N (Z.to_N z)) words) |}.

Definition with_faveIndex (n : nullable number) : Item unit :=
  {| store := undefined;
     revision := undefined;
     parentRevision := val "r0";
     uuid := "CA20BB325873446966ED1F4E641B5A36";
     folderUuid := "";
     faveIndex := n;
     trashed := false;
     updatedAt := val (DateAt 1398413120000);
     createdAt := val (DateAt 1398413120000);
     typeName := ItemTypes.LOGIN;
     title := "Facebook";
     openContents :=
       val {| tags := null; scope := ""; oc_keys := [OC_tags; OC_scope] |};
     locations := ["facebook.com"];
     account := val "john.doe@gmail.com";
     content := undefined |}.

(** The content with one url, an object created as
    [{label: ..., url: ...}] or as [{url: ..., label: ...}]. *)
Definition login_content_with (url_keys : list ItemUrlKey) : ItemContent :=
  {| sections := [];
     urls := [ {| iu_label := "website"; iu_url := "facebook.com";
                  iu_keys := url_keys |} ];
     notes := "";
     formFields :=
       [ {| wf_value := "john.doe@gmail.com"; wf_id := "";
            wf_name := "username"; wf_type := FFT_Text;
            wf_designation := "username";
            wf_keys := [WF_value; WF_id; WF_name; WF_type;
                        WF_designation] |} ];
     htmlMethod := ""; htmlAction := ""; htmlId := "";
     content_keys := content_keys ContentUtil.empty |}.

Definition login_content : ItemContent :=
  login_content_with [IU_label; IU_url].

Definition login_content_url_first : ItemContent :=
  login_content_with [IU_url; IU_label].

(** The item with [faveIndex] [null], as [remove()] leaves it... *)
Definition item_null : ItemAndContent unit :=
  {| iac_item := with_faveIndex null; iac_content := login_content |}.

(** ... and with [faveIndex] [NaN]. *)
Definition item_nan : ItemAndContent unit :=
  {| iac_item := with_faveIndex (val NaN); iac_content := login_content |}.

Definition item_3 : ItemAndContent unit :=
  {| iac_item := with_faveIndex (val (Num 3));
     iac_content := login_content |}.

(** The same revision fields as [item_3]; store-side data differ. *)
Definition item_3_elsewhere : ItemAndContent unit :=
  {| iac_item :=
       {| store := val tt;
          revision := val "r9";
          parentRevision := val "r0";
          uuid := "CA20BB325873446966ED1F4E641B5A36";
          folderUuid := "";
          faveIndex := val (Num 3);
          trashed := false;
          updatedAt := val (DateAt 1398413120000);
          createdAt := val (DateAt 1398413120000);
          typeName := ItemTypes.LOGIN;
          title := "Facebook";
          openContents :=
       val {| tags := null; scope := ""; oc_keys := [OC_tags; OC_scope] |};
          locations := [];
          account := val "someone else";
          content := val ContentUtil.empty |};
     iac_content := login_content |}.

Definition item_4 : ItemAndContent unit :=
  {| iac_item := with_faveIndex (val (Num 4));
     iac_content := login_content |}.

(** [item_3] with the url object created in the other order. *)
Definition item_3_url_first : ItemAndContent unit :=
  {| iac_item := with_faveIndex (val (Num 3));
     iac_content := login_content_url_first |}.
End RevisionExamples.

(** ** Encrypted item blobs *)

Module agile_keychain_crypto.
(** Modelled from the spec: the module [agile_keychain_crypto] is not
    part of the available source (only the test of its round trip is,
    where the functions are called [encryptAgileKeychainItemData] and
    [decryptAgileKeychainItemData] and receive the cipher
    implementation as their first argument).  The implementation
    provides the block cipher in chained mode, which validates the
    padding when it decrypts, and the derivation of the local key and
    iv from the master key material and the salt; the blob format has
    a fixed magic header and a fixed salt length. *)
Class Crypto : Type := {
  aesCbcEncrypt : string -> string -> string -> Promise string;
  aesCbcDecrypt : string -> string -> string -> Promise string;
  deriveLocalKey : string -> string -> string * string;
  magic : string;
  saltLength : nat
}.

Fixpoint strip_prefix (p s : string) : option string :=
  match p, s with
  | EmptyString, _ => Some s
  | String a p', String b s' =>
    if Ascii.eqb a b then strip_prefix p' s' else None
  | String _ _, EmptyString => None
  end.

Fixpoint string_take (n : nat) (s : string) : string :=
  match n, s with
  | S n', String c s' => String c (string_take n' s')
  | _, _ => EmptyString
  end.

Fixpoint string_drop (n : nat) (s : string) : string :=
  match n, s with
  | S n', String _ s' => string_drop n' s'
  | _, _ => s
  end.

Section Blob.
Context `{Crypto}.

(** Modelled from the spec: [encryptItemBlob(masterKeyMaterial,
    plaintext)] of the absent module.  [salt] is the fresh random
    salt of the call; the local key and the iv are derived from the
    master key material and the salt, the plaintext is encrypted
    under them, and the ciphertext is prefixed with the magic header
    and the salt. *)
Definition encryptItemBlob (salt masterKey plaintext : string)
  : Promise string :=
  let '(key, iv) := deriveLocalKey masterKey salt in
  match aesCbcEncrypt key plaintext iv with
  | Resolved ciphertext => Resolved (magic ++ salt ++ ciphertext)%string
  | Rejected e => Rejected e
  end.

(** Modelled from the spec: [decryptItemBlob(masterKeyMaterial,
    blob)] of the absent module.  The header magic is validated, the
    key is derived again from the embedded salt, the ciphertext is
    decrypted and its padding validated; every failure is a
    [DecryptionError]. *)
Definition decryptItemBlob (masterKey blob : string) : Promise string :=
  match strip_prefix magic blob with
  | None => Rejected DecryptionError
  | Some rest =>
    if (String.length rest <? saltLength)%nat then
      Rejected DecryptionError
    else
      let salt := string_take saltLength rest in
      let ciphertext := string_drop saltLength rest in
      let '(key, iv) := deriveLocalKey masterKey salt in
      match aesCbcDecrypt key ciphertext iv with
      | Resolved plaintext => Resolved plaintext
      | Rejected _ => Rejected DecryptionError
      end
  end.
End Blob.
End agile_keychain_crypto.

(** ** Passwords and keys, counted *)

Module Counting.
(** The strings of [n] characters. *)
Fixpoint strings_of_length (n : nat) : list string :=
  match n with
  | O => [""]
  | S n' =>
    flat_map (fun c => List.map (String c) (strings_of_length n'))
             JSON.all_ascii
  end.

(** The pairs of a key of [keyLength] characters and an iv of
    [ivLength] characters. *)
Definition keys_and_ivs (keyLength ivLength : nat) : list (string * string) :=
  list_prod (strings_of_length keyLength) (strings_of_length ivLength).

(** The password made of [n] letters [a]. *)
Fixpoint password_of (n : nat) : string :=
  match n with
  | O => ""
  | S n' => String "a" (password_of n')
  end.

(** One more password than there are pairs of a key and an iv. *)
Definition passwords (keyLength ivLength : nat) : list string :=
  List.map password_of (seq 0 (S (length (keys_and_ivs keyLength ivLength)))).
End Counting.

(** ** A toy cipher

    An implementation of the cipher interface that is small enough to
    compute with, used to run the model on concrete inputs.  The
    plaintext is padded to a multiple of 16 characters with [n] copies
    of the character of code [n]; the blocks are single characters,
    chained: every character is combined by exclusive or with the
    previous character of the ciphertext (the first character of the
    iv, for the first one) and then with the first character of the
    key.  Decryption undoes the combination and validates the
    padding. *)
Module ToyCrypto.
Definition xor_ascii (a b : ascii) : ascii :=
  match a, b with
  | Ascii a0 a1 a2 a3 a4 a5 a6 a7, Ascii b0 b1 b2 b3 b4 b5 b6 b7 =>
    Ascii (xorb a0 b0) (xorb a1 b1) (xorb a2 b2) (xorb a3 b3)
          (xorb a4 b4) (xorb a5 b5) (xorb a6 b6) (xorb a7 b7)
  end.

Definition first_char (s : string) : ascii :=
  match s with
  | String c _ => c
  | EmptyString => Ascii.zero
  end.

Definition pad (p : list ascii) : list ascii :=
  let n := (16 - length p mod 16)%nat in
  (p ++ replicate n (ascii_of_nat n))%list.

Definition unpad (s : list ascii) : option (list ascii) :=
  match last s with
  | None => None
  | Some c =>
    let n := nat_of_ascii c in
    if ((1 <=? n) && (n <=? 16) && (n <=? length s) &&
        forallb (Ascii.eqb c) (drop (length s - n) s))%nat
    then Some (take (length s - n) s)
    else None
  end.

(** The chain: [previous] is the ciphertext character before. *)
Fixpoint chain_encrypt (k previous : ascii) (p : list ascii) : list ascii :=
  match p with
  | [] => []
  | x :: rest =>
    let c := xor_ascii k (xor_ascii x previous) in
    c :: chain_encrypt k c rest
  end.

Fixpoint chain_decrypt (k previous : ascii) (c : list ascii) : list ascii :=
  match c with
  | [] => []
  | y :: rest =>
    xor_ascii (xor_ascii k y) previous :: chain_decrypt k y rest
  end.

Definition encrypt (key plaintext iv : string) : Promise string :=
  Resolved
    (string_of_list_ascii
       (chain_encrypt (first_char key) (first_char iv)
                      (pad (list_ascii_of_string plaintext)))).

Definition decrypt (key ciphertext iv : string) : Promise string :=
  match unpad (chain_decrypt (first_char key) (first_char iv)
                             (list_ascii_of_string ciphertext)) with
  | Some p => Resolved (string_of_list_ascii p)
  | None => Rejected CryptoError
  end.

#[global] Instance impl : agile_keychain_crypto.Crypto := {
  agile_keychain_crypto.aesCbcEncrypt := encrypt;
  agile_keychain_crypto.aesCbcDecrypt := decrypt;
  agile_keychain_crypto.deriveLocalKey masterKey salt := (masterKey, salt);
  agile_keychain_crypto.magic := "Salted__";
  agile_keychain_crypto.saltLength := 8
}.
End ToyCrypto.

(** ** An in-memory store

    A small implementation of the [Store] interface, used to run the
    model on concrete inputs.  It keeps the saved items (overview and
    content together) in a list, most recent first, counts how often an
    item's content is fetched from it, and holds the stored key
    generations.  There is a single store, referred to by [tt]. *)
Module MemStore.
Record world : Type := {
  saved : list (Item unit);
  fetches : nat;
  keys : list Key
}.

Definition find_item (id : string) (w : world) : option (Item unit) :=
  List.find (fun it => bool_decide (uuid it = id)) (saved w).

Definition list_items (opts : ListItemsOptions) (w : world)
  : list (Item unit) :=
  match includeTombstones opts with
  | val true => saved w
  | _ => List.filter (fun it => negb (ItemM.isTombstone it)) (saved w)
  end.

Definition save_item (item : Item unit) (w : world) : world :=
  {| saved :=
       item :: List.filter (fun it => negb (bool_decide (uuid it = uuid item)))
                           (saved w);
     fetches := fetches w;
     keys := keys w |}.

Definition fetch_content (item : Item unit) (w : world)
  : Promise ItemContent * Item unit * world :=
  let w' := {| saved := saved w; fetches := S (fetches w);
               keys := keys w |} in
  match find_item (uuid item) w with
  | Some it =>
    match content it with
    | val c => (Resolved c, item, w')
    | _ => (Resolved ContentUtil.empty, item, w')
    end
  | None => (Rejected ItemNotFound, item, w')
  end.

#[global] Instance ops : StoreInterface unit world := {
  listItems _ opts w := (Resolved (list_items opts w), w);
  saveItem _ item w := (Resolved tt, item, save_item item w);
  getContent _ item w := fetch_content item w;
  getRawDecryptedData _ item w :=
    match find_item (uuid item) w with
    | Some it =>
      match content it with
      | val c => (Resolved (JSON.stringify (ToJS.content_ c)), item, w)
      | _ => (Rejected ItemNotFound, item, w)
      end
    | None => (Rejected ItemNotFound, item, w)
    end;
  listKeys _ w := (Resolved (keys w), w)
}.

(** A login item with one URL, saved in the store. *)
Definition site_content : ItemContent :=
  {| sections := [];
     urls := [ {| iu_label := "website"; iu_url := "mysite.com";
                  iu_keys := [IU_label; IU_url] |} ];
     notes := ""; formFields := [];
     htmlMethod := ""; htmlAction := ""; htmlId := "";
     content_keys := content_keys ContentUtil.empty |}.

Definition saved_item : Item unit :=
  {| store := val tt;
     revision := val "r1";
     parentRevision := undefined;
     uuid := "CA20BB325873446966ED1F4E641B5A36";
     folderUuid := "F1";
     faveIndex := val (Num 3);
     trashed := false;
     updatedAt := val (DateAt 1398413120000);
     createdAt := val (DateAt 1398413120000);
     typeName := ItemTypes.LOGIN;
     title := "Facebook";
     openContents := undefined;
     locations := ["mysite.com"];
     account := undefined;
     content := val site_content |}.

Definition vault : world :=
  {| saved := [saved_item]; fetches := 0%nat; keys := [] |}.

(** The saved item with a last-modified time on the last millisecond
    that a date can hold (13 September 275760)... *)
Definition last_item : Item unit :=
  ItemM.set_timestamps saved_item (createdAt saved_item)
                       (val (DateAt 8640000000000000)).

(** ... and with an Invalid Date as last-modified time. *)
Definition undated_item : Item unit :=
  ItemM.set_timestamps saved_item (createdAt saved_item) (val InvalidDate).

(** The same item as listed from the store: the overview without
    the content. *)
Definition listed_item : Item unit :=
  {| store := val tt;
     revision := val "r1";
     parentRevision := undefined;
     uuid := "CA20BB325873446966ED1F4E641B5A36";
     folderUuid := "F1";
     faveIndex := val (Num 3);
     trashed := false;
     updatedAt := val (DateAt 1398413120000);
     createdAt := val (DateAt 1398413120000);
     typeName := ItemTypes.LOGIN;
     title := "Facebook";
     openContents := undefined;
     locations := ["mysite.com"];
     account := undefined;
     content := undefined |}.

(** A fresh item that belongs to no store. *)
Definition unsaved_item : Item unit :=
  ItemM.new undefined undefined "0123456789ABCDEF0123456789ABCDEF".
End MemStore.

(** ** Example key generations

    A toy instance of the key primitives, used to run [unlockStore] on
    concrete inputs: the password key of a generation is the password
    itself, and a wrapped key unwraps when the password key equals its
    validation block. *)
Module ToyKeys.
#[global] Instance prims : key_agent.Primitives := {
  passwordKey password k := Resolved password;
  decryptKey derived data validation :=
    if bool_decide (derived = validation) then Resolved data
    else Rejected DecryptionError
}.

(** Two generations wrapped independently, under different passwords. *)
Definition gen1 : Key :=
  {| key_identifier := "K1"; key_data := "master-1";
     key_iterations := 100; key_validation := "logMEin" |}.
Definition gen2 : Key :=
  {| key_identifier := "K2"; key_data := "master-2";
     key_iterations := 1000; key_validation := "old-pass" |}.

Definition vault : MemStore.world :=
  {| MemStore.saved := []; MemStore.fetches := 0%nat;
     MemStore.keys := [gen1; gen2] |}.
End ToyKeys.

(** ** Further parts of [lib/item_store.ts] *)

Record ItemTypeInfo : Type := {
  iti_name : string;
  iti_shortAlias : string
}.

(** The item type codes of the class [ItemTypes], in the order of their
    declaration. *)
Definition ItemTypes_all : list string :=
  [ "webforms.WebForm"; "wallet.financial.CreditCard";
    "wallet.computer.Router"; "securenotes.SecureNote";
    "passwords.Password"; "wallet.onlineservices.Email.v2";
    "wallet.financial.BankAccountUS"; "wallet.computer.Database";
    "wallet.government.DriversLicense"; "wallet.membership.Membership";
    "wallet.government.HuntingLicense"; "wallet.government.Passport";
    "wallet.membership.RewardProgram"; "wallet.computer.UnixServer";
    "wallet.government.SsnUS"; "wallet.computer.License";
    "identities.Identity"; "system.folder.Regular";
    "system.folder.SavedSearch"; "system.Tombstone" ].

(** The entries of the object [ITEM_TYPES], in source order. *)
Definition ITEM_TYPES_entries : list (string * ItemTypeInfo) :=
  [ ("webforms.WebForm",
     {| iti_name := "Login"; iti_shortAlias := "login" |});
    ("wallet.financial.CreditCard",
     {| iti_name := "Credit Card"; iti_shortAlias := "card" |});
    ("wallet.computer.Router",
     {| iti_name := "Wireless Router"; iti_shortAlias := "router" |});
    ("securenotes.SecureNote",
     {| iti_name := "Secure Note"; iti_shortAlias := "note" |});
    ("passwords.Password",
     {| iti_name := "Password"; iti_shortAlias := "pass" |});
    ("wallet.onlineservices.Email.v2",
     {| iti_name := "Email Account"; iti_shortAlias := "email" |});
    ("system.folder.Regular",
     {| iti_name := "Folder"; iti_shortAlias := "folder" |});
    ("system.folder.SavedSearch",
     {| iti_name := "Smart Folder"; iti_shortAlias := "smart-folder" |});
    ("wallet.financial.BankAccountUS",
     {| iti_name := "Bank Account"; iti_shortAlias := "bank" |});
    ("wallet.computer.Database",
     {| iti_name := "Database"; iti_shortAlias := "db" |});
    ("wallet.government.DriversLicense",
     {| iti_name := "Driver's License"; iti_shortAlias := "driver" |});
    ("wallet.membership.Membership",
     {| iti_name := "Membership"; iti_shortAlias := "membership" |});
    ("wallet.government.HuntingLicense",
     {| iti_name := "Outdoor License"; iti_shortAlias := "outdoor" |});
    ("wallet.government.Passport",
     {| iti_name := "Passport"; iti_shortAlias := "passport" |});
    ("wallet.membership.RewardProgram",
     {| iti_name := "Reward Program"; iti_shortAlias := "reward" |});
    ("wallet.computer.UnixServer",
     {| iti_name := "Unix Server"; iti_shortAlias := "server" |});
    ("wallet.government.SsnUS",
     {| iti_name := "Social Security Number"; iti_shortAlias := "social" |});
    ("wallet.computer.License",
     {| iti_name := "Software License"; iti_shortAlias := "software" |});
    ("identities.Identity",
     {| iti_name := "Identity"; iti_shortAlias := "id" |});
    ("system.Tombstone",
     {| iti_name := "Tombstone"; iti_shortAlias := "tombstone" |}) ].

(** The map [ITEM_TYPES] from item type codes to their descriptions
    (the own properties of the object). *)
Definition ITEM_TYPES : gmap string ItemTypeInfo :=
  list_to_map ITEM_TYPES_entries.

Module ContentUtilMore.
(** [ContentUtil.passwordField(content)] *)
Definition passwordField (content : ItemContent) : nullable WebFormField :=
  match filter (fun field => wf_designation field = "password")
               (formFields content) with
  | f :: _ => val f
  | [] => null
  end.

(** [ContentUtil.password(content)] *)
Definition password (content : ItemContent) : string :=
  match passwordField content with
  | val field => wf_value field
  | _ => ""
  end.
End ContentUtilMore.

Module ItemOps.
Section Methods.
Context {Store World : Type} `{StoreInterface Store World}.

(** [typeDescription()], for type names that are not names of
    properties that every object inherits. *)
Definition typeDescription (this : Item Store) : string :=
  match ITEM_TYPES !! typeName this with
  | Some info => iti_name info
  | None => typeName this
  end.

(** [isRegularItem()]; [startsWith] is the helper of the module
    [base/stringutil], which is not part of the available source. *)
Definition isRegularItem (startsWith : string -> string -> bool)
           (this : Item Store) : bool :=
  negb (startsWith (typeName this) "system.").

(** [updateOverviewFromContent(content)] *)
Definition updateOverviewFromContent (this : Item Store)
           (itemContent : ItemContent) : Item Store :=
  {| store := store this; revision := revision this;
     parentRevision := parentRevision this; uuid := uuid this;
     folderUuid := folderUuid this; faveIndex := faveIndex this;
     trashed := trashed this; updatedAt := updatedAt this;
     createdAt := createdAt this; typeName := typeName this;
     title := title this; openContents := openContents this;
     locations := List.map iu_url (urls itemContent);
     account := val (ContentUtil.account itemContent);
     content := content this |}.

(** Successive [updateTimestamps()] calls, one per pair of clock
    readings. *)
Definition updateTimestamps_each (clocks : list (Date * Date))
           (this : Item Store) : Item Store :=
  fold_left (fun it c => ItemM.updateTimestamps (fst c) (snd c) it)
            clocks this.

(** [cloneItem(itemAndContent, uuid, store)]; [clone] copies a value
    structurally, and [fresh] is the identifier [newUUID()] would
    allocate. *)
Definition cloneItem (itemAndContent : ItemAndContent Store)
           (id : nullable string) (st : nullable Store) (fresh : string)
  : ItemAndContent Store :=
  let item := iac_item itemAndContent in
  let clonedItem := ItemM.new st id fresh in
  let clonedContent := iac_content itemAndContent in
  {| iac_item :=
       {| store := store clonedItem;
          revision := revision clonedItem;
          parentRevision := revision item;
          uuid := uuid clonedItem;
          folderUuid := uuid item;
          faveIndex := faveIndex item;
          trashed := trashed item;
          updatedAt := updatedAt item;
          createdAt := createdAt item;
          typeName := typeName item;
          title := title item;
          openContents := openContents item;
          locations := locations item;
          account := account item;
          content := val clonedContent |};
     iac_content := clonedContent |}.
End Methods.
End ItemOps.

(** ** [lib/item_repair.ts] *)

Module item_repair.
Section Repair.
Context {Store World : Type} `{StoreInterface Store World}.

Definition set_locations (item : Item Store) (locs : list string)
  : Item Store :=
  {| store := store item; revision := revision item;
     parentRevision := parentRevision item; uuid := uuid item;
     folderUuid := folderUuid item; faveIndex := faveIndex item;
     trashed := trashed item; updatedAt := updatedAt item;
     createdAt := createdAt item; typeName := typeName item;
     title := title item; openContents := openContents item;
     locations := locs; account := account item;
     content := content item |}.

(** The location that the content of an item implies. *)
Definition expectedLocation (content : ItemContent) : string :=
  match urls content with
  | u :: _ => iu_url u
  | [] => ""
  end.

(** The two lines reported for a location mismatch. *)
Definition mismatch_report (item : Item Store) (expected : string)
  : list string :=
  [ (title item ++ ":")%string;
    ("  Location mismatch. Actual " ++ String JSON.dquote "" ++
     ItemM.primaryLocation item ++ String JSON.dquote "" ++ ", expected " ++
     String JSON.dquote "" ++ expected ++ String JSON.dquote "")%string ].

(** [repairItem(item, reportError, prompt)].  The result carries the
    item as it is left, the lines passed to [reportError] and the
    world; [prompt] asks the user through the world. *)
Definition repairItem (item : Item Store)
           (prompt : World -> Promise bool * World) (w : World)
  : Promise unit * Item Store * list string * World :=
  let '(r, item1, w1) := ItemM.getContent_ item w in
  match r with
  | Rejected e => (Rejected e, item1, [], w1)
  | Resolved content =>
    let expected := expectedLocation content in
    if bool_decide (ItemM.primaryLocation item1 <> expected) then
      let reports := mismatch_report item1 expected in
      let item2 := set_locations item1 (List.map iu_url (urls content)) in
      let '(answer, w2) := prompt w1 in
      match answer with
      | Rejected e => (Rejected e, item2, reports, w2)
      | Resolved true =>
        let '(saved, item3, w3) := ItemM.save item2 w2 in
        (saved, item3, reports, w3)
      | Resolved false => (Resolved tt, item2, reports, w2)
      end
    else (Resolved tt, item1, [], w1)
  end.
End Repair.
End item_repair.

(** ** [lib/base/asyncutil.ts] *)

Module asyncutil.
(** [Result<T, Error>]: the value or the error of a settled promise. *)
Record Result (T : Type) : Type := {
  value : nullable T;
  error : nullable Error
}.
Arguments value {T}.
Arguments error {T}.

(** [result(promise)] *)
Definition result {T} (promise : Promise T) : Promise (Result T) :=
  match promise with
  | Resolved v => Resolved {| value := val v; error := undefined |}
  | Rejected e => Resolved {| value := undefined; error := val e |}
  end.

Section Loops.
Context {World : Type}.

(** [series(funcs, results)].  Each function starts an operation on
    the world when it is called. *)
Fixpoint series {A} (funcs : list (World -> Promise A * World))
         (results : nullable (list A)) (w : World)
  : Promise (list A) * World :=
  let results := match results with val l => l | _ => [] end in
  match funcs with
  | [] => (Resolved results, w)
  | f :: rest =>
    let '(r, w') := f w in
    match r with
    | Resolved x => series rest (val (results ++ [x])%list) w'
    | Rejected e => (Rejected e, w')
    end
  end.

(** [until(func)].  The loop need not end; [fuel] bounds the number of
    iterations that are followed, and [None] means that the loop is
    still running when the fuel is used up. *)
Fixpoint until (fuel : nat) (func : World -> Promise bool * World)
         (w : World) : option (Promise bool * World) :=
  match fuel with
  | O => None
  | S fuel' =>
    let '(r, w') := func w in
    match r with
    | Resolved true => Some (Resolved true, w')
    | Resolved false => until fuel' func w'
    | Rejected e => Some (Rejected e, w')
    end
  end.

(** The worlds reached by iterations of [func] that resolve with
    [false]. *)
Inductive not_done (func : World -> Promise bool * World)
  : nat -> World -> World -> Prop :=
| not_done_O w : not_done func O w w
| not_done_S n w w1 w2 :
    func w = (Resolved false, w1) ->
    not_done func n w1 w2 ->
    not_done func (S n) w w2.
End Loops.
End asyncutil.

(** ** Strings of JavaScript *)

Module JSString.
(** The codes of the capital letters among the characters below 256:
    [A] to [Z], and the capitals of Latin-1, U+00C0 to U+00DE without
    the multiplication sign U+00D7.  The small letter of each is 32
    further. *)
Definition capital_code (n : nat) : bool :=
  ((65 <=? n) && (n <=? 90) ||
   (192 <=? n) && (n <=? 214) ||
   (216 <=? n) && (n <=? 222))%nat.

(** [toLowerCase()] on a character: a capital letter is mapped to its
    small letter and every other character is left as it is. *)
Definition lower_char (c : ascii) : ascii :=
  let n := nat_of_ascii c in
  if capital_code n then ascii_of_nat (n + 32) else c.

(** [s.toLowerCase()] *)
Fixpoint toLowerCase (s : string) : string :=
  match s with
  | EmptyString => EmptyString
  | String c s' => String (lower_char c) (toLowerCase s')
  end.

(** [s.indexOf(pattern)] *)
Definition indexOf (s pattern : string) : Z :=
  match String.index 0 pattern s with
  | Some n => Z.of_nat n
  | None => -1
  end.

(** Two characters that are the same letter: the same character, or a
    capital letter and its small letter. *)
Inductive same_letter : ascii -> ascii -> Prop :=
| same_char c : same_letter c c
| capital_small n :
    capital_code n = true ->
    same_letter (ascii_of_nat n) (ascii_of_nat (n + 32))
| small_capital n :
    capital_code n = true ->
    same_letter (ascii_of_nat (n + 32)) (ascii_of_nat n).

(** Two strings that are equal, letter case apart. *)
Inductive caseless : string -> string -> Prop :=
| caseless_nil : caseless "" ""
| caseless_cons c1 c2 s1 s2 :
    same_letter c1 c2 -> caseless s1 s2 ->
    caseless (String c1 s1) (String c2 s2).
End JSString.

(** ** The command-line client [cli.ts] *)

(** A deferred promise: pending until it is resolved or rejected. *)
Inductive Deferred (A : Type) : Type :=
| Pending
| Settled (p : Promise A).
Arguments Pending {A}.
Arguments Settled {A} p.

Module cli.
Section Lookup.
(** The vault and its items belong to the module [onepass]; of an item
    only the title is used here. *)
Context {Vault VItem World : Type}.
Variable title_of : VItem -> string.
Variable vault_listItems : Vault -> World -> Promise (list VItem) * World.

(** [patternMatch(pattern, item)] *)
Definition patternMatch (pattern : string) (item : VItem) : bool :=
  let pattern := JSString.toLowerCase pattern in
  let titleLower := JSString.toLowerCase (title_of item) in
  bool_decide (JSString.indexOf titleLower pattern <> -1).

(** [lookupItems(vault, pattern)]; the second component is what is
    written to the console. *)
Definition lookupItems (vault : Vault) (pattern : string) (w : World)
  : Deferred (list VItem) * list string * World :=
  let '(listed, w') := vault_listItems vault w in
  match listed with
  | Resolved items =>
    let matches :=
        fold_left (fun matches item =>
                     if patternMatch pattern item
                     then (matches ++ [item])%list else matches)
                  items [] in
    (Settled (Resolved matches), [], w')
  | Rejected err => (Pending, ["Looking up items failed"], w')
  end.
End Lookup.
End cli.

(** ** The page script [webui/page.ts] *)

Module forms.
(** The field types of the module [webui/forms] that the page script
    refers to. *)
Inductive FieldType : Type := Text | Password | Email | Button | Other.

Record InputField : Type := {
  key : Z;
  id : string;
  name : string;
  type : FieldType;
  placeholder : string;
  visible : bool;
  ariaLabel : nullable string
}.

Record AutoFillEntry : Type := {
  entry_key : JSValue;
  entry_value : string
}.
End forms.

Module page.
(** A node above an input element: its identity, the outcome of
    [instanceof HTMLFormElement] on it, and its [parentNode] ([None]
    for [null]).  [HTMLFormElement] is the constructor of the window
    in which the script runs, so the test fails on the form elements
    of the document of a frame, which are instances of the
    constructor of the frame's own window. *)
Inductive Node : Type :=
| mkNode (id : nat) (is_form : bool) (parentNode : option Node).

(** An [<input>] element: its identity as a node, the properties that
    the script reads, the size of its bounding rectangle, its
    [aria-label] attribute if it has one, and its [parentNode].  An
    input element is not an instance of [HTMLFormElement]. *)
Record HTMLInputElement : Type := {
  node : nat;
  elt_id : string;
  elt_name : string;
  elt_type : string;
  elt_placeholder : string;
  rect_width : Z;
  rect_height : Z;
  aria_label : option string;
  elt_parentNode : option Node
}.

(** The loop of [parentForm] from the node [elt] on. *)
Fixpoint parentForm_from (elt : Node) : nullable nat :=
  match elt with
  | mkNode id is_form parent =>
    if is_form then val id
    else match parent with
         | Some elt' => parentForm_from elt'
         | None => null
         end
  end.

(** [parentForm(input)]: the first node, from the input upwards, that
    is an instance of [HTMLFormElement], or [null].  The loop starts
    at the input itself, on which the test fails. *)
Definition parentForm (input : HTMLInputElement) : nullable nat :=
  match elt_parentNode input with
  | Some elt => parentForm_from elt
  | None => null
  end.

Definition node_id (elt : Node) : nat :=
  match elt with mkNode id _ _ => id end.

Definition instanceof_HTMLFormElement (elt : Node) : bool :=
  match elt with mkNode _ is_form _ => is_form end.

(** The node [elt] and the nodes above it, nearest first. *)
Fixpoint ancestors_from (elt : Node) : list Node :=
  match elt with
  | mkNode _ _ parent =>
    elt :: match parent with
           | Some elt' => ancestors_from elt'
           | None => []
           end
  end.

(** The nodes above an input element, nearest first. *)
Definition ancestors (input : HTMLInputElement) : list Node :=
  match elt_parentNode input with
  | Some elt => ancestors_from elt
  | None => []
  end.

(** What [frame.contentDocument] gives for an [<iframe>]: a document,
    nothing, or an exception (cross-origin frames). *)
Inductive Frame (D : Type) : Type :=
| SameOrigin (contentDocument : D)
| NoDocument
| SecurityException.
Arguments SameOrigin {D} contentDocument.
Arguments NoDocument {D}.
Arguments SecurityException {D}.

(** A document: its [<input>] elements and its [<iframe>] elements, in
    document order. *)
Inductive Document : Type :=
| Doc (inputs : list HTMLInputElement) (frames : list (Frame Document)).

(** The state of the page that the script changes: the value of each
    input node and the events dispatched so far. *)
Record Dom : Type := {
  values : gmap nat string;
  events : list (nat * string)
}.

(** [inputFieldType(typeStr)] *)
Definition inputFieldType (typeStr : string) : forms.FieldType :=
  let s := JSString.toLowerCase typeStr in
  if decide (s = "email") then forms.Email
  else if decide (s = "password") then forms.Password
  else if decide (s = "submit") then forms.Button
  else if decide (s = "button") then forms.Button
  else if decide (s = "checkbox") then forms.Other
  else if decide (s = "radio") then forms.Other
  else forms.Text.

(** [isElementVisible(elt)] *)
Definition isElementVisible (elt : HTMLInputElement) : bool :=
  (0 <? rect_width elt) && (0 <? rect_height elt).

Record InputField : Type := {
  element : HTMLInputElement;
  field : forms.InputField
}.

(** The [InputField] built for an element when [fields] are the fields
    collected so far. *)
Definition describe (fields : list InputField) (elt : HTMLInputElement)
  : InputField :=
  {| element := elt;
     field :=
       {| forms.key := Z.of_nat (length fields);
          forms.id := elt_id elt;
          forms.name := elt_name elt;
          forms.type := inputFieldType (elt_type elt);
          forms.placeholder := elt_placeholder elt;
          forms.visible := isElementVisible elt;
          forms.ariaLabel :=
            match aria_label elt with
            | Some v => val v
            | None => undefined
            end |} |}.

(** [field.field.key += n] *)
Definition add_to_key (n : nat) (f : InputField) : InputField :=
  {| element := element f;
     field :=
       {| forms.key := forms.key (field f) + Z.of_nat n;
          forms.id := forms.id (field f);
          forms.name := forms.name (field f);
          forms.type := forms.type (field f);
          forms.placeholder := forms.placeholder (field f);
          forms.visible := forms.visible (field f);
          forms.ariaLabel := forms.ariaLabel (field f) |} |}.

(** [collectFieldsInDocument(document)].  The message written to the
    console for a frame whose document cannot be accessed is not part
    of the result. *)
Fixpoint collectFieldsInDocument (document : Document) : list InputField :=
  match document with
  | Doc fieldElements frames =>
    let fields :=
        fold_left (fun fields elt => (fields ++ [describe fields elt])%list)
                  fieldElements [] in
    fold_left
      (fun fields frame =>
         match frame with
         | SameOrigin contentDocument =>
           let documentFields := collectFieldsInDocument contentDocument in
           (fields ++ List.map (add_to_key (length fields)) documentFields)%list
         | NoDocument => fields
         | SecurityException => fields
         end)
      frames fields
  end.

(** The input elements of a document and of the documents of its
    frames that can be accessed, in document order. *)
Fixpoint all_inputs (document : Document) : list HTMLInputElement :=
  match document with
  | Doc fieldElements frames =>
    (fieldElements ++
     List.concat
       (List.map (fun frame =>
                    match frame with
                    | SameOrigin contentDocument => all_inputs contentDocument
                    | _ => []
                    end) frames))%list
  end.

(** [autofillField(input, value)] *)
Definition autofillField (input : HTMLInputElement) (value : string)
           (dom : Dom) : bool * Dom :=
  (true,
   {| values := <[node input := value]> (values dom);
      events := (events dom ++ [(node input, "input");
                                (node input, "change")])%list |}).

#[global] Instance nullable_eq_dec {A} `{EqDecision A}
  : EqDecision (nullable A).
Proof. solve_decision. Defined.

(** The groups of fields built by the [find-fields] handler: one per
    form element (or [null]), in the order of first occurrence. *)
Abbreviation InputForm := (nullable nat * list forms.InputField)%type.

(** The index of the form that the scan of [forms] leaves in [form]:
    the last one whose form element is [formElement]. *)
Definition find_form (forms : list InputForm) (formElement : nullable nat)
  : option nat :=
  fold_left (fun form i =>
               match forms !! i with
               | Some (fe, _) =>
                 if decide (fe = formElement) then Some i else form
               | None => form
               end)
            (seq 0 (length forms)) None.

(** One step of the loop over the collected fields. *)
Definition group_field (forms : list InputForm) (f : InputField)
  : list InputForm :=
  let formElement := parentForm (element f) in
  match find_form forms formElement with
  | Some i =>
    alter (fun form => (fst form, (snd form ++ [field f])%list)) i forms
  | None => (forms ++ [(formElement, [field f])])%list
  end.

(** The [find-fields] handler: the new value of [lastFields] and the
    field groups returned. *)
Definition find_fields (document : Document)
  : list HTMLInputElement * list (list forms.InputField) :=
  let inputFields := collectFieldsInDocument document in
  let lastFields := List.map element inputFields in
  let forms := fold_left group_field inputFields [] in
  (lastFields, List.map snd forms).

(** The result of the [autofill] handler. *)
Record Autofilled : Type := {
  filled : nat;
  warnings : list string;
  dom_after : Dom
}.

(** The test on [entry.key], and the index that a key which passes
    it denotes.  Numbers are integers in this development; a key with
    a fractional part, which would pass the test and denote no
    element, is not represented. *)
Definition valid_key (lastFields : list HTMLInputElement) (k : JSValue)
  : option nat :=
  match k with
  | JNumber (Num z) =>
    if (0 <=? z) && (z <? Z.of_nat (length lastFields))
    then Some (Z.to_nat z) else None
  | _ => None
  end.

(** One step of the loop of the [autofill] handler. *)
Definition autofill_entry (lastFields : list HTMLInputElement)
           (acc : Autofilled) (entry : forms.AutoFillEntry) : Autofilled :=
  match valid_key lastFields (forms.entry_key entry) with
  | Some i =>
    match lastFields !! i with
    | Some elt =>
      let '(ok, dom) :=
          autofillField elt (forms.entry_value entry) (dom_after acc) in
      if ok then
        {| filled := S (filled acc); warnings := warnings acc;
           dom_after := dom |}
      else
        {| filled := filled acc;
           warnings :=
             (warnings acc ++ ["Failed to find input field to autofill"])%list;
           dom_after := dom |}
    | None => acc
    end
  | None =>
    {| filled := filled acc;
       warnings :=
         (warnings acc ++ ["Failed to find input field to autofill"])%list;
       dom_after := dom_after acc |}
  end.

(** The [autofill] handler. *)
Definition autofill (lastFields : list HTMLInputElement)
           (entries : list forms.AutoFillEntry) (dom : Dom) : Autofilled :=
  fold_left (autofill_entry lastFields) entries
            {| filled := O; warnings := []; dom_after := dom |}.
End page.

(** ** Site icons: [BasicIconProvider.makeIconUrl] *)

Module site_info.
(** An icon of a site: its size and its image data. *)
Record Icon (Data : Type) : Type := {
  width : Z;
  height : Z;
  data : Data
}.
Arguments width {Data}.
Arguments height {Data}.
Arguments data {Data}.
End site_info.

Module underscore.
Section SortBy.
Context {A : Type}.
Variable iteratee : A -> Z.

Fixpoint insert_by (x : A) (l : list A) : list A :=
  match l with
  | [] => [x]
  | y :: l' =>
    if iteratee x <? iteratee y then x :: y :: l'
    else y :: insert_by x l'
  end.

(** [underscore.sortBy(list, iteratee)]: a stable sort into ascending
    order of the values of [iteratee]. *)
Definition sortBy (l : list A) : list A :=
  fold_left (fun sorted x => insert_by x sorted) l [].
End SortBy.
End underscore.

Module item_icons.
Section MakeIconUrl.
Context {Data : Type}.
Variable loadImage : Data -> string.

Record SelectedIcon : Type := {
  sel_url : string;
  sel_icon : nullable (site_info.Icon Data)
}.

(** [a || b] on icons that may be undefined. *)
Definition or_else (a b : nullable (site_info.Icon Data))
  : nullable (site_info.Icon Data) :=
  if truthy a then a else b.

(** [makeIconUrl(icons, minSize)] *)
Definition makeIconUrl (icons : list (site_info.Icon Data)) (minSize : Z)
  : SelectedIcon :=
  match icons with
  | [] => {| sel_url := ""; sel_icon := null |}
  | _ :: _ =>
    let iconsBySize := underscore.sortBy site_info.width icons in
    let '(squareIcon, nonSquareIcon) :=
        fold_left
          (fun '(squareIcon, nonSquareIcon) candidate =>
             if minSize <=? site_info.width candidate then
               if site_info.width candidate =? site_info.height candidate
               then (or_else squareIcon (val candidate), nonSquareIcon)
               else (squareIcon, or_else nonSquareIcon (val candidate))
             else (squareIcon, nonSquareIcon))
          iconsBySize (undefined, undefined) in
    let icon := or_else squareIcon nonSquareIcon in
    let icon :=
        if negb (truthy icon)
        then match last iconsBySize with
             | Some i => val i
             | None => undefined
             end
        else icon in
    match icon with
    | val i => {| sel_url := loadImage (site_info.data i); sel_icon := val i |}
    | _ => {| sel_url := ""; sel_icon := icon |}
    end
  end.
End MakeIconUrl.
End item_icons.

(** ** [lib/base/key_value_store.ts] *)

Module key_value_store.
(** [ObjectStore.iterate(prefix, callback)]: the keys that the
    callback is invoked with, in order, and the outcome. *)
Class ObjectStore (S World : Type) : Type := {
  iterate : S -> string -> World -> list string * Promise unit * World
}.

(** [keys.sort()]: the default order of [Array.prototype.sort] on
    strings, by code units. *)
Definition sort (keys : list string) : list string :=
  merge_sort String.le keys.

(** [listKeys(store, prefix)]; [prefix] is [None] when the argument
    is omitted. *)
Definition listKeys {S World} `{ObjectStore S World}
           (store : S) (prefix : option string) (w : World)
  : Promise (list string) * World :=
  let prefix := match prefix with Some p => p | None => "" end in
  let '(keys, iterated, w') := iterate store prefix w in
  match iterated with
  | Resolved _ => (Resolved (sort keys), w')
  | Rejected e => (Rejected e, w')
  end.

(** [Math.pow(2, 50)] *)
Definition MAX_SCHEMA_VERSION : Z := 2 ^ 50.

(** [currentVersion()] of the schema modifier, for the [oldVersion] of
    the upgrade event. *)
Definition currentVersion (e_oldVersion : nullable number) : number :=
  let oldVersion :=
      match e_oldVersion with
      | val (Num 0) => Num 0
      | val NaN => Num 0
      | val n => n
      | _ => Num 0
      end in
  match oldVersion with
  | Num z => if MAX_SCHEMA_VERSION <? z then Num 0 else Num z
  | PosInfinity => Num 0
  | other => other
  end.
End key_value_store.

(** ** The local file system [FileVFS] of [vfs.ts] *)

Module vfs.
Record FileInfo : Type := {
  name : string;
  path : string;
  isDir : bool
}.

Section FileVFS.
(** [Path.join] of Node.js. *)
Variable Path_join : string -> string -> string.

(** The state that the callbacks of [list] share: the counter, the
    list of file details, the invocations of [cb] (each with a null
    error and the list) and the console output. *)
Record ListState : Type := {
  done : nat;
  infoList : list FileInfo;
  cb_calls : list (list FileInfo);
  console : list string
}.

(** The callback of [fs.stat] for the entry [name]: [info] is [None]
    when [stat] fails and otherwise tells whether the entry is a
    directory. *)
Definition on_stat (absPath : string) (files : list string)
           (st : ListState) (completion : string * option bool)
  : ListState :=
  let '(name, info) := completion in
  let filePath := Path_join absPath name in
  match info with
  | None =>
    {| done := done st; infoList := infoList st; cb_calls := cb_calls st;
       console := (console st ++ [("Unable to stat " ++ filePath)%string])%list |}
  | Some isDirectory =>
    let fi := {| name := name; path := filePath; isDir := isDirectory |} in
    let infoList' := (infoList st ++ [fi])%list in
    let done' := S (done st) in
    {| done := done';
       infoList := infoList';
       cb_calls :=
         if decide (done' = length files)
         then (cb_calls st ++ [infoList'])%list else cb_calls st;
       console := console st |}
  end.

(** The file details that the completions of [fs.stat] give, in the
    order of the completions; a failed [stat] gives none. *)
Definition stat_infos (absPath : string)
           (completions : list (string * option bool)) : list FileInfo :=
  omap (fun completion : string * option bool =>
          match snd completion with
          | Some isDirectory =>
            Some {| name := fst completion;
                    path := Path_join absPath (fst completion);
                    isDir := isDirectory |}
          | None => None
          end) completions.

(** [list(path, cb)], for the absolute path [absPath] of the
    directory.  [readdir] is the outcome of [fs.readdir] ([None] for an
    error) and [completions] are the outcomes of the [fs.stat] calls in
    the order in which they complete.  The result holds the
    invocations of [cb] and the console output. *)
Definition list_ (absPath : string) (readdir : option (list string))
           (completions : list (string * option bool))
  : list (list FileInfo) * list string :=
  match readdir with
  | None => ([], [("Unable to read dir " ++ absPath)%string])
  | Some files =>
    let st := fold_left (on_stat absPath files) completions
                        {| done := O; infoList := []; cb_calls := [];
                           console := [] |} in
    (cb_calls st, console st)
  end.
End FileVFS.
End vfs.

(** ** The icon cache of [BasicIconProvider] *)

Module icon_provider.
(** [IconFetchState] *)
Inductive IconFetchState : Type := Fetching | NoIcon | Found.

#[global] Instance IconFetchState_eq_dec : EqDecision IconFetchState.
Proof. solve_decision. Defined.

(** The interface [Icon] of an icon handed to the views. *)
Record Icon : Type := {
  iconUrl : string;
  state : IconFetchState;
  width : Z;
  height : Z
}.

Definition LOADING_ICON : string := "dist/icons/loading.png".
Definition DEFAULT_ICON : string := "dist/icons/default.png".

(** The part of a [BasicIconProvider] that [query] and
    [updateCacheEntry] read and write.  [Icon] objects are shared
    between the cache and the callers of [query] and are updated in
    place, so they live in a heap and are referred to by their index;
    [tempCache] maps urls to such references.  [lookups] are the urls
    for which a query of the disk cache was started, and [published]
    the urls sent to the [updated] stream. *)
Record Provider : Type := {
  heap : list Icon;
  tempCache : gmap string nat;
  lookups : list string;
  published : list string
}.

Section Provider.
Context {Data : Type}.
(** [url_util.normalize], the domain of a url as [urijs] gives it, the
    image loader and the icon size of the provider. *)
Variable normalize : string -> string.
Variable domain : string -> string.
Variable loadImage : Data -> string.
Variable iconSize : Z.

(** [fallbackUrlForIcon(url)] *)
Definition fallbackUrlForIcon (url : string) : string :=
  let url := normalize url in
  ("https://www." ++ domain url)%string.

(** A new [Icon] object. *)
Definition alloc (icon : Icon) (p : Provider) : nat * Provider :=
  (length (heap p),
   {| heap := (heap p ++ [icon])%list; tempCache := tempCache p;
      lookups := lookups p; published := published p |}).

(** [query(url)]: the icon object returned and the provider
    afterwards.  The continuation of the disk cache query runs later
    and is not part of this call. *)
Definition query (url : string) (p : Provider) : nat * Provider :=
  let url := normalize url in
  if (String.length url =? 0)%nat then
    alloc {| iconUrl := DEFAULT_ICON; state := NoIcon;
             width := 48; height := 48 |} p
  else
    match tempCache p !! url with
    | Some cachedIcon =>
      match heap p !! cachedIcon with
      | Some cached =>
        if decide (state cached = NoIcon) then
          let fallbackUrl := fallbackUrlForIcon url in
          match tempCache p !! fallbackUrl with
          | Some fallbackIcon => (fallbackIcon, p)
          | None => (cachedIcon, p)
          end
        else (cachedIcon, p)
      | None => (cachedIcon, p)
      end
    | None =>
      let '(icon, p1) :=
          alloc {| iconUrl := LOADING_ICON; state := Fetching;
                   width := 48; height := 48 |} p in
      (icon,
       {| heap := heap p1;
          tempCache := <[url := icon]> (tempCache p1);
          lookups := (lookups p1 ++ [url])%list;
          published := published p1 |})
    end.

(** The fields that [updateCacheEntry] assigns to the cached icon for
    the icon that [makeIconUrl] selected. *)
Definition updated_icon (selectedIcon : @item_icons.SelectedIcon Data)
  : option Icon :=
  if decide (item_icons.sel_url selectedIcon <> "") then
    match item_icons.sel_icon selectedIcon with
    | val i =>
      Some {| iconUrl := item_icons.sel_url selectedIcon; state := Found;
              width := site_info.width i; height := site_info.height i |}
    | _ => None
    end
  else
    Some {| iconUrl := DEFAULT_ICON; state := NoIcon;
            width := 48; height := 48 |}.

(** [updateCacheEntry(url, icons)]; [None] stands for the [TypeError]
    raised when the cache has no icon for [url]. *)
Definition updateCacheEntry (url : string)
           (icons : list (site_info.Icon Data)) (p : Provider)
  : option Provider :=
  match tempCache p !! url with
  | None => None
  | Some icon =>
    let selectedIcon := item_icons.makeIconUrl loadImage icons iconSize in
    match updated_icon selectedIcon with
    | None => None
    | Some fields =>
      let p1 := {| heap := <[icon := fields]> (heap p);
                   tempCache := tempCache p;
                   lookups := lookups p;
                   published := (published p ++ [url])%list |} in
      if (length icons =? 0)%nat then
        let fallbackUrl := fallbackUrlForIcon url in
        if decide (fallbackUrl <> url)
        then Some (snd (query fallbackUrl p1))
        else Some p1
      else Some p1
    end
  end.
End Provider.
End icon_provider.

(** ** [IndexedDBDatabase] of [lib/base/key_value_store.ts] *)

Module indexed_db.
Section Database.
(** The handles of the databases of the browser. *)
Context {IDBDatabase : Type}.

(** [IndexedDBStore]: the database promise that it was constructed
    with, and the name of the store. *)
Record IndexedDBStore : Type := {
  db : nullable (Promise IDBDatabase);
  storeName : string
}.

Record IndexedDBDatabase : Type := {
  database : nullable (Promise IDBDatabase);
  stores : gmap string IndexedDBStore
}.

(** [reset()], which the constructor calls. *)
Definition reset : IndexedDBDatabase :=
  {| database := null; stores := ∅ |}.

(** [open(name, version, schemaUpdateCallback)]; [request] is the
    outcome of [indexedDB.open]: the database, or [None] when the
    request fails. *)
Definition open (request : option IDBDatabase) (this : IndexedDBDatabase)
  : Promise unit * IndexedDBDatabase :=
  let _db :=
      match request with
      | Some db => Resolved db
      | None => Rejected (PlainError "Failed to open IndexedDB database")
      end in
  (eraseResult _db, {| database := val _db; stores := stores this |}).

(** [store(name)] *)
Definition store (name : string) (this : IndexedDBDatabase)
  : option IndexedDBStore * IndexedDBDatabase :=
  let this' :=
      match stores this !! name with
      | Some _ => this
      | None =>
        {| database := database this;
           stores := <[name := {| db := database this; storeName := name |}]>
                       (stores this) |}
      end in
  (stores this' !! name, this').

(** [delete()]; [deleteRequest] is the outcome of
    [indexedDB.deleteDatabase]. *)
Definition delete (deleteRequest : Promise unit) (this : IndexedDBDatabase)
  : Promise unit * IndexedDBDatabase :=
  match database this with
  | val (Resolved db) => (deleteRequest, reset)
  | val (Rejected e) => (Rejected e, this)
  | _ => (Rejected (PlainError "Database is not open"), this)
  end.
End Database.
End indexed_db.

(** ** Example inputs *)

Module RepairExamples.
(** An item of the in-memory store whose overview names another
    location than its content does. *)
Definition stale_item : Item unit :=
  {| store := val tt;
     revision := val "r1";
     parentRevision := undefined;
     uuid := "CA20BB325873446966ED1F4E641B5A36";
     folderUuid := "F1";
     faveIndex := val (Num 3);
     trashed := false;
     updatedAt := val (DateAt 1398413120000);
     createdAt := val (DateAt 1398413120000);
     typeName := ItemTypes.LOGIN;
     title := "Facebook";
     openContents := undefined;
     locations := ["oldsite.com"];
     account := undefined;
     content := val MemStore.site_content |}.

(** A user who declines every repair. *)
Definition decline (w : MemStore.world) : Promise bool * MemStore.world :=
  (Resolved false, w).

(** [startsWith] as a prefix test. *)
Definition startsWith (s prefix : string) : bool := String.prefix prefix s.
End RepairExamples.

Module PageExamples.
(** The form around the search box, in the document of the page. *)
Definition search_form : page.Node :=
  page.mkNode 9 true (Some (page.mkNode 8 false None)).

(** The login form, in the document of a frame: not an instance of
    the [HTMLFormElement] of the page's window. *)
Definition login_form : page.Node :=
  page.mkNode 7 false (Some (page.mkNode 6 false None)).

Definition username_input : page.HTMLInputElement :=
  {| page.node := 1%nat; page.elt_id := "user"; page.elt_name := "login";
     page.elt_type := "Email"; page.elt_placeholder := "";
     page.rect_width := 120; page.rect_height := 20;
     page.aria_label := Some "User name";
     page.elt_parentNode := Some login_form |}.

Definition password_input : page.HTMLInputElement :=
  {| page.node := 2%nat; page.elt_id := "pass"; page.elt_name := "password";
     page.elt_type := "PASSWORD"; page.elt_placeholder := "";
     page.rect_width := 120; page.rect_height := 20;
     page.aria_label := None;
     page.elt_parentNode := Some login_form |}.

Definition search_input : page.HTMLInputElement :=
  {| page.node := 3%nat; page.elt_id := "q"; page.elt_name := "q";
     page.elt_type := "text"; page.elt_placeholder := "Search";
     page.rect_width := 0; page.rect_height := 0;
     page.aria_label := None;
     page.elt_parentNode := Some search_form |}.

(** An input outside any form, next to the search form. *)
Definition loose_input : page.HTMLInputElement :=
  {| page.node := 4%nat; page.elt_id := "news"; page.elt_name := "email";
     page.elt_type := "email"; page.elt_placeholder := "";
     page.rect_width := 80; page.rect_height := 20;
     page.aria_label := None;
     page.elt_parentNode := Some (page.mkNode 8 false None) |}.

(** A page with a search box and a login form in a frame, next to a
    frame of another origin. *)
Definition login_page : page.Document :=
  page.Doc [search_input]
           [ page.SecurityException;
             page.SameOrigin (page.Doc [username_input; password_input] []) ].

(** The same page with a further input outside any form. *)
Definition busy_page : page.Document :=
  page.Doc [search_input; loose_input]
           [ page.SecurityException;
             page.SameOrigin (page.Doc [username_input; password_input] []) ].
End PageExamples.

Module IconExamples.
(** Urls that are normalized already, all of one domain, and image
    data that is its own url. *)
Definition normalize (url : string) : string := url.
Definition domain (url : string) : string := "example.com".
Definition loadImage (data : string) : string := data.

Definition login_url : string := "https://example.com/login".

Definition empty_provider : icon_provider.Provider :=
  {| icon_provider.heap := []; icon_provider.tempCache := ∅;
     icon_provider.lookups := []; icon_provider.published := [] |}.

(** The provider after the first query of [login_url]. *)
Definition fetching_provider : icon_provider.Provider :=
  snd (icon_provider.query normalize domain login_url empty_provider).

Definition favicon : site_info.Icon string :=
  {| site_info.width := 64; site_info.height := 64;
     site_info.data := "blob:favicon" |}.
End IconExamples.

(** * Properties *)

(** ** Number arithmetic on time values *)

Module NumberArith.
Import JSNumber.

Lemma MAX_VALUE_large : 2 ^ 53 <= MAX_VALUE.
Proof. vm_compute. discriminate. Qed.

Lemma nearest_small z : Z.abs z < 2 ^ 53 -> nearest z = z.
Proof.
  intros Hz. unfold nearest.
  destruct (Z.ltb_spec (Z.abs z) (2 ^ 53)); [reflexivity | lia].
Qed.

(** From 2^53 on, the nearest double is at least 2^53 in magnitude
    and has the sign of the number. *)
Lemma nearest_large z :
  2 ^ 53 <= Z.abs z -> 2 ^ 53 <= Z.sgn z * nearest z.
Proof.
  intros Hz. unfold nearest.
  destruct (Z.ltb_spec (Z.abs z) (2 ^ 53)) as [Hlt | _]; [lia |].
  set (a := Z.abs z) in *.
  assert (0 < a) as Ha by lia.
  pose proof (Z.log2_spec a Ha) as [Hlo _].
  assert (53 <= Z.log2 a) as Hlog.
  { apply Z.log2_le_pow2; [exact Ha | exact Hz]. }
  set (u := Z.log2 a - 52) in *.
  assert (0 < 2 ^ u) as Hpu by (apply Z.pow_pos_nonneg; lia).
  assert (2 <= 2 ^ u) as Hpu2.
  { change 2 with (2 ^ 1) at 1. apply Z.pow_le_mono_r; lia. }
  assert (2 ^ 52 <= a / 2 ^ u) as Hq.
  { apply Z.div_le_lower_bound; [exact Hpu |].
    replace (Z.log2 a) with (u + 52) in Hlo by (subst u; lia).
    rewrite Z.pow_add_r in Hlo by lia. lia. }
  set (q := a / 2 ^ u) in *.
  set (q' := if 2 * (a mod 2 ^ u) <? 2 ^ u then q
             else if 2 ^ u <? 2 * (a mod 2 ^ u) then q + 1
                  else if Z.even q then q else q + 1).
  assert (q <= q') as Hq'.
  { subst q'. destruct (_ <? _); [lia |].
    destruct (_ <? _); [lia |]. destruct (Z.even q); lia. }
  assert (Z.sgn z * Z.sgn z = 1) as Hs by (subst a; lia).
  rewrite Z.mul_assoc, Hs, Z.mul_1_l.
  assert (2 ^ 53 = 2 ^ 52 * 2) as -> by reflexivity.
  apply Z.mul_le_mono_nonneg; lia.
Qed.

(** The comparison of a difference with 1000 is not affected by the
    rounding of the difference. *)
Lemma sub_ltb_1000 n p :
  ltb (sub (Num n) (Num p)) (Num 1000) = (n - p <? 1000).
Proof.
  unfold sub, neg, add, of_Z.
  replace (n + - p) with (n - p) by lia.
  pose proof MAX_VALUE_large as HM.
  assert (1000 < 2 ^ 53) as H53 by reflexivity.
  destruct (Z.lt_ge_cases (Z.abs (n - p)) (2 ^ 53)) as [Hs | Hl].
  - rewrite nearest_small by exact Hs.
    destruct (Z.ltb_spec MAX_VALUE (n - p)); [lia |].
    destruct (Z.ltb_spec (n - p) (- MAX_VALUE)); [lia |].
    reflexivity.
  - pose proof (nearest_large (n - p) Hl) as Hn.
    destruct (Z.ltb_spec MAX_VALUE (nearest (n - p))) as [Hhi | Hhi].
    + simpl. symmetry. apply Z.ltb_ge. nia.
    + destruct (Z.ltb_spec (nearest (n - p)) (- MAX_VALUE)) as [Hlo | Hlo].
      * simpl. symmetry. apply Z.ltb_lt. nia.
      * simpl. destruct (Z.ltb_spec (nearest (n - p)) 1000);
          destruct (Z.ltb_spec (n - p) 1000); try reflexivity; nia.
Qed.

(** The time value of a valid date. *)
Lemma getTime_valid t :
  - JSDate.MAX_TIME <= t <= JSDate.MAX_TIME ->
  JSDate.getTime (DateAt t) = Num t.
Proof.
  intros Ht. unfold JSDate.getTime, JSDate.TimeClip.
  destruct (Z.leb_spec (Z.abs t) JSDate.MAX_TIME); [reflexivity | lia].
Qed.

(** One second after a date that leaves room for it. *)
Lemma new_add_1000 prev :
  - JSDate.MAX_TIME <= prev <= JSDate.MAX_TIME - 1000 ->
  JSDate.new (add (Num prev) (Num 1000)) = DateAt (prev + 1000).
Proof.
  intros Hp. unfold add, of_Z.
  assert (JSDate.MAX_TIME < 2 ^ 53) as HT by reflexivity.
  pose proof MAX_VALUE_large as HM.
  rewrite nearest_small by lia.
  destruct (Z.ltb_spec MAX_VALUE (prev + 1000)); [lia |].
  destruct (Z.ltb_spec (prev + 1000) (- MAX_VALUE)); [lia |].
  unfold JSDate.new, JSDate.TimeClip.
  destruct (Z.leb_spec (Z.abs (prev + 1000)) JSDate.MAX_TIME); [reflexivity |].
  lia.
Qed.

(** Past the last time value there is no date. *)
Lemma new_add_1000_invalid prev :
  JSDate.MAX_TIME - 1000 < prev <= JSDate.MAX_TIME ->
  JSDate.new (add (Num prev) (Num 1000)) = InvalidDate.
Proof.
  intros Hp. unfold add, of_Z.
  assert (JSDate.MAX_TIME + 1000 < 2 ^ 53) as HT by reflexivity.
  assert (0 < JSDate.MAX_TIME) as H0 by reflexivity.
  pose proof MAX_VALUE_large as HM.
  rewrite nearest_small by lia.
  destruct (Z.ltb_spec MAX_VALUE (prev + 1000)); [lia |].
  destruct (Z.ltb_spec (prev + 1000) (- MAX_VALUE)); [lia |].
  unfold JSDate.new, JSDate.TimeClip.
  destruct (Z.leb_spec (Z.abs (prev + 1000)) JSDate.MAX_TIME); [lia |].
  reflexivity.
Qed.
End NumberArith.

Section ItemProperties.
Context {Store World : Type} `{StoreInterface Store World}.
Implicit Types (this : Item Store) (w : World) (st : Store).

Lemma falsy_store_cases this :
  truthy (store this) = false ->
  store this = undefined \/ store this = null.
Proof. destruct (store this); simpl; auto; discriminate. Qed.

(** C2.  For an item that belongs to a store, [remove()] hands the
    store's [saveItem] an item in tombstone form, and its outcome is
    that of this save, which is what [save()] of the tombstone does:
    the type is [Tombstone], [trashed] is true, the content is the
    empty content, [locations] is empty, [folderUuid] is the empty
    string and the uuid is the one the item had. *)
Theorem remove_saves_tombstone this st w :
  store this = val st ->
  exists it,
    ItemM.remove this w = saveItem st it w /\
    ItemM.remove this w = ItemM.save it w /\
    typeName it = ItemTypes.TOMBSTONE /\
    trashed it = true /\
    content it = val ContentUtil.empty /\
    locations it = [] /\
    folderUuid it = "" /\
    uuid it = uuid this.
Proof.
  intros Hst. exists (ItemM.tombstone this).
  unfold ItemM.remove. rewrite Hst.
  split; [reflexivity |]. split; [| repeat split].
  unfold ItemM.save, ItemM.saveTo, ItemM.set_store, ItemM.tombstone.
  simpl. rewrite Hst. reflexivity.
Qed.

(** C3, as amended.  When [updatedAt] is a valid date at least one
    second before the last time value that a date can hold,
    [updateTimestamps()] leaves a valid last-modified time at least
    1000 ms after the previous one, whatever valid date the clock
    gives. *)
Theorem updateTimestamps_advances this (prev now : Z) (now1 : Date) :
  updatedAt this = val (DateAt prev) ->
  - JSDate.MAX_TIME <= prev <= JSDate.MAX_TIME - 1000 ->
  - JSDate.MAX_TIME <= now <= JSDate.MAX_TIME ->
  exists t,
    updatedAt (ItemM.updateTimestamps now1 (DateAt now) this) =
    val (DateAt t) /\
    (t - prev >= 1000)%Z /\
    - JSDate.MAX_TIME <= t <= JSDate.MAX_TIME.
Proof.
  intros Hprev Hp Hn. unfold ItemM.updateTimestamps.
  cbn [ItemM.set_timestamps updatedAt]. rewrite Hprev.
  assert (0 < JSDate.MAX_TIME) as H0 by reflexivity.
  rewrite !NumberArith.getTime_valid by lia.
  rewrite NumberArith.sub_ltb_1000.
  destruct (Z.ltb_spec (now - prev) 1000).
  - exists (prev + 1000)%Z. rewrite NumberArith.new_add_1000 by exact Hp.
    split; [reflexivity | lia].
  - exists now. split; [reflexivity | lia].
Qed.

(** C8.  An item without a store rejects [save()], [remove()] and
    [getRawDecryptedData()] with [UnsavedItemError]; [saveTo(store)]
    rejects an item that has neither a store nor content.  In all four
    cases the item and the world are returned untouched. *)
Theorem unsaved_item_rejections this w :
  truthy (store this) = false ->
  ItemM.save this w = (Rejected UnsavedItemError, this, w) /\
  ItemM.remove this w = (Rejected UnsavedItemError, this, w) /\
  ItemM.getRawDecryptedData_ this w = (Rejected UnsavedItemError, this, w) /\
  (truthy (content this) = false ->
   forall st,
     ItemM.saveTo this st w =
     (Rejected (PlainError "Unable to save new item, no content set"),
      this, w)).
Proof.
  intros Hst.
  unfold ItemM.save, ItemM.remove, ItemM.getRawDecryptedData_,
    ItemM.saveTo, ItemM.isSaved.
  destruct (falsy_store_cases this Hst) as [-> | ->]; simpl;
    repeat split; intros Hc st; rewrite Hc; reflexivity.
Qed.

(** C10.  An item with neither a store nor content resolves
    [getContent()] with the empty content and keeps it: the item
    returned holds the empty content, and asking again resolves with
    it without any change. *)
Theorem getContent_unsaved_empty this w :
  truthy (store this) = false ->
  truthy (content this) = false ->
  exists this',
    ItemM.getContent_ this w = (Resolved ContentUtil.empty, this', w) /\
    content this' = val ContentUtil.empty /\
    ItemM.getContent_ this' w = (Resolved ContentUtil.empty, this', w) /\
    sections ContentUtil.empty = [] /\
    urls ContentUtil.empty = [] /\
    formFields ContentUtil.empty = [] /\
    notes ContentUtil.empty = "" /\
    htmlMethod ContentUtil.empty = "" /\
    htmlAction ContentUtil.empty = "" /\
    htmlId ContentUtil.empty = "".
Proof.
  intros Hst Hc. exists (ItemM.setContent this ContentUtil.empty).
  unfold ItemM.getContent_.
  destruct (content this) eqn:Ec; try discriminate;
    destruct (store this) eqn:Es; try discriminate;
    simpl; repeat split.
Qed.

(** C6, as amended.  [getContent()] answers from the item's own
    content whenever one is held (set by [setContent()] or defaulted
    for an item without store): the store is not called and nothing
    changes.  An item of a store that holds no content delegates the
    call to the store's [getContent], outcome and item included; the
    [Item] class does not record the result itself. *)
Theorem getContent_cached_or_delegated this w :
  (forall c,
      content this = val c ->
      ItemM.getContent_ this w = (Resolved c, this, w)) /\
  (forall c,
      ItemM.getContent_ (ItemM.setContent this c) w =
      (Resolved c, ItemM.setContent this c, w)) /\
  (forall st,
      truthy (content this) = false ->
      store this = val st ->
      ItemM.getContent_ this w = getContent st this w).
Proof.
  unfold ItemM.getContent_. repeat split.
  - intros c ->. reflexivity.
  - intros st Hc Hst. rewrite Hst.
    destruct (content this); try discriminate; reflexivity.
Qed.
End ItemProperties.

(** C3, counterexample.  An item whose last-modified time is the last
    millisecond that a date can hold is a valid date; when the clock
    is behind it, [updateTimestamps()] stores [new Date(prev + 1000)],
    which is an Invalid Date: the difference of the time values is
    [NaN] and [difference >= 1000] is false.  When the previous
    last-modified time is an Invalid Date, the clock reading is
    stored and the difference is [NaN] as well. *)
Lemma updateTimestamps_invalid_date :
  updatedAt MemStore.last_item = val (DateAt 8640000000000000) /\
  JSDate.valid (DateAt 8640000000000000) = true /\
  updatedAt (ItemM.updateTimestamps (DateAt 1398413120300)
                                    (DateAt 1398413120300)
                                    MemStore.last_item) = val InvalidDate /\
  JSNumber.sub (JSDate.getTime InvalidDate)
               (JSDate.getTime (DateAt 8640000000000000)) = NaN /\
  JSNumber.leb (Num 1000) NaN = false /\
  updatedAt MemStore.undated_item = val InvalidDate /\
  updatedAt (ItemM.updateTimestamps (DateAt 1398413120300)
                                    (DateAt 1398413120300)
                                    MemStore.undated_item) =
  val (DateAt 1398413120300) /\
  JSNumber.sub (JSDate.getTime (DateAt 1398413120300))
               (JSDate.getTime InvalidDate) = NaN.
Proof. repeat split; vm_compute; reflexivity. Qed.

(** C6, counterexample.  An item listed from the in-memory store, with no
    content held, fetches its content from the store on each of two
    successive [getContent()] calls: both resolve with the stored
    content, the item holds none before or after either call, and the
    store has been consulted twice. *)
Lemma getContent_refetches_from_store :
  exists w1 w2,
    ItemM.getContent_ MemStore.listed_item MemStore.vault =
    (Resolved MemStore.site_content, MemStore.listed_item, w1) /\
    ItemM.getContent_ MemStore.listed_item w1 =
    (Resolved MemStore.site_content, MemStore.listed_item, w2) /\
    content MemStore.listed_item = undefined /\
    MemStore.fetches MemStore.vault = 0%nat /\
    MemStore.fetches w1 = 1%nat /\
    MemStore.fetches w2 = 2%nat.
Proof. do 2 eexists. repeat split. Qed.

Section StoreProperties.
Context {Store World : Type} `{StoreInterface Store World}.
Implicit Types (w : World) (st : Store).

(** The projection of an item that [itemStates] computes. *)
Lemma itemStates_resolved st w items w' :
  listItems st {| includeTombstones := val true |} w = (Resolved items, w') ->
  itemStates st w =
  (Resolved (map (fun item => {| st_uuid := uuid item;
                                 st_revision := revision item;
                                 st_deleted := ItemM.isTombstone item |})
                 items), w').
Proof. intros Hl. unfold itemStates. rewrite Hl. reflexivity. Qed.

(** C7.  When [listItems({includeTombstones: true})] resolves with
    [items], [itemStates] resolves with one state per item, in the same
    order: the state at each position carries the uuid and revision of
    the item at that position and is marked deleted exactly when the
    item's type is [Tombstone].  The store is asked with tombstones
    included, so each tombstone listed appears, marked deleted. *)
Theorem itemStates_projection st w items w' :
  listItems st {| includeTombstones := val true |} w = (Resolved items, w') ->
  exists states,
    itemStates st w = (Resolved states, w') /\
    states = map (fun item => {| st_uuid := uuid item;
                                 st_revision := revision item;
                                 st_deleted := ItemM.isTombstone item |})
                 items /\
    length states = length items /\
    (forall i item,
        items !! i = Some item ->
        exists s,
          states !! i = Some s /\
          st_uuid s = uuid item /\
          st_revision s = revision item /\
          (st_deleted s = true <-> typeName item = ItemTypes.TOMBSTONE)) /\
    (forall i s,
        states !! i = Some s ->
        exists item, items !! i = Some item /\ st_uuid s = uuid item).
Proof.
  intros Hl. eexists. split; [apply itemStates_resolved, Hl |].
  split; [reflexivity |]. split; [apply length_map |]. split.
  - intros i item Hi. eexists. split.
    + rewrite list_lookup_fmap, Hi. reflexivity.
    + simpl. repeat split; unfold ItemM.isTombstone.
      * intros Hd. apply bool_decide_eq_true in Hd. exact Hd.
      * intros Ht. apply bool_decide_eq_true. exact Ht.
  - intros i s Hs. rewrite list_lookup_fmap in Hs.
    destruct (items !! i) as [item |]; simpl in Hs; [| discriminate].
    exists item. split; [reflexivity |]. inversion Hs. reflexivity.
Qed.

(** A rejected listing rejects [itemStates] with the same error. *)
Lemma itemStates_rejected st w e w' :
  listItems st {| includeTombstones := val true |} w = (Rejected e, w') ->
  itemStates st w = (Rejected e, w').
Proof. intros Hl. unfold itemStates. rewrite Hl. reflexivity. Qed.
End StoreProperties.

Section UnlockProperties.
Context {Store World : Type} `{StoreInterface Store World}.
Context `{key_agent.Primitives}.
Implicit Types (w : World) (st : Store) (agent : KeyAgent).

Lemma addKeys_spec dks : forall agent,
  addKeys dks agent = (map (fun _ => Resolved tt) dks, with_keys dks agent).
Proof.
  induction dks as [| dk dks IH]; intros agent; simpl; [reflexivity |].
  rewrite IH. reflexivity.
Qed.

Lemma Promise_all_resolved {A B} (a : A) (l : list B) :
  Promise_all (map (fun _ => Resolved a) l) = Resolved (map (fun _ => a) l).
Proof. induction l as [| x l IH]; simpl; [| rewrite IH]; reflexivity. Qed.

Lemma validated_elem password keys k dk :
  k ∈ keys ->
  key_agent.attempt password k = Resolved dk ->
  dk ∈ key_agent.validated password keys.
Proof.
  induction keys as [| k' keys IH]; intros Hin Hat.
  - inversion Hin.
  - simpl. apply elem_of_cons in Hin as [-> | Hin].
    + rewrite Hat. left.
    + destruct (key_agent.attempt password k'); [right |]; auto.
Qed.

Lemma validated_origin password keys dk :
  dk ∈ key_agent.validated password keys ->
  exists k, k ∈ keys /\ key_agent.attempt password k = Resolved dk.
Proof.
  induction keys as [| k' keys IH]; simpl; intros Hin.
  - inversion Hin.
  - destruct (key_agent.attempt password k') as [dk' | e] eqn:Hat.
    + apply elem_of_cons in Hin as [-> | Hin].
      * exists k'. split; [left | exact Hat].
      * destruct (IH Hin) as (k & Hk & Hk'). exists k. split; [right |]; auto.
    + destruct (IH Hin) as (k & Hk & Hk'). exists k. split; [right |]; auto.
Qed.

Lemma attempt_id password k dk :
  key_agent.attempt password k = Resolved dk ->
  dk_id dk = key_identifier k.
Proof.
  unfold key_agent.attempt. intros Hat.
  destruct (key_agent.passwordKey password k); [| discriminate].
  destruct (key_agent.decryptKey _ _ _); [| discriminate].
  inversion Hat. reflexivity.
Qed.

Lemma validated_none password keys :
  (forall k, k ∈ keys -> key_agent.validates password k = false) ->
  key_agent.validated password keys = [].
Proof.
  induction keys as [| k keys IH]; intros Hall; [reflexivity |].
  simpl. pose proof (Hall k ltac:(left)) as Hk.
  unfold key_agent.validates in Hk.
  destruct (key_agent.attempt password k); [discriminate |].
  apply IH. intros k' Hk'. apply Hall. right. exact Hk'.
Qed.

Lemma with_keys_bound dks : forall agent dk,
  dk ∈ dks -> is_Some (with_keys dks agent !! dk_id dk).
Proof.
  unfold with_keys.
  induction dks as [| d dks IH] using rev_ind; intros agent dk Hin.
  - inversion Hin.
  - rewrite foldl_snoc. apply elem_of_app in Hin as [Hin | Hin].
    + destruct (decide (dk_id d = dk_id dk)) as [-> | Hne].
      * rewrite lookup_insert_eq. eauto.
      * rewrite lookup_insert_ne by exact Hne. apply IH, Hin.
    + apply list_elem_of_singleton in Hin as ->.
      rewrite lookup_insert_eq. eauto.
Qed.

Lemma with_keys_other dks : forall agent id,
  id ∉ map dk_id dks -> with_keys dks agent !! id = agent !! id.
Proof.
  unfold with_keys.
  induction dks as [| d dks IH]; intros agent id Hnin; [reflexivity |].
  simpl. simpl in Hnin. apply not_elem_of_cons in Hnin as [Hne Hnin].
  rewrite IH by exact Hnin. apply lookup_insert_ne. congruence.
Qed.

Lemma with_keys_lookup dks : forall agent dk,
  NoDup (map dk_id dks) ->
  dk ∈ dks ->
  with_keys dks agent !! dk_id dk = Some (dk_key dk).
Proof.
  induction dks as [| d dks IH]; intros agent dk Hnd Hin.
  - inversion Hin.
  - simpl in Hnd. apply NoDup_cons in Hnd as [Hfresh Hnd].
    apply elem_of_cons in Hin as [-> | Hin].
    + change (with_keys (d :: dks) agent)
        with (with_keys dks (<[dk_id d := dk_key d]> agent)).
      rewrite with_keys_other by exact Hfresh. apply lookup_insert_eq.
    + apply (IH _ _ Hnd Hin).
Qed.

Lemma validated_ids_NoDup password keys :
  NoDup (map key_identifier keys) ->
  NoDup (map dk_id (key_agent.validated password keys)).
Proof.
  induction keys as [| k keys IH]; simpl; intros Hnd; [constructor |].
  apply NoDup_cons in Hnd as [Hfresh Hnd].
  destruct (key_agent.attempt password k) as [dk | e] eqn:Hat; [| auto].
  simpl. apply NoDup_cons. split; [| auto].
  intros Hin. apply list_elem_of_fmap in Hin as (dk' & Hid & Hin).
  apply validated_origin in Hin as (k' & Hk' & Hat').
  apply Hfresh. apply list_elem_of_fmap. exists k'. split; [| exact Hk'].
  rewrite <- (attempt_id _ _ _ Hat), <- (attempt_id _ _ _ Hat'). exact Hid.
Qed.

(** C9.  When the store lists no keys, [unlockStore] rejects with the
    error 'Unable to unlock store: No encryption keys have been saved'
    for every password, and the key agent is left as it was. *)
Theorem unlockStore_no_keys st w w' agent password :
  listKeys st w = (Resolved [], w') ->
  unlockStore st agent password w =
  (Rejected
     (PlainError "Unable to unlock store: No encryption keys have been saved"),
   agent, w').
Proof. intros Hl. unfold unlockStore. rewrite Hl. reflexivity. Qed.

(** C5.  For a store that lists one or more key generations:
    if some generation validates against the password, [unlockStore]
    resolves, the agent then holds a key for the identifier of every
    generation that validated (the unwrapped key itself when
    identifiers are not repeated), and identifiers of no validated
    generation are left as they were; if no generation validates, it
    rejects with [DecryptionError] and the agent is unchanged. *)
Theorem unlockStore_any_generation st w w' agent password keys :
  listKeys st w = (Resolved keys, w') ->
  keys <> [] ->
  ((exists k, k ∈ keys /\ key_agent.validates password k = true) ->
   exists agent',
     unlockStore st agent password w = (Resolved tt, agent', w') /\
     agent' = with_keys (key_agent.validated password keys) agent /\
     (forall k dk,
         k ∈ keys ->
         key_agent.attempt password k = Resolved dk ->
         is_Some (agent' !! key_identifier k) /\
         (NoDup (map key_identifier keys) ->
          agent' !! key_identifier k = Some (dk_key dk))) /\
     (forall id,
         (forall k, k ∈ keys -> key_agent.validates password k = true ->
                    key_identifier k <> id) ->
         agent' !! id = agent !! id)) /\
  ((forall k, k ∈ keys -> key_agent.validates password k = false) ->
   unlockStore st agent password w = (Rejected DecryptionError, agent, w')).
Proof.
  intros Hl Hne. unfold unlockStore. rewrite Hl.
  destruct keys as [| k0 keys0]; [congruence |].
  change (length (k0 :: keys0) =? 0)%nat with false. cbv iota.
  set (keys := k0 :: keys0) in *. unfold key_agent.decryptKeys.
  split.
  - intros (k & Hk & Hv). unfold key_agent.validates in Hv.
    destruct (key_agent.attempt password k) as [dk |] eqn:Hat;
      [| discriminate].
    pose proof (validated_elem _ _ _ _ Hk Hat) as Hin.
    destruct (key_agent.validated password keys) as [| d ds] eqn:Hval.
    { inversion Hin. }
    rewrite addKeys_spec, Promise_all_resolved. simpl eraseResult.
    eexists. split; [reflexivity |].
    split; [reflexivity |]. split.
    + intros k1 dk1 Hk1 Hat1.
      pose proof (validated_elem _ _ _ _ Hk1 Hat1) as Hin1.
      rewrite Hval in Hin1.
      rewrite <- (attempt_id _ _ _ Hat1). split.
      * apply with_keys_bound, Hin1.
      * intros Hnd. apply with_keys_lookup; [| exact Hin1].
        rewrite <- Hval. apply validated_ids_NoDup, Hnd.
    + intros id Hid. apply with_keys_other. intros Hin'.
      apply list_elem_of_fmap in Hin' as (dk' & -> & Hin').
      rewrite <- Hval in Hin'.
      apply validated_origin in Hin' as (k' & Hk' & Hat').
      apply (Hid k' Hk').
      * unfold key_agent.validates. rewrite Hat'. reflexivity.
      * symmetry. apply (attempt_id _ _ _ Hat').
  - intros Hall. rewrite (validated_none _ _ Hall). reflexivity.
Qed.
End UnlockProperties.

(** ** Strings *)

Module StringFacts.
Lemma app_assoc (a b c : string) : ((a ++ b) ++ c)%string = (a ++ (b ++ c))%string.
Proof. induction a as [| x a IH]; simpl; [reflexivity | f_equal; exact IH]. Qed.

Lemma app_inv_head (a b c : string) : (a ++ b)%string = (a ++ c)%string -> b = c.
Proof.
  induction a as [| x a IH]; simpl; intros Heq; [exact Heq |].
  injection Heq as Heq. auto.
Qed.

(** Two concatenations that agree start alike: one head is a prefix
    of the other. *)
Lemma app_eq_prefix (a : string) : forall b r1 r2,
  (a ++ r1)%string = (b ++ r2)%string ->
  String.prefix a b = true \/ String.prefix b a = true.
Proof.
  induction a as [| x a IH]; intros b r1 r2 Heq;
    [left; destruct b; reflexivity |].
  destruct b as [| y b]; [right; reflexivity |].
  simpl in Heq. injection Heq as -> Heq. simpl.
  destruct (ascii_dec y y) as [_ | Hne]; [| congruence].
  apply (IH _ _ _ Heq).
Qed.

Lemma all_ascii_complete (c : ascii) : In c JSON.all_ascii.
Proof.
  unfold JSON.all_ascii. rewrite <- (ascii_nat_embedding c).
  apply in_map, in_seq. pose proof (nat_ascii_bounded c). lia.
Qed.

Lemma forall_ascii (p : ascii -> bool) :
  forallb p JSON.all_ascii = true -> forall c, p c = true.
Proof.
  intros Hall c. rewrite forallb_forall in Hall.
  apply Hall, all_ascii_complete.
Qed.
End StringFacts.

(** ** Quoted strings are self-delimiting *)

Module QuoteFacts.
Import JSON.

Lemma escape_prefix_free_all :
  forallb (fun c1 =>
             forallb (fun c2 =>
                        implb (String.prefix (escape c1) (escape c2))
                              (Ascii.eqb c1 c2))
                     all_ascii)
          all_ascii = true.
Proof. vm_compute. reflexivity. Qed.

Lemma escape_prefix_free c1 c2 :
  String.prefix (escape c1) (escape c2) = true -> c1 = c2.
Proof.
  intros Hp.
  pose proof (StringFacts.forall_ascii _ escape_prefix_free_all c1) as H1.
  pose proof (StringFacts.forall_ascii _ H1 c2) as H2. simpl in H2.
  rewrite Hp in H2. simpl in H2. apply Ascii.eqb_eq, H2.
Qed.

Lemma escape_head_all :
  forallb (fun c => match escape c with
                    | String a _ => negb (Ascii.eqb a dquote)
                    | EmptyString => false
                    end) all_ascii = true.
Proof. vm_compute. reflexivity. Qed.

(** No escape sequence starts with a double quote. *)
Lemma escape_head c :
  exists a rest, escape c = String a rest /\ a <> dquote.
Proof.
  pose proof (StringFacts.forall_ascii _ escape_head_all c) as Hc.
  simpl in Hc. destruct (escape c) as [| a rest]; [discriminate |].
  exists a, rest. split; [reflexivity |].
  intros ->. rewrite Ascii.eqb_refl in Hc. discriminate.
Qed.

Lemma escape_inj c1 c2 r1 r2 :
  (escape c1 ++ r1)%string = (escape c2 ++ r2)%string -> c1 = c2 /\ r1 = r2.
Proof.
  intros Heq.
  assert (c1 = c2) as ->.
  { destruct (StringFacts.app_eq_prefix _ _ _ _ Heq) as [Hp | Hp].
    - apply escape_prefix_free, Hp.
    - symmetry. apply escape_prefix_free, Hp. }
  split; [reflexivity |]. apply (StringFacts.app_inv_head _ _ _ Heq).
Qed.

Lemma escape_string_inj s1 : forall s2 r1 r2,
  (escape_string s1 ++ String dquote r1)%string =
  (escape_string s2 ++ String dquote r2)%string ->
  s1 = s2 /\ r1 = r2.
Proof.
  induction s1 as [| c1 s1 IH]; intros [| c2 s2] r1 r2 Heq; simpl in Heq.
  - injection Heq as ->. auto.
  - destruct (escape_head c2) as (a & rest & Hesc & Hne).
    rewrite Hesc in Heq. simpl in Heq. injection Heq as Ha _. congruence.
  - destruct (escape_head c1) as (a & rest & Hesc & Hne).
    rewrite Hesc in Heq. simpl in Heq. injection Heq as Ha _. congruence.
  - rewrite !StringFacts.app_assoc in Heq.
    apply escape_inj in Heq as [-> Heq].
    apply IH in Heq as [-> ->]. auto.
Qed.

(** A quoted string followed by anything determines the string and
    what follows. *)
Lemma quote_inj s1 s2 r1 r2 :
  (quote s1 ++ r1)%string = (quote s2 ++ r2)%string -> s1 = s2 /\ r1 = r2.
Proof.
  unfold quote. simpl. rewrite !StringFacts.app_assoc. simpl.
  intros Heq. injection Heq as Heq. apply (escape_string_inj _ _ _ _ Heq).
Qed.
End QuoteFacts.

(** ** Numbers are delimited by what follows them *)

Module NumberFacts.
Import JSON.

Lemma uint_inj d1 : forall d2 r1 r2,
  at_delimiter r1 = true ->
  at_delimiter r2 = true ->
  (NilEmpty.string_of_uint d1 ++ r1)%string =
  (NilEmpty.string_of_uint d2 ++ r2)%string ->
  d1 = d2 /\ r1 = r2.
Proof.
  induction d1 as [| d1 IH | d1 IH | d1 IH | d1 IH | d1 IH | d1 IH
                   | d1 IH | d1 IH | d1 IH | d1 IH];
    intros [| d2 | d2 | d2 | d2 | d2 | d2 | d2 | d2 | d2 | d2] r1 r2 H1 H2 Heq;
    simpl in Heq;
    try discriminate Heq;
    try (split; [reflexivity | exact Heq]);
    try (subst r1; simpl in H1; discriminate H1);
    try (subst r2; simpl in H2; discriminate H2);
    injection Heq as Heq;
    destruct (IH _ _ _ H1 H2 Heq) as [-> ->]; auto.
Qed.

Lemma to_int_not_nil z : Z.to_int z <> Decimal.Pos Decimal.Nil.
Proof.
  destruct z as [| p | p]; simpl; try discriminate.
  intros Heq. injection Heq as Heq.
  apply (DecimalPos.Unsigned.to_uint_nonnil p Heq).
Qed.

Lemma to_int_neg_not_nil z : Z.to_int z <> Decimal.Neg Decimal.Nil.
Proof.
  destruct z as [| p | p]; simpl; try discriminate.
  intros Heq. injection Heq as Heq.
  apply (DecimalPos.Unsigned.to_uint_nonnil p Heq).
Qed.

(** The first character of a decimal is a digit or the sign. *)
Lemma decimal_head z :
  exists c rest,
    decimal z = String c rest /\
    at_delimiter (String c "") = false /\
    (Ascii.eqb c "-" || (Ascii.leb "0" c && Ascii.leb c "9")) = true.
Proof.
  unfold decimal.
  pose proof (to_int_not_nil z) as Hp.
  destruct (Z.to_int z) as [d | d]; simpl.
  - destruct d; try congruence; eexists _, _; repeat split.
  - eexists _, _; repeat split.
Qed.

Lemma decimal_inj z1 z2 r1 r2 :
  at_delimiter r1 = true ->
  at_delimiter r2 = true ->
  (decimal z1 ++ r1)%string = (decimal z2 ++ r2)%string ->
  z1 = z2 /\ r1 = r2.
Proof.
  unfold decimal. intros H1 H2 Heq.
  pose proof (to_int_not_nil z1) as Hn1.
  pose proof (to_int_not_nil z2) as Hn2.
  destruct (Z.to_int z1) as [d1 | d1] eqn:E1;
    destruct (Z.to_int z2) as [d2 | d2] eqn:E2; simpl in Heq.
  - destruct (uint_inj _ _ _ _ H1 H2 Heq) as [-> ->].
    split; [| reflexivity]. apply to_int_inj. congruence.
  - destruct d1; try congruence; discriminate Heq.
  - destruct d2; try congruence; discriminate Heq.
  - injection Heq as Heq.
    destruct (uint_inj _ _ _ _ H1 H2 Heq) as [-> ->].
    split; [| reflexivity]. apply to_int_inj. congruence.
Qed.

Lemma decimal_opp p : decimal (Z.neg p) = ("-" ++ decimal (Z.pos p))%string.
Proof. reflexivity. Qed.

(** Below 2^53 a decimal is read back as the number only when it is
    the number. *)
Lemma closest_safe z p v :
  0 <= z < 2 ^ 53 -> 0 < p -> closest z p = Some v -> v = z.
Proof.
  intros Hz Hp. unfold closest.
  pose proof (Z.mul_div_le z p Hp) as Hlo.
  pose proof (Z.mul_succ_div_gt z p Hp) as Hhi.
  assert (0 <= z / p) as Hs by (apply Z.div_pos; lia).
  set (lower := z / p * p) in *. set (upper := (z / p + 1) * p) in *.
  assert (0 <= lower <= z) as Hl by (subst lower; nia).
  assert (z < upper) as Hu by (subst upper; nia).
  assert ((JSNumber.nearest upper =? z) = false) as ->.
  { apply Z.eqb_neq. intros Heq.
    destruct (Z.lt_ge_cases (Z.abs upper) (2 ^ 53)) as [Hsm | Hlg].
    - rewrite NumberArith.nearest_small in Heq by exact Hsm. lia.
    - pose proof (NumberArith.nearest_large upper Hlg) as Hn.
      rewrite Heq in Hn. assert (Z.sgn upper = 1) as Hsg by lia.
      rewrite Hsg in Hn. lia. }
  destruct (Z.eqb_spec (JSNumber.nearest lower) z) as [Heq | _];
    [| discriminate].
  intros Hv. injection Hv as <-.
  rewrite NumberArith.nearest_small in Heq by lia. exact Heq.
Qed.

Lemma shortest_from_safe z zeros :
  0 <= z < 2 ^ 53 -> shortest_from z zeros = z.
Proof.
  intros Hz. induction zeros as [| n IH]; simpl shortest_from.
  - destruct (closest z (10 ^ Z.of_nat 0)) as [v |] eqn:Hc; [| reflexivity].
    refine (closest_safe z _ v Hz _ Hc). reflexivity.
  - destruct (closest z (10 ^ Z.of_nat (S n))) as [v |] eqn:Hc; [| exact IH].
    refine (closest_safe z _ v Hz _ Hc). apply Z.pow_pos_nonneg; lia.
Qed.

Lemma positive_to_string_safe z :
  0 <= z < 2 ^ 53 -> positive_to_string z = decimal z.
Proof.
  intros Hz. unfold positive_to_string, shortest.
  rewrite shortest_from_safe by exact Hz.
  assert (2 ^ 53 < 10 ^ 21) as H21 by reflexivity.
  destruct (Z.ltb_spec z (10 ^ 21)); [reflexivity | lia].
Qed.

(** A safe integer is written in full. *)
Lemma number_to_string_safe z :
  Representable.safe_integer z = true -> number_to_string z = decimal z.
Proof.
  unfold Representable.safe_integer, number_to_string. intros Hz.
  apply Z.ltb_lt in Hz.
  destruct (Z.ltb_spec z 0) as [Hneg | Hpos].
  - rewrite positive_to_string_safe by lia.
    destruct z as [| q | q]; try lia. reflexivity.
  - apply positive_to_string_safe. lia.
Qed.

Lemma of_Z_safe z :
  Representable.safe_integer z = true -> JSNumber.of_Z z = Num z.
Proof.
  unfold Representable.safe_integer, JSNumber.of_Z. intros Hz.
  apply Z.ltb_lt in Hz. rewrite NumberArith.nearest_small by exact Hz.
  pose proof NumberArith.MAX_VALUE_large as HM.
  destruct (Z.ltb_spec JSNumber.MAX_VALUE z); [lia |].
  destruct (Z.ltb_spec z (- JSNumber.MAX_VALUE)); [lia |]. reflexivity.
Qed.

(** The text of a safe integer is its decimal. *)
Lemma number_text_safe z :
  Representable.safe_integer z = true ->
  number_text (Num z) = number_to_string z.
Proof. intros Hz. unfold number_text. rewrite (of_Z_safe z Hz). reflexivity. Qed.

Lemma number_head z :
  Representable.safe_integer z = true ->
  exists c rest,
    number_to_string z = String c rest /\
    at_delimiter (String c "") = false /\
    (Ascii.eqb c "-" || (Ascii.leb "0" c && Ascii.leb c "9")) = true.
Proof.
  intros Hz. rewrite number_to_string_safe by exact Hz. apply decimal_head.
Qed.

Lemma number_inj z1 z2 r1 r2 :
  Representable.safe_integer z1 = true ->
  Representable.safe_integer z2 = true ->
  at_delimiter r1 = true ->
  at_delimiter r2 = true ->
  (number_to_string z1 ++ r1)%string = (number_to_string z2 ++ r2)%string ->
  z1 = z2 /\ r1 = r2.
Proof.
  intros Hz1 Hz2. rewrite !number_to_string_safe by assumption.
  apply decimal_inj.
Qed.

(** The notation of numbers that are not safe integers. *)
Lemma number_to_string_large :
  number_to_string (2 ^ 53) = "9007199254740992" /\
  number_to_string (2 ^ 60) = "1152921504606847000" /\
  number_to_string 123456789012345680000 = "123456789012345680000" /\
  number_to_string (10 ^ 21) = "1e+21" /\
  number_to_string (- 2 ^ 70) = "-1.1805916207174113e+21" /\
  number_to_string JSNumber.MAX_VALUE = "1.7976931348623157e+308".
Proof. repeat split; vm_compute; reflexivity. Qed.
End NumberFacts.

(** ** Lists of values *)

Module JoinFacts.
Import JSON.

Section Join.
Context {A : Type} (f : A -> string) (good : A -> Prop) (close : ascii).
Hypothesis close_delimiter : at_delimiter (String close "") = true.
Hypothesis close_not_comma : close <> ","%char.
Hypothesis head :
  forall x, good x ->
    exists c rest, f x = String c rest /\ at_delimiter (String c "") = false.

Lemma join_cons x l r :
  exists R,
    (join_comma (List.map f (x :: l)) ++ String close r)%string =
    (f x ++ R)%string /\
    at_delimiter R = true /\
    (l = [] -> R = String close r) /\
    (l <> [] ->
     R = String "," (join_comma (List.map f l) ++ String close r)).
Proof.
  destruct l as [| y l].
  - exists (String close r).
    split; [reflexivity |]. split; [exact close_delimiter |].
    split; [reflexivity | congruence].
  - exists (String "," (join_comma (List.map f (y :: l)) ++ String close r)).
    split; [| split; [reflexivity | split; [discriminate | reflexivity]]].
    change (List.map f (x :: y :: l)) with (f x :: List.map f (y :: l)).
    change (join_comma (f x :: List.map f (y :: l)))
      with (f x ++ "," ++ join_comma (List.map f (y :: l)))%string.
    rewrite StringFacts.app_assoc. reflexivity.
Qed.

Lemma not_close_head x r R :
  good x -> String close r <> (f x ++ R)%string.
Proof.
  intros Hx Heq. destruct (head x Hx) as (c & rest & Hf & Hc).
  rewrite Hf in Heq. simpl in Heq. injection Heq as -> _.
  rewrite close_delimiter in Hc. discriminate.
Qed.

(** Lists whose elements determine themselves and what follows them
    are determined by their joined text. *)
Lemma join_inj l1 : forall l2 r1 r2,
  Forall (fun x =>
            forall y r r',
              good y ->
              at_delimiter r = true ->
              at_delimiter r' = true ->
              (f x ++ r)%string = (f y ++ r')%string ->
              x = y /\ r = r') l1 ->
  Forall good l1 ->
  Forall good l2 ->
  (join_comma (List.map f l1) ++ String close r1)%string =
  (join_comma (List.map f l2) ++ String close r2)%string ->
  l1 = l2 /\ r1 = r2.
Proof.
  induction l1 as [| x l1 IH]; intros l2 r1 r2 Hsd Hg1 Hg2 Heq.
  - destruct l2 as [| y l2].
    + simpl in Heq. injection Heq as ->. auto.
    + destruct (join_cons y l2 r2) as (R & HR & _). rewrite HR in Heq.
      simpl in Heq. apply Forall_cons in Hg2 as [Hy _].
      destruct (not_close_head _ _ _ Hy Heq).
  - apply Forall_cons in Hsd as [Hx Hsd].
    apply Forall_cons in Hg1 as [Hgx Hg1].
    destruct (join_cons x l1 r1) as (R1 & HR1 & Hd1 & Hnil1 & Hcons1).
    rewrite HR1 in Heq.
    destruct l2 as [| y l2].
    + simpl in Heq. symmetry in Heq.
      destruct (not_close_head _ _ _ Hgx Heq).
    + apply Forall_cons in Hg2 as [Hgy Hg2].
      destruct (join_cons y l2 r2) as (R2 & HR2 & Hd2 & Hnil2 & Hcons2).
      rewrite HR2 in Heq.
      destruct (Hx y R1 R2 Hgy Hd1 Hd2 Heq) as [-> HR].
      destruct l1 as [| x1 l1]; destruct l2 as [| y1 l2].
      * rewrite Hnil1, Hnil2 in HR by reflexivity.
        injection HR as ->. auto.
      * rewrite Hnil1 in HR by reflexivity.
        rewrite Hcons2 in HR by discriminate.
        injection HR as Hc _. congruence.
      * rewrite Hnil2 in HR by reflexivity.
        rewrite Hcons1 in HR by discriminate.
        injection HR as Hc _. congruence.
      * rewrite Hcons1, Hcons2 in HR by discriminate.
        injection HR as HR.
        destruct (IH _ _ _ Hsd Hg1 Hg2 HR) as [-> ->]. auto.
Qed.
End Join.
End JoinFacts.

(** ** Texts of representable values determine the values *)

Module SerializeFacts.
Import JSON Representable.

(** Induction on values, with the hypothesis available for the
    elements of arrays and the member values of objects. *)
Lemma JSValue_nested_ind (P : JSValue -> Prop) :
  P JUndefined ->
  P JNull ->
  (forall b, P (JBool b)) ->
  (forall n, P (JNumber n)) ->
  (forall s, P (JString s)) ->
  (forall l, Forall P l -> P (JArray l)) ->
  (forall ps, Forall (fun kv => P (snd kv)) ps -> P (JObject ps)) ->
  forall v, P v.
Proof.
  intros Hu Hn Hb Hnum Hs Ha Ho.
  fix IH 1. intros [| | b | n | s | l | ps].
  - exact Hu.
  - exact Hn.
  - apply Hb.
  - apply Hnum.
  - apply Hs.
  - apply Ha. induction l as [| x l IHl]; constructor; [apply IH | exact IHl].
  - apply Ho. induction ps as [| [k x] ps IHps]; constructor;
      [apply IH | exact IHps].
Qed.

Lemma serialize_none v : serialize v = None -> v = JUndefined.
Proof.
  destruct v as [| | [] | [] | | |]; simpl; intros Hs;
    try discriminate Hs; reflexivity.
Qed.

Lemma clean_array l :
  clean (JArray l) = true -> Forall (fun x => clean x = true) l.
Proof.
  simpl. intros Hc. apply Forall_forall. intros x Hx.
  rewrite forallb_forall in Hc. apply Hc. apply list_elem_of_In, Hx.
Qed.

Lemma clean_object ps :
  clean (JObject ps) = true -> Forall (fun kv => clean (snd kv) = true) ps.
Proof.
  induction ps as [| [k x] ps IH]; intros Hc; constructor.
  - simpl in Hc. apply andb_true_iff in Hc as [Hx _]. exact Hx.
  - apply IH. simpl in Hc. apply andb_true_iff in Hc as [_ Hps]. exact Hps.
Qed.

Lemma element_array l :
  element (JArray l) =
  String "[" (join_comma (List.map element l) ++ "]")%string.
Proof. reflexivity. Qed.

Lemma element_object ps :
  Forall (fun kv => clean (snd kv) = true) ps ->
  element (JObject ps) =
  String "{" (join_comma (List.map member ps) ++ "}")%string.
Proof.
  intros Hc. unfold element. simpl. do 3 f_equal.
  induction Hc as [| [k x] ps Hx Hps IH]; [reflexivity |].
  simpl in Hx. simpl List.map. rewrite <- IH. unfold member, element. simpl.
  destruct (serialize x) eqn:Es; [reflexivity |].
  apply serialize_none in Es. subst x. discriminate Hx.
Qed.

(** The first character of a text tells the kind of the value. *)
Lemma element_head v :
  clean v = true ->
  exists c rest,
    element v = String c rest /\
    kind_of_head c = kind v /\
    at_delimiter (String c "") = false.
Proof.
  intros Hc. destruct v as [| | [] | [z | | |] | s | l | ps];
    try discriminate Hc.
  - eexists _, _. repeat split.
  - eexists _, _. repeat split.
  - eexists _, _. repeat split.
  - destruct (NumberFacts.number_head z Hc) as (c & rest & Hn & Hd & Hk).
    exists c, rest.
    split; [change (element (JNumber (Num z))) with (number_text (Num z));
            rewrite (NumberFacts.number_text_safe z Hc); exact Hn |].
    split; [| exact Hd].
    unfold kind_of_head. simpl kind.
    destruct (Ascii.eqb_spec c "n") as [-> | _]; [discriminate Hk |].
    destruct (Ascii.eqb_spec c "t") as [-> | _]; [discriminate Hk |].
    destruct (Ascii.eqb_spec c "f") as [-> | _]; [discriminate Hk |].
    rewrite Hk. reflexivity.
  - eexists _, _. repeat split.
  - eexists _, _. rewrite element_array. repeat split.
  - eexists _, _. rewrite element_object by (apply clean_object, Hc).
    repeat split.
Qed.

Lemma member_head kv :
  exists c rest,
    member kv = String c rest /\ at_delimiter (String c "") = false.
Proof. eexists _, _. split; reflexivity. Qed.

(** The text of a representable value, followed by a delimiter,
    determines the value and what follows. *)
Lemma element_inj v1 :
  clean v1 = true ->
  forall v2 r1 r2,
    clean v2 = true ->
    at_delimiter r1 = true ->
    at_delimiter r2 = true ->
    (element v1 ++ r1)%string = (element v2 ++ r2)%string ->
    v1 = v2 /\ r1 = r2.
Proof.
  induction v1 as [| | b1 | n1 | s1 | l1 IHl | ps1 IHps]
    using JSValue_nested_ind;
    intros Hc1 v2 r1 r2 Hc2 H1 H2 Heq;
    (match type of Hc1 with
     | clean ?v = true =>
       assert (kind v2 = kind v) as Hkind;
       [ destruct (element_head _ Hc1) as (c1 & t1 & He1 & Hk1 & _);
         destruct (element_head _ Hc2) as (c2 & t2 & He2 & Hk2 & _);
         rewrite He1, He2 in Heq; simpl in Heq; injection Heq as -> _;
         congruence |]
     end).
  - discriminate Hc1.
  - destruct v2 as [| | [] | [] | | |]; try discriminate Hkind;
      try discriminate Hc2.
    simpl in Heq. injection Heq as ->. auto.
  - destruct b1; destruct v2 as [| | [] | [] | | |];
      try discriminate Hkind; try discriminate Hc2;
      simpl in Heq; injection Heq as ->; auto.
  - destruct n1 as [z1 | | |]; try discriminate Hc1.
    destruct v2 as [| | [] | [z2 | | |] | | |];
      try discriminate Hkind; try discriminate Hc2.
    change (element (JNumber (Num z1))) with (number_text (Num z1)) in Heq.
    change (element (JNumber (Num z2))) with (number_text (Num z2)) in Heq.
    rewrite (NumberFacts.number_text_safe z1 Hc1),
      (NumberFacts.number_text_safe z2 Hc2) in Heq.
    destruct (NumberFacts.number_inj _ _ _ _ Hc1 Hc2 H1 H2 Heq) as [-> ->].
    auto.
  - destruct v2 as [| | [] | [] | s2 | |]; try discriminate Hkind;
      try discriminate Hc2.
    change (element (JString s1)) with (quote s1) in Heq.
    change (element (JString s2)) with (quote s2) in Heq.
    destruct (QuoteFacts.quote_inj _ _ _ _ Heq) as [-> ->]. auto.
  - destruct v2 as [| | [] | [] | | l2 |]; try discriminate Hkind;
      try discriminate Hc2.
    rewrite !element_array in Heq. simpl in Heq. injection Heq as Heq.
    rewrite !StringFacts.app_assoc in Heq. simpl in Heq.
    pose proof (clean_array _ Hc1) as Hl1.
    pose proof (clean_array _ Hc2) as Hl2.
    destruct (JoinFacts.join_inj element (fun x => clean x = true) "]"
                eq_refl ltac:(discriminate)
                (fun x Hx => match element_head x Hx with
                             | ex_intro _ c (ex_intro _ rest (conj He (conj _ Hd))) =>
                               ex_intro _ c (ex_intro _ rest (conj He Hd))
                             end)
                l1 l2 r1 r2) as [-> ->]; auto.
    apply Forall_forall. intros x Hx y r r' Hy Hr Hr' Hxy.
    rewrite Forall_forall in IHl, Hl1.
    apply (IHl x Hx (Hl1 x Hx) y r r' Hy Hr Hr' Hxy).
  - destruct v2 as [| | [] | [] | | | ps2]; try discriminate Hkind;
      try discriminate Hc2.
    pose proof (clean_object _ Hc1) as Hp1.
    pose proof (clean_object _ Hc2) as Hp2.
    rewrite !element_object in Heq by assumption.
    simpl in Heq. injection Heq as Heq.
    rewrite !StringFacts.app_assoc in Heq. simpl in Heq.
    destruct (JoinFacts.join_inj member
                (fun kv => clean (snd kv) = true) "}"
                eq_refl ltac:(discriminate)
                (fun kv _ => member_head kv)
                ps1 ps2 r1 r2) as [-> ->]; auto.
    apply Forall_forall. intros [k x] Hx [k' y] r r' Hy Hr Hr' Hxy.
    unfold member in Hxy. cbn [fst snd] in Hxy, Hy.
    rewrite !(StringFacts.app_assoc (quote _)) in Hxy.
    apply QuoteFacts.quote_inj in Hxy as [-> Hxy].
    simpl in Hxy. injection Hxy as Hxy.
    rewrite Forall_forall in IHps, Hp1.
    destruct (IHps (k', x) Hx (Hp1 (k', x) Hx) y r r' Hy Hr Hr' Hxy)
      as [Hv Hrest].
    simpl in Hv. subst. auto.
Qed.

(** Representable values with the same text are equal. *)
Lemma serialize_inj v1 v2 :
  clean v1 = true ->
  clean v2 = true ->
  serialize v1 = serialize v2 ->
  v1 = v2.
Proof.
  intros Hc1 Hc2 Heq.
  assert (element v1 = element v2) as He
      by (unfold element; rewrite Heq; reflexivity).
  apply (element_inj v1 Hc1 v2 "" "" Hc2 eq_refl eq_refl).
  rewrite He. reflexivity.
Qed.
End SerializeFacts.

(** ** Which values JSON writes alike *)

Module NormalFacts.
Import JSON Representable SerializeFacts.

Lemma normal_object ps : normal (JObject ps) = JObject (normal_members ps).
Proof. reflexivity. Qed.

Lemma normal_not_undefined v : v <> JUndefined -> normal v <> JUndefined.
Proof. destruct v as [| | | [] | | |]; simpl; congruence. Qed.

Lemma exact_array l :
  exact (JArray l) = true -> Forall (fun x => exact x = true) l.
Proof.
  simpl. intros Hc. apply Forall_forall. intros x Hx.
  rewrite forallb_forall in Hc. apply Hc. apply list_elem_of_In, Hx.
Qed.

Lemma exact_object ps :
  exact (JObject ps) = true -> Forall (fun kv => exact (snd kv) = true) ps.
Proof.
  induction ps as [| [k x] ps IH]; intros Hc; constructor.
  - simpl in Hc. apply andb_true_iff in Hc as [Hx _]. exact Hx.
  - apply IH. simpl in Hc. apply andb_true_iff in Hc as [_ Hps]. exact Hps.
Qed.

Lemma clean_exact v : clean v = true -> exact v = true.
Proof.
  induction v as [| | b | n | s | l IHl | ps IHps] using JSValue_nested_ind;
    intros Hc; try reflexivity.
  - destruct n; try discriminate Hc. exact Hc.
  - pose proof (clean_array _ Hc) as Hl. simpl. apply forallb_forall.
    intros x Hx. rewrite Forall_forall in IHl, Hl.
    apply list_elem_of_In in Hx. apply IHl; [exact Hx | apply Hl, Hx].
  - pose proof (clean_object _ Hc) as Hp. clear Hc.
    induction IHps as [| [k x] ps Hx Hps IH]; [reflexivity |].
    apply Forall_cons in Hp as [Hcx Hp]. simpl in Hx, Hcx.
    change (exact (JObject ((k, x) :: ps)))
      with (exact x && exact (JObject ps)).
    rewrite (Hx Hcx), (IH Hp). reflexivity.
Qed.

Lemma normal_clean v :
  v <> JUndefined -> exact v = true -> clean (normal v) = true.
Proof.
  induction v as [| | b | n | s | l IHl | ps IHps] using JSValue_nested_ind;
    intros Hv He; try congruence; try reflexivity.
  - destruct n; try reflexivity. exact He.
  - pose proof (exact_array _ He) as Hl.
    simpl. apply forallb_forall. intros y Hy.
    apply in_map_iff in Hy as (x & <- & Hx).
    rewrite Forall_forall in IHl, Hl. apply list_elem_of_In in Hx.
    pose proof (Hl x Hx) as Hex.
    destruct x; try reflexivity;
      (apply IHl; [exact Hx | discriminate | exact Hex]).
  - rewrite normal_object. clear Hv.
    pose proof (exact_object _ He) as Hp. clear He.
    induction IHps as [| [k x] ps Hx Hps IH]; [reflexivity |].
    apply Forall_cons in Hp as [Hex Hp]. simpl in Hx, Hex.
    simpl normal_members. specialize (IH Hp).
    destruct x; try exact IH;
      (change (clean (JObject (?p :: ?q))) with
           (clean (snd p) && clean (JObject q));
       rewrite IH, andb_true_r; apply Hx; [discriminate | exact Hex]).
Qed.

Lemma serialize_normal v : serialize (normal v) = serialize v.
Proof.
  induction v as [| | b | n | s | l IHl | ps IHps] using JSValue_nested_ind;
    try reflexivity.
  - destruct n; reflexivity.
  - simpl. do 4 f_equal. rewrite List.map_map.
    apply List.map_ext_in. intros x Hx. rewrite Forall_forall in IHl.
    destruct x; try reflexivity;
      (rewrite IHl by (apply list_elem_of_In, Hx); reflexivity).
  - rewrite normal_object. simpl. do 4 f_equal.
    induction IHps as [| [k x] ps Hx Hps IH]; [reflexivity |].
    simpl in Hx. simpl normal_members.
    destruct x; try exact IH;
      (rewrite Hx, IH; reflexivity).
Qed.

Lemma normal_id v : clean v = true -> normal v = v.
Proof.
  induction v as [| | b | n | s | l IHl | ps IHps] using JSValue_nested_ind;
    intros Hc; try reflexivity.
  - destruct n; try discriminate Hc; reflexivity.
  - simpl. f_equal. pose proof (clean_array _ Hc) as Hl.
    rewrite <- (List.map_id l) at 2. apply List.map_ext_in. intros x Hx.
    rewrite Forall_forall in IHl, Hl.
    pose proof (Hl x (proj2 (list_elem_of_In _ _) Hx)) as Hcx.
    destruct x; try discriminate Hcx; try reflexivity;
      (apply IHl; [apply list_elem_of_In, Hx | exact Hcx]).
  - rewrite normal_object. f_equal. pose proof (clean_object _ Hc) as Hp.
    clear Hc. induction IHps as [| [k x] ps Hx Hps IH]; [reflexivity |].
    apply Forall_cons in Hp as [Hcx Hp]. simpl in Hx, Hcx.
    simpl. rewrite (IH Hp).
    destruct x; try discriminate Hcx; try reflexivity;
      (rewrite (Hx Hcx); reflexivity).
Qed.

(** Two values whose numbers are safe integers have the same text
    exactly when they have the same normal form. *)
Theorem serialize_eq_iff v1 v2 :
  exact v1 = true ->
  exact v2 = true ->
  v1 <> JUndefined ->
  v2 <> JUndefined ->
  serialize v1 = serialize v2 <-> normal v1 = normal v2.
Proof.
  intros He1 He2 H1 H2. split; intros Heq.
  - apply serialize_inj; try (apply normal_clean; assumption).
    rewrite !serialize_normal. exact Heq.
  - rewrite <- (serialize_normal v1), <- (serialize_normal v2), Heq.
    reflexivity.
Qed.

Lemma normal_members_keys ps k :
  In k (List.map fst (normal_members ps)) -> In k (List.map fst ps).
Proof.
  induction ps as [| [k' x] ps IH]; simpl; [auto |].
  destruct x; simpl; intuition.
Qed.

(** Members under distinct keys can be compared one key at a time. *)
Lemma normal_members_peel k v1 v2 ps1 ps2 :
  ~ In k (List.map fst ps1) ->
  ~ In k (List.map fst ps2) ->
  normal_members ((k, v1) :: ps1) = normal_members ((k, v2) :: ps2) ->
  normal_opt v1 = normal_opt v2 /\ normal_members ps1 = normal_members ps2.
Proof.
  intros Hk1 Hk2 Heq.
  assert (forall v ps ps',
             v <> JUndefined -> ~ In k (List.map fst ps') ->
             normal_members ((k, v) :: ps) <> normal_members ps') as Hmiss.
  { intros v ps ps' Hv Hk Habs. apply Hk, normal_members_keys.
    rewrite <- Habs. destruct v; try congruence; left; reflexivity. }
  assert (forall v, v = JUndefined \/ v <> JUndefined) as Hdec
      by (intros []; auto; right; discriminate).
  destruct (Hdec v1) as [-> | Hv1]; destruct (Hdec v2) as [-> | Hv2].
  - auto.
  - symmetry in Heq. destruct (Hmiss _ _ _ Hv2 Hk1 Heq).
  - destruct (Hmiss _ _ _ Hv1 Hk2 Heq).
  - assert (forall v ps, v <> JUndefined ->
              normal_members ((k, v) :: ps) = (k, normal v) :: normal_members ps)
      as Hcons by (intros v ps Hv; destruct v; congruence || reflexivity).
    rewrite !Hcons in Heq by assumption. injection Heq as Hv Hps.
    split; [| exact Hps].
    destruct v1; try congruence; destruct v2; try congruence;
      unfold normal_opt; rewrite Hv; reflexivity.
Qed.
End NormalFacts.

(** ** ISO date strings determine the time value *)

Module DateFacts.
Import DateISO.

Lemma string_cons_inv c c' (s s' : string) :
  String c s = String c' s' -> c = c' /\ s = s'.
Proof. intros Heq. injection Heq as -> ->. auto. Qed.

Lemma digit_code n : N_of_ascii (digit n) = Z.to_N (48 + n mod 10).
Proof.
  unfold digit. apply N_ascii_embedding.
  pose proof (Z.mod_pos_bound n 10 ltac:(lia)). lia.
Qed.

Lemma digit_inj a b : digit a = digit b -> a mod 10 = b mod 10.
Proof.
  intros Heq. apply (f_equal N_of_ascii) in Heq.
  rewrite !digit_code in Heq.
  pose proof (Z.mod_pos_bound a 10 ltac:(lia)).
  pose proof (Z.mod_pos_bound b 10 ltac:(lia)). lia.
Qed.

Lemma digit_not_sign n : digit n <> "-"%char /\ digit n <> "+"%char.
Proof.
  pose proof (digit_code n) as Hc.
  pose proof (Z.mod_pos_bound n 10 ltac:(lia)).
  split; intros Heq; rewrite Heq in Hc; simpl in Hc; lia.
Qed.

Lemma pad2_inj a b r r' :
  0 <= a < 100 -> 0 <= b < 100 ->
  (pad2 a ++ r)%string = (pad2 b ++ r')%string -> a = b /\ r = r'.
Proof.
  intros Ha Hb Heq. unfold pad2 in Heq. simpl in Heq.
  injection Heq as H1 H0 Hr.
  apply digit_inj in H1, H0. split; [| exact Hr].
  Z.div_mod_to_equations. lia.
Qed.

Lemma pad3_inj a b r r' :
  0 <= a < 1000 -> 0 <= b < 1000 ->
  (pad3 a ++ r)%string = (pad3 b ++ r')%string -> a = b /\ r = r'.
Proof.
  intros Ha Hb Heq. unfold pad3, pad2 in Heq. simpl in Heq.
  injection Heq as H2 H1 H0 Hr.
  apply digit_inj in H2, H1, H0. split; [| exact Hr].
  Z.div_mod_to_equations. lia.
Qed.

Lemma pad4_inj a b r r' :
  0 <= a < 10000 -> 0 <= b < 10000 ->
  (pad4 a ++ r)%string = (pad4 b ++ r')%string -> a = b /\ r = r'.
Proof.
  intros Ha Hb Heq. unfold pad4, pad3, pad2 in Heq. simpl in Heq.
  injection Heq as H3 H2 H1 H0 Hr.
  apply digit_inj in H3, H2, H1, H0. split; [| exact Hr].
  Z.div_mod_to_equations. lia.
Qed.

Lemma pad6_inj a b r r' :
  0 <= a < 1000000 -> 0 <= b < 1000000 ->
  (pad6 a ++ r)%string = (pad6 b ++ r')%string -> a = b /\ r = r'.
Proof.
  intros Ha Hb Heq. unfold pad6, pad4, pad3, pad2 in Heq. simpl in Heq.
  injection Heq as H5 H4 H3 H2 H1 H0 Hr.
  apply digit_inj in H5, H4, H3, H2, H1, H0. split; [| exact Hr].
  Z.div_mod_to_equations. lia.
Qed.

Lemma year_string_cases y :
  (0 <= y <= 9999 /\ year_string y = pad4 y) \/
  (y < 0 /\ year_string y = String "-" (pad6 (- y))) \/
  (9999 < y /\ year_string y = String "+" (pad6 y)).
Proof.
  unfold year_string.
  destruct (Z.leb_spec 0 y), (Z.leb_spec y 9999); simpl andb; cbv iota.
  - left. split; [lia | reflexivity].
  - right. right. destruct (Z.ltb_spec y 0); [lia |].
    split; [lia | reflexivity].
  - right. left. destruct (Z.ltb_spec y 0); [| lia].
    split; [lia | reflexivity].
  - lia.
Qed.

Lemma pad4_head n : exists rest, pad4 n = String (digit (n / 1000)) rest.
Proof. eexists. reflexivity. Qed.

Lemma year_string_inj y y' r r' :
  -1000000 < y < 1000000 -> -1000000 < y' < 1000000 ->
  (year_string y ++ r)%string = (year_string y' ++ r')%string ->
  y = y' /\ r = r'.
Proof.
  intros Hy Hy'.
  destruct (year_string_cases y) as [[Hr ->] | [[Hr ->] | [Hr ->]]];
    destruct (year_string_cases y') as [[Hr' ->] | [[Hr' ->] | [Hr' ->]]];
    intros Heq.
  - apply pad4_inj in Heq; [exact Heq | lia | lia].
  - destruct (pad4_head y) as (rest & E). rewrite E in Heq. cbn [String.append] in Heq.
    apply string_cons_inv in Heq as [Hd _]. destruct (digit_not_sign (y / 1000)). congruence.
  - destruct (pad4_head y) as (rest & E). rewrite E in Heq. cbn [String.append] in Heq.
    apply string_cons_inv in Heq as [Hd _]. destruct (digit_not_sign (y / 1000)). congruence.
  - destruct (pad4_head y') as (rest & E). rewrite E in Heq. cbn [String.append] in Heq.
    apply string_cons_inv in Heq as [Hd _]. destruct (digit_not_sign (y' / 1000)). congruence.
  - cbn [String.append] in Heq. apply string_cons_inv in Heq as [_ Heq].
    apply pad6_inj in Heq; [| lia | lia]. destruct Heq as [Heq ->].
    split; [lia | reflexivity].
  - cbn [String.append] in Heq. apply string_cons_inv in Heq as [Hd _]. discriminate Hd.
  - destruct (pad4_head y') as (rest & E). rewrite E in Heq. cbn [String.append] in Heq.
    apply string_cons_inv in Heq as [Hd _]. destruct (digit_not_sign (y' / 1000)). congruence.
  - cbn [String.append] in Heq. apply string_cons_inv in Heq as [Hd _]. discriminate Hd.
  - cbn [String.append] in Heq. apply string_cons_inv in Heq as [_ Heq].
    apply pad6_inj in Heq; [exact Heq | lia | lia].
Qed.

(** The year of era and the day of year stay in their ranges. *)
Lemma era_bounds doe :
  0 <= doe < 146097 ->
  let yoe := (doe - doe / 1460 + doe / 36524 - doe / 146096) / 365 in
  let doy := doe - (365 * yoe + yoe / 4 - yoe / 100) in
  0 <= yoe <= 399 /\ 0 <= doy <= 365.
Proof.
  intros Hdoe yoe doy. subst doy yoe.
  Z.div_mod_to_equations. lia.
Qed.

Lemma month_bounds doy :
  0 <= doy <= 365 ->
  let mp := (5 * doy + 2) / 153 in
  let d := doy - (153 * mp + 2) / 5 + 1 in
  0 <= mp <= 11 /\ 1 <= d <= 31.
Proof.
  intros Hdoy mp d. subst d mp. Z.div_mod_to_equations. lia.
Qed.

(** The calendar fields of a day, with their ranges and the way back
    to the day number. *)
Lemma civil_from_days_spec days :
  exists era yoe mp d,
    civil_from_days days =
    (yoe + era * 400 + (if (if mp <? 10 then mp + 3 else mp - 9) <=? 2
                        then 1 else 0),
     if mp <? 10 then mp + 3 else mp - 9,
     d) /\
    0 <= yoe <= 399 /\ 0 <= mp <= 11 /\ 1 <= d <= 31 /\
    era = (days + 719468) / 146097 /\
    days + 719468 =
    era * 146097 + 365 * yoe + yoe / 4 - yoe / 100 +
    (153 * mp + 2) / 5 + d - 1.
Proof.
  unfold civil_from_days.
  set (z := days + 719468).
  set (era := z / 146097). set (doe := z mod 146097).
  assert (0 <= doe < 146097) as Hdoe
      by (apply Z.mod_pos_bound; lia).
  assert (z = era * 146097 + doe) as Hz
      by (subst era doe; pose proof (Z.div_mod z 146097); lia).
  pose proof (era_bounds doe Hdoe) as Hera. cbv zeta in Hera.
  set (yoe := (doe - doe / 1460 + doe / 36524 - doe / 146096) / 365) in *.
  set (doy := doe - (365 * yoe + yoe / 4 - yoe / 100)) in *.
  destruct Hera as [Hyoe Hdoy].
  pose proof (month_bounds doy Hdoy) as Hm. cbv zeta in Hm.
  set (mp := (5 * doy + 2) / 153) in *.
  set (d := doy - (153 * mp + 2) / 5 + 1) in *.
  destruct Hm as [Hmp Hd].
  exists era, yoe, mp, d. split; [reflexivity |].
  repeat split; lia.
Qed.

Lemma civil_from_days_inj d1 d2 :
  civil_from_days d1 = civil_from_days d2 -> d1 = d2.
Proof.
  destruct (civil_from_days_spec d1)
    as (era1 & yoe1 & mp1 & dd1 & -> & Hy1 & Hm1 & Hd1 & _ & Hz1).
  destruct (civil_from_days_spec d2)
    as (era2 & yoe2 & mp2 & dd2 & -> & Hy2 & Hm2 & Hd2 & _ & Hz2).
  intros Heq. injection Heq as Hy Hm Hd.
  assert (mp1 = mp2) as ->.
  { destruct (Z.ltb_spec mp1 10), (Z.ltb_spec mp2 10); lia. }
  assert (yoe1 = yoe2 /\ era1 = era2) as [-> ->] by lia.
  lia.
Qed.

Lemma civil_year_bound t y m d :
  -8640000000000000 <= t <= 8640000000000000 ->
  civil_from_days (t / msPerDay) = (y, m, d) ->
  -1000000 < y < 1000000 /\ 0 <= m < 100 /\ 0 <= d < 100.
Proof.
  intros Ht.
  destruct (civil_from_days_spec (t / msPerDay))
    as (era & yoe & mp & dd & -> & Hy & Hm & Hd & Hera & _).
  intros Heq. injection Heq as <- <- <-.
  assert (-100000000 <= t / msPerDay <= 100000000) as Hdays
      by (unfold msPerDay; Z.div_mod_to_equations; lia).
  assert (-1000 < era < 1000) as Hb
      by (rewrite Hera; Z.div_mod_to_equations; lia).
  destruct (Z.ltb_spec mp 10);
    [destruct (Z.leb_spec (mp + 3) 2) | destruct (Z.leb_spec (mp - 9) 2)];
    lia.
Qed.

Lemma time_of_day_inj a b :
  0 <= a < msPerDay -> 0 <= b < msPerDay ->
  a / 3600000 = b / 3600000 ->
  a / 60000 mod 60 = b / 60000 mod 60 ->
  a / 1000 mod 60 = b / 1000 mod 60 ->
  a mod 1000 = b mod 1000 ->
  a = b.
Proof.
  unfold msPerDay. intros Ha Hb Hh Hm Hs Hms.
  Z.div_mod_to_equations. lia.
Qed.

Ltac mod_bound :=
  match goal with
  | |- 0 <= ?x mod ?k < _ =>
    pose proof (Z.mod_pos_bound x k ltac:(lia)); lia
  end.

(** Valid dates with the same ISO string are the same date. *)
Lemma toISOString_inj t1 t2 :
  -8640000000000000 <= t1 <= 8640000000000000 ->
  -8640000000000000 <= t2 <= 8640000000000000 ->
  toISOString t1 = toISOString t2 ->
  t1 = t2.
Proof.
  intros Ht1 Ht2. unfold toISOString.
  destruct (civil_from_days (t1 / msPerDay)) as [[y1 m1] d1] eqn:E1.
  destruct (civil_from_days (t2 / msPerDay)) as [[y2 m2] d2] eqn:E2.
  destruct (civil_year_bound _ _ _ _ Ht1 E1) as (Hy1 & Hm1 & Hd1).
  destruct (civil_year_bound _ _ _ _ Ht2 E2) as (Hy2 & Hm2 & Hd2).
  assert (0 <= t1 mod msPerDay < msPerDay) as Hr1
      by (apply Z.mod_pos_bound; reflexivity).
  assert (0 <= t2 mod msPerDay < msPerDay) as Hr2
      by (apply Z.mod_pos_bound; reflexivity).
  set (a := t1 mod msPerDay) in *. set (b := t2 mod msPerDay) in *.
  intros Heq.
  apply year_string_inj in Heq as [Hy Heq]; [| lia | lia].
  cbn [String.append] in Heq. apply string_cons_inv in Heq as [_ Heq].
  apply pad2_inj in Heq as [Hm Heq]; [| lia | lia].
  cbn [String.append] in Heq. apply string_cons_inv in Heq as [_ Heq].
  apply pad2_inj in Heq as [Hd Heq]; [| lia | lia].
  cbn [String.append] in Heq. apply string_cons_inv in Heq as [_ Heq].
  apply pad2_inj in Heq as [Hh Heq];
    [| unfold msPerDay in *; Z.div_mod_to_equations; lia
     | unfold msPerDay in *; Z.div_mod_to_equations; lia].
  cbn [String.append] in Heq. apply string_cons_inv in Heq as [_ Heq].
  apply pad2_inj in Heq as [Hmin Heq];
    [| mod_bound | mod_bound].
  cbn [String.append] in Heq. apply string_cons_inv in Heq as [_ Heq].
  apply pad2_inj in Heq as [Hs Heq];
    [| mod_bound | mod_bound].
  cbn [String.append] in Heq. apply string_cons_inv in Heq as [_ Heq].
  apply pad3_inj in Heq as [Hms _];
    [| mod_bound | mod_bound].
  assert (a = b) as Hab by (apply time_of_day_inj; assumption).
  assert (t1 / msPerDay = t2 / msPerDay) as Hdays.
  { apply civil_from_days_inj. rewrite E1, E2. congruence. }
  pose proof (Z.div_mod t1 msPerDay ltac:(discriminate)) as D1.
  pose proof (Z.div_mod t2 msPerDay ltac:(discriminate)) as D2.
  fold a in D1. fold b in D2. rewrite D1, D2, Hdays, Hab. reflexivity.
Qed.
End DateFacts.

(** ** The hashed string determines the revision fields *)

Module MetadataFacts.
Import JSON Representable SerializeFacts NormalFacts.

Lemma map_inj_on {A B} (f : A -> B) (p : A -> bool) :
  (forall a b, p a = true -> p b = true -> f a = f b -> a = b) ->
  forall l l',
    forallb p l = true -> forallb p l' = true ->
    List.map f l = List.map f l' -> l = l'.
Proof.
  intros Hf l. induction l as [| a l IH]; intros [| b l'] Hl Hl' Heq;
    simpl in Heq; try discriminate Heq; [reflexivity |].
  simpl in Hl, Hl'.
  apply andb_true_iff in Hl as [Ha Hl].
  apply andb_true_iff in Hl' as [Hb Hl'].
  injection Heq as Hab Heq.
  rewrite (Hf _ _ Ha Hb Hab), (IH _ Hl Hl' Heq). reflexivity.
Qed.

Lemma map_inj {A B} (f : A -> B) :
  (forall a b, f a = f b -> a = b) ->
  forall l l', List.map f l = List.map f l' -> l = l'.
Proof.
  intros Hf l l' Heq.
  apply (map_inj_on f (fun _ => true)); auto;
    apply forallb_forall; reflexivity.
Qed.

Lemma FieldType_code_inj k k' :
  FieldType_code k = FieldType_code k' -> k = k'.
Proof. destruct k, k'; simpl; intros Heq; try discriminate Heq; reflexivity. Qed.

Lemma FormFieldType_code_inj k k' :
  FormFieldType_code k = FormFieldType_code k' -> k = k'.
Proof. destruct k, k'; simpl; intros Heq; try discriminate Heq; reflexivity. Qed.

(** ** Objects and the order of their properties *)

(** Objects with the same members have the same properties, in the
    same order, with the same values. *)
Lemma object_inj {K} (name : K -> string) (value value' : K -> JSValue)
      (keys keys' : list K) :
  (forall k k', name k = name k' -> k = k') ->
  ToJS.object_ name value keys = ToJS.object_ name value' keys' ->
  keys = keys' /\ forall k, In k keys -> value k = value' k.
Proof.
  unfold ToJS.object_. intros Hn Heq. injection Heq as Heq.
  revert keys' Heq.
  induction keys as [| k keys IH]; intros [| k' keys'] Heq;
    simpl in Heq; try discriminate Heq.
  - split; [reflexivity | intros k []].
  - injection Heq as Hk Hv Heq. apply Hn in Hk as <-.
    destruct (IH _ Heq) as [<- Hvals]. split; [reflexivity |].
    intros k0 [<- | Hin]; [exact Hv | apply Hvals, Hin].
Qed.

Lemma own_keys_in {K} `{EqDecision K} (all keys : list K) k :
  own_keys all keys = true -> In k all -> In k keys.
Proof.
  unfold own_keys. intros H0 Hin. apply andb_true_iff in H0 as [_ H0].
  rewrite forallb_forall in H0. specialize (H0 k Hin).
  apply bool_decide_eq_true in H0. apply list_elem_of_In. exact H0.
Qed.

Lemma clean_object_ {K} (name : K -> string) (value : K -> JSValue)
      (keys : list K) :
  (forall k, In k keys -> clean (value k) = true) ->
  clean (ToJS.object_ name value keys) = true.
Proof.
  unfold ToJS.object_. induction keys as [| k keys IH]; intros Hv;
    [reflexivity |].
  change (clean (value k) &&
          clean (JObject (List.map (fun k => (name k, value k)) keys)) = true).
  rewrite (Hv k (or_introl eq_refl)), IH; [reflexivity |].
  intros k' Hk'. apply Hv. right. exact Hk'.
Qed.

Lemma clean_map {A} (f : A -> JSValue) (p : A -> bool) l :
  (forall a, p a = true -> clean (f a) = true) ->
  forallb p l = true ->
  clean (JArray (List.map f l)) = true.
Proof.
  intros Hf Hl. simpl. apply forallb_forall. intros y Hy.
  apply in_map_iff in Hy as (a & <- & Ha).
  rewrite forallb_forall in Hl. apply Hf, Hl, Ha.
Qed.

Lemma ItemFieldKey_name_inj k k' :
  ToJS.ItemFieldKey_name k = ToJS.ItemFieldKey_name k' -> k = k'.
Proof. destruct k, k'; intros Heq; try discriminate Heq; reflexivity. Qed.

Lemma ItemSectionKey_name_inj k k' :
  ToJS.ItemSectionKey_name k = ToJS.ItemSectionKey_name k' -> k = k'.
Proof. destruct k, k'; intros Heq; try discriminate Heq; reflexivity. Qed.

Lemma ItemUrlKey_name_inj k k' :
  ToJS.ItemUrlKey_name k = ToJS.ItemUrlKey_name k' -> k = k'.
Proof. destruct k, k'; intros Heq; try discriminate Heq; reflexivity. Qed.

Lemma WebFormFieldKey_name_inj k k' :
  ToJS.WebFormFieldKey_name k = ToJS.WebFormFieldKey_name k' -> k = k'.
Proof. destruct k, k'; intros Heq; try discriminate Heq; reflexivity. Qed.

Lemma ItemContentKey_name_inj k k' :
  ToJS.ItemContentKey_name k = ToJS.ItemContentKey_name k' -> k = k'.
Proof. destruct k, k'; intros Heq; try discriminate Heq; reflexivity. Qed.

Lemma ItemOpenContentsKey_name_inj k k' :
  ToJS.ItemOpenContentsKey_name k = ToJS.ItemOpenContentsKey_name k' ->
  k = k'.
Proof. destruct k, k'; intros Heq; try discriminate Heq; reflexivity. Qed.

(** The value that a complete object holds under the property [k]. *)
Ltac member Hkeys Hvals k H :=
  pose proof (Hvals k (own_keys_in _ _ k Hkeys ltac:(simpl; tauto))) as H;
  cbn in H.

Lemma field_inj f f' :
  field_ok f = true -> field_ok f' = true ->
  ToJS.field f = ToJS.field f' -> f = f'.
Proof.
  unfold field_ok, ToJS.field. intros Hf Hf' Heq.
  apply andb_true_iff in Hf as [Hk _].
  apply object_inj in Heq as [Hkeys Hvals]; [| exact ItemFieldKey_name_inj].
  member Hk Hvals IF_kind H1. member Hk Hvals IF_name H2.
  member Hk Hvals IF_title H3. member Hk Hvals IF_value H4.
  destruct f, f'. simpl in *. injection H1 as H1.
  apply FieldType_code_inj in H1. congruence.
Qed.

Lemma field_clean f : field_ok f = true -> clean (ToJS.field f) = true.
Proof.
  unfold field_ok. intros Hf. apply andb_true_iff in Hf as [_ Hv].
  apply clean_object_. intros [] _; try reflexivity; [| exact Hv].
  simpl. destruct (if_kind f); reflexivity.
Qed.

Lemma section_inj s s' :
  section_ok s = true -> section_ok s' = true ->
  ToJS.section_ s = ToJS.section_ s' -> s = s'.
Proof.
  unfold section_ok, ToJS.section_. intros Hs Hs' Heq.
  apply andb_true_iff in Hs as [Hk Hf].
  apply andb_true_iff in Hs' as [_ Hf'].
  apply object_inj in Heq as [Hkeys Hvals];
    [| exact ItemSectionKey_name_inj].
  member Hk Hvals IS_name H1. member Hk Hvals IS_title H2.
  member Hk Hvals IS_fields H3.
  injection H3 as H3.
  apply (map_inj_on _ _ field_inj _ _ Hf Hf') in H3.
  destruct s, s'. simpl in *. congruence.
Qed.

Lemma section_clean s : section_ok s = true -> clean (ToJS.section_ s) = true.
Proof.
  unfold section_ok. intros Hs. apply andb_true_iff in Hs as [_ Hf].
  apply clean_object_. intros [] _; try reflexivity.
  apply (clean_map _ field_ok); [exact field_clean | exact Hf].
Qed.

Lemma url_inj u u' :
  url_ok u = true -> url_ok u' = true ->
  ToJS.url u = ToJS.url u' -> u = u'.
Proof.
  unfold url_ok, ToJS.url. intros Hk _ Heq.
  apply object_inj in Heq as [Hkeys Hvals]; [| exact ItemUrlKey_name_inj].
  member Hk Hvals IU_label H1. member Hk Hvals IU_url H2.
  destruct u, u'. simpl in *. congruence.
Qed.

Lemma url_clean u : clean (ToJS.url u) = true.
Proof. apply clean_object_. intros [] _; reflexivity. Qed.

Lemma formField_inj f f' :
  formField_ok f = true -> formField_ok f' = true ->
  ToJS.formField f = ToJS.formField f' -> f = f'.
Proof.
  unfold formField_ok, ToJS.formField. intros Hk _ Heq.
  apply object_inj in Heq as [Hkeys Hvals];
    [| exact WebFormFieldKey_name_inj].
  member Hk Hvals WF_value H1. member Hk Hvals WF_id H2.
  member Hk Hvals WF_name H3. member Hk Hvals WF_type H4.
  member Hk Hvals WF_designation H5.
  destruct f, f'. simpl in *. injection H4 as H4.
  apply FormFieldType_code_inj in H4. congruence.
Qed.

Lemma formField_clean f : clean (ToJS.formField f) = true.
Proof.
  apply clean_object_. intros [] _; try reflexivity.
  simpl. destruct (wf_type f); reflexivity.
Qed.

Lemma content_inj c c' :
  content_ok c = true -> content_ok c' = true ->
  ToJS.content_ c = ToJS.content_ c' -> c = c'.
Proof.
  unfold content_ok, ToJS.content_. intros Hc Hc' Heq.
  apply andb_true_iff in Hc as [Hc Hff].
  apply andb_true_iff in Hc as [Hc Hu].
  apply andb_true_iff in Hc as [Hk Hs].
  apply andb_true_iff in Hc' as [Hc' Hff'].
  apply andb_true_iff in Hc' as [Hc' Hu'].
  apply andb_true_iff in Hc' as [_ Hs'].
  apply object_inj in Heq as [Hkeys Hvals];
    [| exact ItemContentKey_name_inj].
  member Hk Hvals IC_sections H1. member Hk Hvals IC_urls H2.
  member Hk Hvals IC_notes H3. member Hk Hvals IC_formFields H4.
  member Hk Hvals IC_htmlMethod H5. member Hk Hvals IC_htmlAction H6.
  member Hk Hvals IC_htmlId H7.
  injection H1 as H1. injection H2 as H2. injection H4 as H4.
  apply (map_inj_on _ _ section_inj _ _ Hs Hs') in H1.
  apply (map_inj_on _ _ url_inj _ _ Hu Hu') in H2.
  apply (map_inj_on _ _ formField_inj _ _ Hff Hff') in H4.
  destruct c, c'. simpl in *. congruence.
Qed.

Lemma content_clean c : content_ok c = true -> clean (ToJS.content_ c) = true.
Proof.
  unfold content_ok. intros Hc.
  apply andb_true_iff in Hc as [Hc Hff].
  apply andb_true_iff in Hc as [Hc Hu].
  apply andb_true_iff in Hc as [_ Hs].
  apply clean_object_. intros [] _; try reflexivity.
  - apply (clean_map _ section_ok); [exact section_clean | exact Hs].
  - apply (clean_map _ (fun _ => true)); [intros; apply url_clean |].
    apply forallb_forall. reflexivity.
  - apply (clean_map _ (fun _ => true)); [intros; apply formField_clean |].
    apply forallb_forall. reflexivity.
Qed.

Lemma tags_inj (x y : nullable (list string)) :
  ToJS.nullable_ (fun l => JArray (List.map JString l)) x =
  ToJS.nullable_ (fun l => JArray (List.map JString l)) y -> x = y.
Proof.
  destruct x as [| | l], y as [| | l']; simpl; intros Heq;
    try discriminate Heq; try reflexivity.
  injection Heq as Heq. apply (map_inj JString) in Heq; [congruence |].
  intros s s' Hs. injection Hs as ->. reflexivity.
Qed.

Lemma tags_clean (x : nullable (list string)) :
  x <> undefined ->
  clean (ToJS.nullable_ (fun l => JArray (List.map JString l)) x) = true.
Proof.
  destruct x as [| | l]; intros Hx; [congruence | reflexivity |].
  apply (clean_map _ (fun _ => true)); [reflexivity |].
  apply forallb_forall. reflexivity.
Qed.

Lemma openContents_ok_tags o :
  openContents_ok o = true ->
  (In OC_scope (oc_keys o)) /\
  (In OC_tags (oc_keys o) <-> tags o <> undefined).
Proof.
  unfold openContents_ok. intros Ho.
  apply andb_true_iff in Ho as [Ho Ht].
  apply andb_true_iff in Ho as [_ Hs].
  apply bool_decide_eq_true in Hs. apply list_elem_of_In in Hs.
  split; [exact Hs |]. apply Bool.eqb_prop in Ht.
  rewrite <- list_elem_of_In. split.
  - intros Hin Hu. rewrite Hu in Ht.
    apply bool_decide_eq_false in Ht. exact (Ht Hin).
  - intros Hu. destruct (tags o); [congruence | |];
      apply bool_decide_eq_true in Ht; exact Ht.
Qed.

Lemma openContents_inj o o' :
  openContents_ok o = true -> openContents_ok o' = true ->
  ToJS.openContents_ o = ToJS.openContents_ o' -> o = o'.
Proof.
  unfold ToJS.openContents_. intros Ho Ho' Heq.
  apply openContents_ok_tags in Ho as [Hs Ht].
  apply openContents_ok_tags in Ho' as [_ Ht'].
  apply object_inj in Heq as [Hkeys Hvals];
    [| exact ItemOpenContentsKey_name_inj].
  pose proof (Hvals OC_scope Hs) as H1. cbn in H1.
  assert (tags o = tags o') as H2.
  { destruct (in_dec (fun a b => decide (a = b)) OC_tags (oc_keys o))
      as [Hin | Hout].
    - apply tags_inj. exact (Hvals OC_tags Hin).
    - assert (tags o = undefined) as ->.
      { destruct (tags o) eqn:E; [reflexivity | |];
          exfalso; apply Hout, Ht; discriminate. }
      rewrite Hkeys in Hout.
      destruct (tags o') eqn:E; [reflexivity | |];
        exfalso; apply Hout, Ht'; discriminate. }
  destruct o, o'. simpl in *. congruence.
Qed.

Lemma openContents_clean o :
  openContents_ok o = true -> clean (ToJS.openContents_ o) = true.
Proof.
  intros Ho. apply openContents_ok_tags in Ho as [_ Ht].
  apply clean_object_. intros [] Hin; [| reflexivity].
  apply tags_clean, Ht, Hin.
Qed.

Lemma JObject_inj ps ps' : JObject ps = JObject ps' -> ps = ps'.
Proof. intros Heq. injection Heq as ->. reflexivity. Qed.

Lemma normal_opt_some v : v <> JUndefined -> normal_opt v = Some (normal v).
Proof. destruct v; congruence || reflexivity. Qed.

(** A property that is [undefined], [null] or a value is recovered
    from what JSON writes for it. *)
Lemma nullable_inj {A} (f : A -> JSValue) (p : A -> bool) x y :
  (forall a, p a = true -> f a <> JUndefined /\ normal (f a) <> JNull) ->
  (forall a b, p a = true -> p b = true ->
               normal (f a) = normal (f b) -> a = b) ->
  nullable_all p x = true ->
  nullable_all p y = true ->
  normal_opt (ToJS.nullable_ f x) = normal_opt (ToJS.nullable_ f y) ->
  x = y.
Proof.
  intros Hdef Hinj Hx Hy Heq.
  destruct x as [| | a]; destruct y as [| | b]; simpl in *;
    try reflexivity; try discriminate Heq;
    try (rewrite normal_opt_some in Heq by (apply Hdef; assumption);
         try discriminate Heq; injection Heq as Heq;
         try (symmetry in Heq); destruct (Hdef _ ltac:(eassumption));
         congruence).
  rewrite !normal_opt_some in Heq by (apply Hdef; assumption).
  injection Heq as Heq. rewrite (Hinj _ _ Hx Hy Heq). reflexivity.
Qed.

Lemma string_field s s' :
  normal_opt (JString s) = normal_opt (JString s') -> s = s'.
Proof. intros Heq. injection Heq as ->. reflexivity. Qed.

Lemma nullable_string x y :
  normal_opt (ToJS.nullable_ JString x) =
  normal_opt (ToJS.nullable_ JString y) -> x = y.
Proof.
  apply (nullable_inj JString (fun _ => true)).
  - intros a _. split; discriminate.
  - intros a b _ _ Heq. injection Heq as ->. reflexivity.
  - destruct x; reflexivity.
  - destruct y; reflexivity.
Qed.

Lemma date_ok_range t :
  date_ok (DateAt t) = true ->
  -8640000000000000 <= t <= 8640000000000000.
Proof.
  unfold date_ok, JSDate.valid, JSDate.MAX_TIME. intros H.
  apply andb_true_iff in H. lia.
Qed.

Lemma nullable_date x y :
  nullable_all date_ok x = true ->
  nullable_all date_ok y = true ->
  normal_opt (ToJS.nullable_ ToJS.date x) =
  normal_opt (ToJS.nullable_ ToJS.date y) -> x = y.
Proof.
  assert (forall t, date_ok (DateAt t) = true ->
                    ToJS.date (DateAt t) = JString (DateISO.toISOString t))
    as Hdate.
  { intros t Ht. apply date_ok_range in Ht. unfold ToJS.date.
    rewrite NumberArith.getTime_valid; [reflexivity |].
    unfold JSDate.MAX_TIME. lia. }
  apply (nullable_inj ToJS.date date_ok).
  - intros [t |] Ha; [| discriminate Ha]. rewrite (Hdate t Ha).
    split; discriminate.
  - intros [a |] [b |] Ha Hb Heq; try discriminate Ha; try discriminate Hb.
    rewrite (Hdate a Ha), (Hdate b Hb) in Heq.
    injection Heq as Heq. f_equal.
    apply DateFacts.toISOString_inj; auto using date_ok_range.
Qed.

Lemma nullable_number x y :
  nullable_all finite x = true ->
  nullable_all finite y = true ->
  normal_opt (ToJS.nullable_ JNumber x) =
  normal_opt (ToJS.nullable_ JNumber y) -> x = y.
Proof.
  apply (nullable_inj JNumber finite).
  - intros [z | | |] Ha; try discriminate Ha. split; discriminate.
  - intros [z | | |] [z' | | |] Ha Hb Heq;
      try discriminate Ha; try discriminate Hb.
    injection Heq as ->. reflexivity.
Qed.

Lemma nullable_openContents x y :
  nullable_all openContents_ok x = true ->
  nullable_all openContents_ok y = true ->
  normal_opt (ToJS.nullable_ ToJS.openContents_ x) =
  normal_opt (ToJS.nullable_ ToJS.openContents_ y) -> x = y.
Proof.
  apply (nullable_inj ToJS.openContents_ openContents_ok).
  - intros a _. split; discriminate.
  - intros a b Ha Hb Heq.
    rewrite !normal_id in Heq by (apply openContents_clean; assumption).
    apply openContents_inj; assumption.
Qed.

Ltac not_a_key :=
  simpl; intros Hin;
  repeat (destruct Hin as [Hin | Hin]; [discriminate Hin |]);
  exact Hin.

Ltac peel H Hf :=
  apply normal_members_peel in H as [Hf H]; [| not_a_key | not_a_key].

Lemma stringify_object ps :
  serialize (JObject ps) = Some (stringify (JObject ps)).
Proof. reflexivity. Qed.

Lemma exact_nullable {A} (f : A -> JSValue) (p : A -> bool) x :
  (forall a, p a = true -> exact (f a) = true) ->
  nullable_all p x = true ->
  exact (ToJS.nullable_ f x) = true.
Proof. intros Hf. destruct x; simpl; auto. Qed.

(** The numbers of the hashed object are safe integers. *)
Lemma contentMetadata_exact {Store} (a : ItemAndContent Store) :
  item_ok a = true -> exact (contentMetadata a) = true.
Proof.
  unfold item_ok. intros Ha.
  apply andb_true_iff in Ha as [Ha Hca].
  apply andb_true_iff in Ha as [Ha Hoa].
  apply andb_true_iff in Ha as [Ha Hfa].
  apply andb_true_iff in Ha as [Hua Hcra].
  unfold contentMetadata.
  change (true &&
          (exact (ToJS.nullable_ JString (parentRevision (iac_item a))) &&
           (true &&
            (exact (ToJS.nullable_ ToJS.date (updatedAt (iac_item a))) &&
             (exact (ToJS.nullable_ ToJS.date (createdAt (iac_item a))) &&
              (true &&
               (exact (ToJS.nullable_ ToJS.openContents_
                                      (openContents (iac_item a))) &&
                (true &&
                 (exact (ToJS.nullable_ JNumber (faveIndex (iac_item a))) &&
                  (true &&
                   (exact (ToJS.content_ (iac_content a)) && true))))))))))
          = true).
  assert (forall {A} (x : nullable A),
             nullable_all (fun _ => true) x = true) as Hall
      by (intros A []; reflexivity).
  assert (forall d, exact (ToJS.date d) = true) as Hdate.
  { intros d. unfold ToJS.date. destruct (JSDate.getTime d); reflexivity. }
  rewrite (exact_nullable JString (fun _ => true) _ (fun _ _ => eq_refl)
                          (Hall _ _)).
  rewrite !(exact_nullable ToJS.date (fun _ => true) _ (fun d _ => Hdate d)
                           (Hall _ _)).
  rewrite (exact_nullable ToJS.openContents_ openContents_ok _
             (fun o Ho => clean_exact _ (openContents_clean o Ho)) Hoa).
  rewrite (exact_nullable JNumber finite)
    by (try exact Hfa; intros [] Hn; try discriminate Hn; exact Hn).
  rewrite (clean_exact _ (content_clean _ Hca)). reflexivity.
Qed.

(** Item-and-content values that JSON writes without loss and that
    give the same hashed string agree on every revision field. *)
Theorem contentString_inj {Store} (a b : ItemAndContent Store) :
  item_ok a = true ->
  item_ok b = true ->
  contentString a = contentString b ->
  same_revision_fields a b.
Proof.
  intros Ha Hb Heq.
  pose proof (contentMetadata_exact a Ha) as Hea.
  pose proof (contentMetadata_exact b Hb) as Heb.
  unfold item_ok in Ha, Hb.
  apply andb_true_iff in Ha as [Ha Hca].
  apply andb_true_iff in Ha as [Ha Hoa].
  apply andb_true_iff in Ha as [Ha Hfa].
  apply andb_true_iff in Ha as [Hua Hcra].
  apply andb_true_iff in Hb as [Hb Hcb].
  apply andb_true_iff in Hb as [Hb Hob].
  apply andb_true_iff in Hb as [Hb Hfb].
  apply andb_true_iff in Hb as [Hub Hcrb].
  assert (serialize (contentMetadata a) = serialize (contentMetadata b))
    as Hs.
  { unfold contentMetadata. rewrite !stringify_object.
    f_equal. exact Heq. }
  apply serialize_eq_iff in Hs; try discriminate; try assumption.
  unfold contentMetadata in Hs. rewrite !normal_object in Hs.
  apply JObject_inj in Hs.
  peel Hs Huuid. peel Hs Hparent. peel Hs Htitle. peel Hs Hupd.
  peel Hs Hcre. peel Hs Htype. peel Hs Hopen. peel Hs Hfolder.
  peel Hs Hfave. peel Hs Htrash. peel Hs Hcontent.
  unfold same_revision_fields.
  apply string_field in Huuid, Htitle, Htype, Hfolder.
  apply nullable_string in Hparent.
  apply nullable_date in Hupd; [| assumption | assumption].
  apply nullable_date in Hcre; [| assumption | assumption].
  apply nullable_openContents in Hopen; [| assumption | assumption].
  apply nullable_number in Hfave; [| assumption | assumption].
  injection Htrash as Htrash.
  rewrite !normal_opt_some in Hcontent by discriminate.
  assert (normal (ToJS.content_ (iac_content a)) =
          normal (ToJS.content_ (iac_content b))) as Hc by congruence.
  rewrite !normal_id in Hc by (apply content_clean; assumption).
  apply content_inj in Hc; [| assumption | assumption].
  repeat split; assumption.
Qed.
End MetadataFacts.

(** ** Item blobs *)

Module BlobFacts.
Import agile_keychain_crypto.

Lemma strip_prefix_app p s : strip_prefix p (p ++ s)%string = Some s.
Proof.
  induction p as [| c p IH]; simpl; [reflexivity |].
  rewrite Ascii.eqb_refl. exact IH.
Qed.

Lemma length_app (a b : string) :
  String.length (a ++ b)%string = (String.length a + String.length b)%nat.
Proof. induction a as [| c a IH]; simpl; [| rewrite IH]; reflexivity. Qed.

Lemma string_take_app (a b : string) :
  string_take (String.length a) (a ++ b)%string = a.
Proof. induction a as [| c a IH]; simpl; [destruct b | rewrite IH]; reflexivity. Qed.

Lemma string_drop_app (a b : string) :
  string_drop (String.length a) (a ++ b)%string = b.
Proof. induction a as [| c a IH]; simpl; [destruct b; reflexivity | exact IH]. Qed.

Section Blob.
Context `{Crypto}.

(** The blob made by [encryptItemBlob] is the magic header, the salt
    and the ciphertext under the derived key. *)
Lemma encryptItemBlob_shape salt password plaintext blob :
  encryptItemBlob salt password plaintext = Resolved blob ->
  exists c,
    blob = (magic ++ salt ++ c)%string /\
    aesCbcEncrypt (fst (deriveLocalKey password salt)) plaintext
                  (snd (deriveLocalKey password salt)) = Resolved c.
Proof.
  unfold encryptItemBlob.
  destruct (deriveLocalKey password salt) as [key iv]. simpl.
  destruct (aesCbcEncrypt key plaintext iv) as [c | e]; [| discriminate].
  intros Heq. injection Heq as <-. exists c. auto.
Qed.

Lemma decryptItemBlob_shape salt c password :
  String.length salt = saltLength ->
  decryptItemBlob password (magic ++ salt ++ c)%string =
  match aesCbcDecrypt (fst (deriveLocalKey password salt)) c
                      (snd (deriveLocalKey password salt)) with
  | Resolved p => Resolved p
  | Rejected _ => Rejected DecryptionError
  end.
Proof.
  intros Hlen. unfold decryptItemBlob. rewrite strip_prefix_app.
  rewrite length_app, <- Hlen.
  destruct (Nat.ltb_spec (String.length salt + String.length c)
                         (String.length salt)); [lia |].
  rewrite string_take_app, string_drop_app.
  destruct (deriveLocalKey password salt) as [key iv]. reflexivity.
Qed.

(** Every failure of [decryptItemBlob] is a [DecryptionError]. *)
Lemma decryptItemBlob_error password blob e :
  decryptItemBlob password blob = Rejected e -> e = DecryptionError.
Proof.
  unfold decryptItemBlob.
  destruct (strip_prefix magic blob) as [rest |]; [| congruence].
  destruct (String.length rest <? saltLength)%nat; [congruence |].
  destruct (deriveLocalKey _ _) as [key iv].
  destruct (aesCbcDecrypt _ _ _); congruence.
Qed.

End Blob.
End BlobFacts.

Module ToyCryptoFacts.
Import ToyCrypto.

Lemma xor_ascii_involutive k c : xor_ascii k (xor_ascii k c) = c.
Proof.
  destruct k as [k0 k1 k2 k3 k4 k5 k6 k7], c as [c0 c1 c2 c3 c4 c5 c6 c7].
  simpl. rewrite <- !xorb_assoc, !xorb_nilpotent, !xorb_false_l.
  reflexivity.
Qed.

Lemma xor_ascii_cancel c v : xor_ascii (xor_ascii c v) v = c.
Proof.
  destruct v as [v0 v1 v2 v3 v4 v5 v6 v7], c as [c0 c1 c2 c3 c4 c5 c6 c7].
  simpl. rewrite !xorb_assoc, !xorb_nilpotent, !xorb_false_r.
  reflexivity.
Qed.

Lemma chain_round_trip k l :
  forall previous, chain_decrypt k previous (chain_encrypt k previous l) = l.
Proof.
  induction l as [| x l IH]; intros previous; simpl; [reflexivity |].
  rewrite xor_ascii_involutive, xor_ascii_cancel, IH. reflexivity.
Qed.

Lemma unpad_pad p : unpad (pad p) = Some p.
Proof.
  unfold pad, unpad.
  set (n := (16 - length p mod 16)%nat).
  assert (1 <= n <= 16)%nat as Hn.
  { subst n. pose proof (Nat.mod_upper_bound (length p) 16). lia. }
  destruct n as [| m] eqn:En; [lia |].
  rewrite replicate_S_end, app_assoc, last_snoc.
  rewrite nat_ascii_embedding by lia.
  rewrite <- app_assoc, <- replicate_S_end.
  rewrite length_app, length_replicate.
  replace (length p + S m - S m)%nat with (length p) by lia.
  rewrite drop_app_length, take_app_length.
  destruct (Nat.leb_spec 1 (S m)); [| lia].
  destruct (Nat.leb_spec (S m) 16); [| lia].
  destruct (Nat.leb_spec (S m) (length p + S m)); [| lia].
  assert (forallb (Ascii.eqb (ascii_of_nat (S m)))
                  (replicate (S m) (ascii_of_nat (S m))) = true) as ->.
  { apply forallb_forall. intros x Hx.
    apply list_elem_of_In, elem_of_replicate in Hx as [-> _].
    apply Ascii.eqb_refl. }
  reflexivity.
Qed.

(** The toy cipher decrypts what it encrypted. *)
Lemma toy_cipher_round_trip key iv p c :
  encrypt key p iv = Resolved c -> decrypt key c iv = Resolved p.
Proof.
  unfold encrypt, decrypt. intros Heq. injection Heq as <-.
  rewrite list_ascii_of_string_of_list_ascii, chain_round_trip, unpad_pad.
  rewrite string_of_list_ascii_of_string. reflexivity.
Qed.
End ToyCryptoFacts.

Module CountingFacts.
Import Counting.

Lemma strings_of_length_complete s :
  In s (strings_of_length (String.length s)).
Proof.
  induction s as [| c s IH]; [left; reflexivity |].
  cbn [String.length strings_of_length].
  apply in_flat_map. exists c. split; [apply StringFacts.all_ascii_complete |].
  apply in_map, IH.
Qed.

Lemma keys_and_ivs_complete key iv :
  In (key, iv) (keys_and_ivs (String.length key) (String.length iv)).
Proof. apply in_prod; apply strings_of_length_complete. Qed.

Lemma password_of_length n : String.length (password_of n) = n.
Proof. induction n as [| n IH]; simpl; [| rewrite IH]; reflexivity. Qed.

Lemma passwords_NoDup keyLength ivLength :
  NoDup (passwords keyLength ivLength).
Proof.
  unfold passwords. apply (NoDup_fmap_2_strong password_of).
  - intros i j _ _ Heq. rewrite <- (password_of_length i), Heq.
    apply password_of_length.
  - apply NoDup_seq.
Qed.

(** A function that is not one-to-one on a list takes the same value
    on two of its elements. *)
Lemma collision {A B} `{EqDecision B} (f : A -> B) (l : list A) :
  NoDup l ->
  ~ NoDup (List.map f l) ->
  exists a a', a ∈ l /\ a' ∈ l /\ a <> a' /\ f a = f a'.
Proof.
  induction l as [| a l IH]; intros Hl Hfl.
  - destruct Hfl. constructor.
  - apply NoDup_cons in Hl as [Ha Hl].
    destruct (decide (f a ∈ List.map f l)) as [Hin | Hout].
    + change (List.map f l) with (f <$> l) in Hin.
      apply list_elem_of_fmap in Hin as (a' & Heq & Ha').
      exists a, a'. split; [left |]. split; [right; exact Ha' |].
      split; [| exact Heq]. intros ->. exact (Ha Ha').
    + destruct IH as (x & y & Hx & Hy & Hne & Heq); [exact Hl | |].
      { intros Hnd. apply Hfl. simpl. apply NoDup_cons. auto. }
      exists x, y. split; [right; exact Hx |]. split; [right; exact Hy |].
      auto.
Qed.

(** More elements than values: two elements share a value. *)
Lemma pigeonhole {A B} `{EqDecision B} (f : A -> B) (l : list A)
      (values : list B) :
  NoDup l ->
  (forall a, a ∈ l -> f a ∈ values) ->
  (length values < length l)%nat ->
  exists a a', a ∈ l /\ a' ∈ l /\ a <> a' /\ f a = f a'.
Proof.
  intros Hl Hval Hlen. apply collision; [exact Hl |]. intros Hnd.
  assert (List.map f l ⊆+ values) as Hsub.
  { apply NoDup_submseteq; [exact Hnd |]. intros b Hb.
    change (List.map f l) with (f <$> l) in Hb.
    apply list_elem_of_fmap in Hb as (a & -> & Ha). apply Hval, Ha. }
  apply submseteq_length in Hsub. rewrite length_map in Hsub. lia.
Qed.
End CountingFacts.


(** ** Revision identifiers *)

Section RevisionProperties.
Context {Store : Type} `{Digest}.
Implicit Types a b : ItemAndContent Store.

Lemma contentMetadata_agree a b :
  same_revision_fields a b -> contentMetadata a = contentMetadata b.
Proof.
  unfold same_revision_fields, contentMetadata.
  intros (Hu & Hp & Ht & Hup & Hcr & Hty & Ho & Hf & Hfa & Htr & Hc).
  rewrite Hu, Hp, Ht, Hup, Hcr, Hty, Ho, Hf, Hfa, Htr, Hc. reflexivity.
Qed.

End RevisionProperties.

(** * Instances of the properties on concrete inputs *)

Lemma remove_saves_tombstone_witness :
  exists it,
    ItemM.remove MemStore.saved_item MemStore.vault =
    saveItem tt it MemStore.vault /\
    ItemM.remove MemStore.saved_item MemStore.vault =
    ItemM.save it MemStore.vault /\
    typeName it = ItemTypes.TOMBSTONE /\
    trashed it = true /\
    content it = val ContentUtil.empty /\
    locations it = [] /\
    folderUuid it = "" /\
    uuid it = uuid MemStore.saved_item.
Proof.
  apply (remove_saves_tombstone MemStore.saved_item tt MemStore.vault).
  reflexivity.
Defined.

Lemma updateTimestamps_advances_witness :
  exists t,
    updatedAt (ItemM.updateTimestamps 1398413120300 1398413120300
                                      MemStore.saved_item) = val (DateAt t) /\
    (t - 1398413120000 >= 1000)%Z.
Proof.
  destruct (updateTimestamps_advances MemStore.saved_item 1398413120000
              1398413120300 (DateAt 1398413120300)) as (t & Ht & Hd & _).
  - reflexivity.
  - unfold JSDate.MAX_TIME. lia.
  - unfold JSDate.MAX_TIME. lia.
  - exists t. split; [exact Ht | exact Hd].
Defined.

Lemma unsaved_item_rejections_witness :
  ItemM.save MemStore.unsaved_item MemStore.vault =
  (Rejected UnsavedItemError, MemStore.unsaved_item, MemStore.vault) /\
  ItemM.remove MemStore.unsaved_item MemStore.vault =
  (Rejected UnsavedItemError, MemStore.unsaved_item, MemStore.vault) /\
  ItemM.getRawDecryptedData_ MemStore.unsaved_item MemStore.vault =
  (Rejected UnsavedItemError, MemStore.unsaved_item, MemStore.vault) /\
  ItemM.saveTo MemStore.unsaved_item tt MemStore.vault =
  (Rejected (PlainError "Unable to save new item, no content set"),
   MemStore.unsaved_item, MemStore.vault).
Proof.
  destruct (unsaved_item_rejections MemStore.unsaved_item MemStore.vault
              eq_refl) as (Hs & Hr & Hd & Ht).
  split; [exact Hs |]. split; [exact Hr |]. split; [exact Hd |].
  apply Ht. reflexivity.
Defined.

Lemma getContent_unsaved_empty_witness :
  exists this',
    ItemM.getContent_ MemStore.unsaved_item MemStore.vault =
    (Resolved ContentUtil.empty, this', MemStore.vault) /\
    content this' = val ContentUtil.empty.
Proof.
  destruct (getContent_unsaved_empty MemStore.unsaved_item MemStore.vault
              eq_refl eq_refl) as (this' & Hg & Hc & _).
  exists this'. split; assumption.
Defined.

Lemma getContent_cached_or_delegated_witness :
  ItemM.getContent_ MemStore.saved_item MemStore.vault =
  (Resolved MemStore.site_content, MemStore.saved_item, MemStore.vault) /\
  ItemM.getContent_ MemStore.listed_item MemStore.vault =
  getContent tt MemStore.listed_item MemStore.vault.
Proof.
  destruct (getContent_cached_or_delegated MemStore.saved_item MemStore.vault)
    as (Hc & _ & _).
  destruct (getContent_cached_or_delegated MemStore.listed_item MemStore.vault)
    as (_ & _ & Hd).
  split.
  - apply Hc. reflexivity.
  - apply Hd; reflexivity.
Defined.

Lemma itemStates_projection_witness :
  exists states,
    itemStates tt MemStore.vault = (Resolved states, MemStore.vault) /\
    length states = 1%nat.
Proof.
  destruct (itemStates_projection tt MemStore.vault [MemStore.saved_item]
              MemStore.vault) as (states & Hs & _ & Hl & _); [reflexivity |].
  exists states. split; assumption.
Defined.

Lemma unlockStore_no_keys_witness :
  unlockStore tt (∅ : KeyAgent) "logMEin" MemStore.vault =
  (Rejected
     (PlainError "Unable to unlock store: No encryption keys have been saved"),
   ∅, MemStore.vault).
Proof.
  apply (unlockStore_no_keys tt MemStore.vault MemStore.vault ∅ "logMEin").
  reflexivity.
Defined.

Lemma unlockStore_any_generation_witness :
  (exists agent',
      unlockStore tt (∅ : KeyAgent) "old-pass" ToyKeys.vault =
      (Resolved tt, agent', ToyKeys.vault) /\
      agent' !! "K2" = Some "master-2" /\
      agent' !! "K1" = None) /\
  unlockStore tt (∅ : KeyAgent) "wrong-password" ToyKeys.vault =
  (Rejected DecryptionError, ∅, ToyKeys.vault).
Proof.
  split.
  - destruct (unlockStore_any_generation tt ToyKeys.vault ToyKeys.vault ∅
                "old-pass" [ToyKeys.gen1; ToyKeys.gen2])
      as [Hsome _]; [reflexivity | discriminate |].
    destruct Hsome as (agent' & Hu & _ & Hk & Ho).
    { exists ToyKeys.gen2. split; [right; left | reflexivity]. }
    exists agent'. split; [exact Hu |]. split.
    + apply (Hk ToyKeys.gen2 {| dk_id := "K2"; dk_key := "master-2" |}).
      * right; left.
      * reflexivity.
      * apply NoDup_cons. split; [| apply NoDup_singleton].
        intros Hin. apply list_elem_of_singleton in Hin. discriminate Hin.
    + rewrite (Ho "K1"); [reflexivity |].
      intros k Hk1 Hv.
      apply elem_of_cons in Hk1 as [-> | Hk1]; [discriminate |].
      apply list_elem_of_singleton in Hk1 as ->. discriminate.
  - destruct (unlockStore_any_generation tt ToyKeys.vault ToyKeys.vault ∅
                "wrong-password" [ToyKeys.gen1; ToyKeys.gen2])
      as [_ Hnone]; [reflexivity | discriminate |].
    apply Hnone. intros k Hk.
    apply elem_of_cons in Hk as [-> | Hk]; [reflexivity |].
    apply list_elem_of_singleton in Hk as ->. reflexivity.
Defined.



(** * Further properties of the item store *)

Section ItemOpsProperties.
Context {Store World : Type} `{StoreInterface Store World}.
Implicit Types (this : Item Store) (w : World) (st : Store).

Lemma updateTimestamps_updatedAt this (now1 : Date) (now prev : Z) :
  updatedAt this = val (DateAt prev) ->
  - JSDate.MAX_TIME <= prev <= JSDate.MAX_TIME - 1000 ->
  - JSDate.MAX_TIME <= now <= JSDate.MAX_TIME ->
  updatedAt (ItemM.updateTimestamps now1 (DateAt now) this) =
  val (DateAt (Z.max now (prev + 1000))).
Proof.
  intros Hprev Hp Hnow. unfold ItemM.updateTimestamps.
  cbn [ItemM.set_timestamps updatedAt]. rewrite Hprev.
  assert (0 < JSDate.MAX_TIME) as H0 by reflexivity.
  rewrite !NumberArith.getTime_valid by lia.
  rewrite NumberArith.sub_ltb_1000.
  destruct (Z.ltb_spec (now - prev) 1000).
  - rewrite NumberArith.new_add_1000 by exact Hp. do 2 f_equal. lia.
  - do 2 f_equal. lia.
Qed.

Lemma updateTimestamps_updatedAt_unset this (now1 now2 : Date) :
  truthy (updatedAt this) = false ->
  updatedAt (ItemM.updateTimestamps now1 now2 this) = val now2.
Proof.
  unfold ItemM.updateTimestamps. cbn [ItemM.set_timestamps updatedAt].
  destruct (updatedAt this); [reflexivity | reflexivity | discriminate].
Qed.

Lemma updateTimestamps_createdAt this (now1 now2 : Date) :
  createdAt (ItemM.updateTimestamps now1 now2 this) =
  match createdAt this with
  | val c => val c
  | _ => val now1
  end.
Proof.
  unfold ItemM.updateTimestamps. simpl. destruct (createdAt this); reflexivity.
Qed.

(** X1.  When the previous last-modified time, if there is one, is a
    valid date at least one second before the last time value that a
    date can hold, and the clock gives a valid date,
    [updateTimestamps()] sets the last-modified time to the later of
    the clock reading and one second after the previous time (to the
    clock reading when there was none), so it is never earlier than
    the clock; it sets the creation time only when there was none, and
    it changes no other field. *)
Theorem updateTimestamps_exact this (now1 : Date) (now : Z) :
  - JSDate.MAX_TIME <= now <= JSDate.MAX_TIME ->
  (forall prev, updatedAt this = val prev ->
     exists p, prev = DateAt p /\
               - JSDate.MAX_TIME <= p <= JSDate.MAX_TIME - 1000) ->
  updatedAt (ItemM.updateTimestamps now1 (DateAt now) this) =
  val (DateAt (match updatedAt this with
               | val (DateAt prev) => Z.max now (prev + 1000)
               | _ => now
               end)) /\
  (exists t,
      updatedAt (ItemM.updateTimestamps now1 (DateAt now) this) =
      val (DateAt t) /\
      now <= t <= JSDate.MAX_TIME) /\
  createdAt (ItemM.updateTimestamps now1 (DateAt now) this) =
  match createdAt this with
  | val c => val c
  | _ => val now1
  end /\
  ItemM.set_timestamps
    (ItemM.updateTimestamps now1 (DateAt now) this)
    (createdAt this) (updatedAt this)
  = this.
Proof.
  intros Hnow Hvalid.
  assert (updatedAt (ItemM.updateTimestamps now1 (DateAt now) this) =
          val (DateAt (match updatedAt this with
                       | val (DateAt prev) => Z.max now (prev + 1000)
                       | _ => now
                       end)) /\
          now <= match updatedAt this with
                 | val (DateAt prev) => Z.max now (prev + 1000)
                 | _ => now
                 end <= JSDate.MAX_TIME) as [Hup Hle].
  { destruct (updatedAt this) as [| | prev] eqn:Hprev.
    - split; [| lia]. apply updateTimestamps_updatedAt_unset.
      rewrite Hprev. reflexivity.
    - split; [| lia]. apply updateTimestamps_updatedAt_unset.
      rewrite Hprev. reflexivity.
    - destruct (Hvalid prev eq_refl) as (p & -> & Hp).
      split; [| lia]. apply updateTimestamps_updatedAt; assumption. }
  split; [exact Hup |]. split; [| split].
  - eexists. split; [exact Hup | exact Hle].
  - apply updateTimestamps_createdAt.
  - destruct this. reflexivity.
Qed.

Lemma updateTimestamps_each_snoc clocks c this :
  ItemOps.updateTimestamps_each (clocks ++ [c])%list this =
  ItemM.updateTimestamps (fst c) (snd c)
                         (ItemOps.updateTimestamps_each clocks this).
Proof. unfold ItemOps.updateTimestamps_each. apply fold_left_app. Qed.

(** Successive calls, with room for [room] seconds in all. *)
Lemma updateTimestamps_each_room (room : Z) clocks this (prev : Z) :
  updatedAt this = val (DateAt prev) ->
  Z.of_nat (length clocks) <= room ->
  - JSDate.MAX_TIME <= prev <= JSDate.MAX_TIME - 1000 * room ->
  (forall c, c ∈ clocks ->
     exists now, snd c = DateAt now /\
                 - JSDate.MAX_TIME <= now <= JSDate.MAX_TIME - 1000 * room) ->
  exists t,
    updatedAt (ItemOps.updateTimestamps_each clocks this) = val (DateAt t) /\
    prev + 1000 * Z.of_nat (length clocks) <= t /\
    - JSDate.MAX_TIME <= t /\
    t + 1000 * (room - Z.of_nat (length clocks)) <= JSDate.MAX_TIME /\
    (forall c, createdAt this = val c ->
               createdAt (ItemOps.updateTimestamps_each clocks this) = val c) /\
    uuid (ItemOps.updateTimestamps_each clocks this) = uuid this.
Proof.
  intros Hprev. induction clocks as [| c clocks IH] using rev_ind;
    intros Hlen Hp Hclocks.
  - exists prev. simpl. repeat split; [exact Hprev | lia | lia | lia | auto].
  - rewrite length_app in Hlen. simpl length in Hlen.
    destruct IH as (t & Ht & Hle & Hlo & Hhi & Hc & Hu); [lia | exact Hp | |].
    { intros c' Hc'. apply Hclocks. apply elem_of_app. left. exact Hc'. }
    destruct (Hclocks c) as (now & Hnow & Hn).
    { apply elem_of_app. right. apply list_elem_of_singleton. reflexivity. }
    rewrite updateTimestamps_each_snoc.
    set (it := ItemOps.updateTimestamps_each clocks this) in *.
    pose proof (updateTimestamps_createdAt it (fst c) (snd c)) as Hcr.
    rewrite Hnow.
    assert (0 <= Z.of_nat (length clocks)) as Hlen0 by lia.
    pose proof (updateTimestamps_updatedAt it (fst c) now t Ht
                  ltac:(lia) ltac:(lia)) as Hup.
    exists (Z.max now (t + 1000)). split; [exact Hup |].
    rewrite length_app. simpl length.
    split; [lia |]. split; [lia |]. split; [lia |]. split.
    + intros c0 Hc0. rewrite <- Hnow, Hcr, (Hc c0 Hc0). reflexivity.
    + rewrite <- Hnow, <- Hu. reflexivity.
Qed.

(** X2.  After [n] successive [updateTimestamps()] calls on an item
    whose last-modified time was a valid date, when that date and the
    dates that the clock gives are all at least [n] seconds before
    the last time value that a date can hold, the last-modified time
    is a valid date at least [n] seconds after the original one,
    whichever of these dates the clock gave at each call; a creation
    time that was set is still the same, and so is the uuid. *)
Theorem updateTimestamps_each_advances clocks this (prev : Z) :
  updatedAt this = val (DateAt prev) ->
  - JSDate.MAX_TIME <= prev <=
  JSDate.MAX_TIME - 1000 * Z.of_nat (length clocks) ->
  (forall c, c ∈ clocks ->
     exists now,
       snd c = DateAt now /\
       - JSDate.MAX_TIME <= now <=
       JSDate.MAX_TIME - 1000 * Z.of_nat (length clocks)) ->
  exists t,
    updatedAt (ItemOps.updateTimestamps_each clocks this) = val (DateAt t) /\
    prev + 1000 * Z.of_nat (length clocks) <= t <= JSDate.MAX_TIME /\
    (forall c, createdAt this = val c ->
               createdAt (ItemOps.updateTimestamps_each clocks this) = val c) /\
    uuid (ItemOps.updateTimestamps_each clocks this) = uuid this.
Proof.
  intros Hprev Hp Hclocks.
  destruct (updateTimestamps_each_room (Z.of_nat (length clocks)) clocks this
              prev Hprev ltac:(lia) Hp Hclocks)
    as (t & Ht & Hle & _ & Hhi & Hc & Hu).
  exists t. split; [exact Ht |]. split; [lia |]. split; assumption.
Qed.

(** X3.  Once [updateTimestamps()] has run on an item of a store, the
    item counts as saved, and [saveTo()] no longer needs content to be
    set: it hands the store's [saveItem] the item with the target store
    as its store. *)
Theorem saved_item_needs_no_content this st (now1 now2 : Date) :
  store this = val st ->
  ItemM.isSaved (ItemM.updateTimestamps now1 now2 this) = true /\
  forall st' w,
    ItemM.saveTo (ItemM.updateTimestamps now1 now2 this) st' w =
    saveItem st'
             (ItemM.set_store (ItemM.updateTimestamps now1 now2 this) st') w.
Proof.
  intros Hst.
  assert (ItemM.isSaved (ItemM.updateTimestamps now1 now2 this) = true) as Hs.
  { unfold ItemM.isSaved, ItemM.updateTimestamps. simpl. rewrite Hst.
    reflexivity. }
  split; [exact Hs |]. intros st' w. unfold ItemM.saveTo. rewrite Hs.
  rewrite andb_false_r. reflexivity.
Qed.
End ItemOpsProperties.

Lemma filter_first_match {A} (P : A -> Prop) `{forall x, Decision (P x)}
      (pre : list A) (f : A) (post : list A) :
  P f ->
  Forall (fun g => ~ P g) pre ->
  exists rest, filter P (pre ++ f :: post)%list = f :: rest.
Proof.
  intros Hf Hpre. induction Hpre as [| g pre Hg Hpre IH].
  - simpl. rewrite filter_cons_True by exact Hf. eauto.
  - simpl. rewrite filter_cons_False by exact Hg. exact IH.
Qed.

Lemma filter_no_match {A} (P : A -> Prop) `{forall x, Decision (P x)}
      (l : list A) :
  Forall (fun g => ~ P g) l -> filter P l = [].
Proof.
  intros Hl. induction Hl as [| g l Hg Hl IH]; [reflexivity |].
  rewrite filter_cons_False by exact Hg. exact IH.
Qed.

(** X4.  [ContentUtil.account] and [ContentUtil.password] return the
    value of the first form field designated ['username'] and
    ['password'] respectively, whatever fields come before or after it,
    and the empty string when no field has that designation. *)
Theorem account_password_first_match (c : ItemContent) :
  (forall pre f post,
      formFields c = (pre ++ f :: post)%list ->
      wf_designation f = "username" ->
      Forall (fun g => wf_designation g <> "username") pre ->
      ContentUtil.accountField c = val f /\
      ContentUtil.account c = wf_value f) /\
  (Forall (fun g => wf_designation g <> "username") (formFields c) ->
   ContentUtil.accountField c = null /\ ContentUtil.account c = "") /\
  (forall pre f post,
      formFields c = (pre ++ f :: post)%list ->
      wf_designation f = "password" ->
      Forall (fun g => wf_designation g <> "password") pre ->
      ContentUtilMore.passwordField c = val f /\
      ContentUtilMore.password c = wf_value f) /\
  (Forall (fun g => wf_designation g <> "password") (formFields c) ->
   ContentUtilMore.passwordField c = null /\ ContentUtilMore.password c = "").
Proof.
  unfold ContentUtil.account, ContentUtil.accountField,
    ContentUtilMore.password, ContentUtilMore.passwordField.
  repeat split.
  - destruct (filter_first_match
                (fun g => wf_designation g = "username") pre f post)
      as (rest & Hr); auto. rewrite H, Hr. reflexivity.
  - destruct (filter_first_match
                (fun g => wf_designation g = "username") pre f post)
      as (rest & Hr); auto. rewrite H, Hr. reflexivity.
  - rewrite (filter_no_match _ _ H). reflexivity.
  - rewrite (filter_no_match _ _ H). reflexivity.
  - destruct (filter_first_match
                (fun g => wf_designation g = "password") pre f post)
      as (rest & Hr); auto. rewrite H, Hr. reflexivity.
  - destruct (filter_first_match
                (fun g => wf_designation g = "password") pre f post)
      as (rest & Hr); auto. rewrite H, Hr. reflexivity.
  - rewrite (filter_no_match _ _ H). reflexivity.
  - rewrite (filter_no_match _ _ H). reflexivity.
Qed.

Section OverviewProperties.
Context {Store World : Type} `{StoreInterface Store World}.
Implicit Types (this item : Item Store) (w : World) (c : ItemContent).

(** X5.  [updateOverviewFromContent(content)] makes the overview agree
    with the content: the locations are the urls of the content in
    order, the primary location is the first url (or the empty string),
    the account is the value of the first username field.  It changes
    no field other than the locations and the account, it changes
    nothing at all on an item that already agrees, and doing it twice
    is the same as doing it once. *)
Theorem updateOverviewFromContent_syncs this c :
  locations (ItemOps.updateOverviewFromContent this c) =
  List.map iu_url (urls c) /\
  ItemM.primaryLocation (ItemOps.updateOverviewFromContent this c) =
  item_repair.expectedLocation c /\
  account (ItemOps.updateOverviewFromContent this c) =
  val (ContentUtil.account c) /\
  (locations this = List.map iu_url (urls c) ->
   account this = val (ContentUtil.account c) ->
   ItemOps.updateOverviewFromContent this c = this) /\
  ItemOps.updateOverviewFromContent
    (ItemOps.updateOverviewFromContent this c) c =
  ItemOps.updateOverviewFromContent this c /\
  (let updated := ItemOps.updateOverviewFromContent this c in
   (store updated, revision updated, parentRevision updated, uuid updated,
    folderUuid updated, faveIndex updated, trashed updated,
    updatedAt updated, createdAt updated, typeName updated, title updated,
    openContents updated, content updated)) =
  (store this, revision this, parentRevision this, uuid this,
   folderUuid this, faveIndex this, trashed this,
   updatedAt this, createdAt this, typeName this, title this,
   openContents this, content this).
Proof.
  unfold ItemOps.updateOverviewFromContent, ItemM.primaryLocation,
    item_repair.expectedLocation. simpl.
  repeat split.
  - destruct (urls c); reflexivity.
  - intros Hl Ha. destruct this. simpl in *. subst. reflexivity.
Qed.

Lemma primaryLocation_map_urls item c :
  ItemM.primaryLocation
    (item_repair.set_locations item (List.map iu_url (urls c))) =
  item_repair.expectedLocation c.
Proof.
  unfold ItemM.primaryLocation, item_repair.expectedLocation. simpl.
  destruct (urls c); reflexivity.
Qed.

Lemma repairItem_agreeing item prompt w c item1 w1 :
  ItemM.getContent_ item w = (Resolved c, item1, w1) ->
  ItemM.primaryLocation item1 = item_repair.expectedLocation c ->
  item_repair.repairItem item prompt w = (Resolved tt, item1, [], w1).
Proof.
  intros Hg He. unfold item_repair.repairItem. rewrite Hg.
  rewrite bool_decide_eq_false_2; [reflexivity |]. intros Hne. exact (Hne He).
Qed.

(** X6.  [repairItem] on an item whose primary location is the first
    url of its content (the empty string when the content has no url)
    reports nothing, does not ask the user and saves nothing: the
    promise resolves and the item and the world are as [getContent()]
    left them.  In particular an item whose overview was updated from
    the content it holds passes the check. *)
Theorem repairItem_consistent_silent item prompt w c item1 w1 :
  ItemM.getContent_ item w = (Resolved c, item1, w1) ->
  ItemM.primaryLocation item1 = item_repair.expectedLocation c ->
  item_repair.repairItem item prompt w = (Resolved tt, item1, [], w1) /\
  (forall this w0,
      content this = val c ->
      item_repair.repairItem (ItemOps.updateOverviewFromContent this c)
                             prompt w0 =
      (Resolved tt, ItemOps.updateOverviewFromContent this c, [], w0)).
Proof.
  intros Hg He. split; [exact (repairItem_agreeing _ _ _ _ _ _ Hg He) |].
  intros this w0 Hc. apply (repairItem_agreeing _ _ _ c).
  - unfold ItemM.getContent_. simpl. rewrite Hc. reflexivity.
  - unfold ItemOps.updateOverviewFromContent, ItemM.primaryLocation,
      item_repair.expectedLocation. simpl. destruct (urls c); reflexivity.
Qed.

Lemma repairItem_declined item prompt w c item1 w1 w2 :
  ItemM.getContent_ item w = (Resolved c, item1, w1) ->
  ItemM.primaryLocation item1 <> item_repair.expectedLocation c ->
  prompt w1 = (Resolved false, w2) ->
  item_repair.repairItem item prompt w =
  (Resolved tt,
   item_repair.set_locations item1 (List.map iu_url (urls c)),
   item_repair.mismatch_report item1 (item_repair.expectedLocation c),
   w2).
Proof.
  intros Hg Hne Hp. unfold item_repair.repairItem. rewrite Hg.
  rewrite bool_decide_eq_true_2 by exact Hne. rewrite Hp. reflexivity.
Qed.

(** X7.  [repairItem] on an item whose primary location differs from
    the one its content implies reports two lines, the first being the
    title followed by a colon, replaces the locations of the item by
    the urls of the content before the user is asked, and then follows
    the answer: a rejected prompt rejects with the same error, a
    declined repair resolves without saving, and an accepted one gives
    the outcome of [save()] on the repaired item.  The locations stay
    repaired in memory in all three cases. *)
Theorem repairItem_mismatch item prompt w c item1 w1 :
  ItemM.getContent_ item w = (Resolved c, item1, w1) ->
  ItemM.primaryLocation item1 <> item_repair.expectedLocation c ->
  length (item_repair.mismatch_report
            item1 (item_repair.expectedLocation c)) = 2%nat /\
  head (item_repair.mismatch_report
          item1 (item_repair.expectedLocation c)) =
  Some (title item1 ++ ":")%string /\
  ItemM.primaryLocation
    (item_repair.set_locations item1 (List.map iu_url (urls c))) =
  item_repair.expectedLocation c /\
  (forall e w2, prompt w1 = (Rejected e, w2) ->
     item_repair.repairItem item prompt w =
     (Rejected e,
      item_repair.set_locations item1 (List.map iu_url (urls c)),
      item_repair.mismatch_report item1 (item_repair.expectedLocation c),
      w2)) /\
  (forall w2, prompt w1 = (Resolved false, w2) ->
     item_repair.repairItem item prompt w =
     (Resolved tt,
      item_repair.set_locations item1 (List.map iu_url (urls c)),
      item_repair.mismatch_report item1 (item_repair.expectedLocation c),
      w2)) /\
  (forall w2 saved item3 w3,
     prompt w1 = (Resolved true, w2) ->
     ItemM.save
       (item_repair.set_locations item1 (List.map iu_url (urls c))) w2 =
     (saved, item3, w3) ->
     item_repair.repairItem item prompt w =
     (saved, item3,
      item_repair.mismatch_report item1 (item_repair.expectedLocation c),
      w3)).
Proof.
  intros Hg Hne.
  split; [reflexivity |]. split; [reflexivity |].
  split; [apply primaryLocation_map_urls |].
  unfold item_repair.repairItem. rewrite Hg.
  rewrite bool_decide_eq_true_2 by exact Hne.
  repeat split.
  - intros e w2 Hp. rewrite Hp. reflexivity.
  - intros w2 Hp. rewrite Hp. reflexivity.
  - intros w2 saved item3 w3 Hp Hs. rewrite Hp, Hs. reflexivity.
Qed.

(** X8.  A repair that was reported and declined is not reported
    again: when an item holds its content and the user declines (or
    there is nothing to repair), the item that [repairItem] leaves
    passes every later [repairItem] silently, whatever the prompt
    would answer. *)
Theorem repairItem_declined_then_silent item prompt w c w2 :
  content item = val c ->
  prompt w = (Resolved false, w2) ->
  exists item2 reports w',
    item_repair.repairItem item prompt w =
    (Resolved tt, item2, reports, w') /\
    (w' = w \/ w' = w2) /\
    forall prompt' w'',
      item_repair.repairItem item2 prompt' w'' =
      (Resolved tt, item2, [], w'').
Proof.
  intros Hc Hp.
  assert (ItemM.getContent_ item w = (Resolved c, item, w)) as Hg.
  { unfold ItemM.getContent_. rewrite Hc. reflexivity. }
  destruct (decide (ItemM.primaryLocation item =
                    item_repair.expectedLocation c)) as [He | Hne].
  - exists item, [], w. split; [| split; [left; reflexivity |]].
    + exact (repairItem_agreeing _ _ _ _ _ _ Hg He).
    + intros prompt' w''. apply (repairItem_agreeing _ _ _ c); [| exact He].
      unfold ItemM.getContent_. rewrite Hc. reflexivity.
  - eexists _, _, w2.
    split; [exact (repairItem_declined _ _ _ _ _ _ _ Hg Hne Hp) |].
    split; [right; reflexivity |].
    intros prompt' w''. apply (repairItem_agreeing _ _ _ c);
      [| apply primaryLocation_map_urls].
    unfold ItemM.getContent_. simpl. rewrite Hc. reflexivity.
Qed.

(** X9.  [cloneItem] gives an item with the requested uuid (a fresh one
    when none is given), no revision, the revision of the source as
    parent revision and the uuid of the source as folder uuid; it
    copies the overview fields and the timestamps; and it holds the
    copied content, so that [getContent()] on the clone resolves with
    that content without consulting any store. *)
Theorem cloneItem_fields (itemAndContent : ItemAndContent Store)
        (id : nullable string) (st : nullable Store) (fresh : string) :
  (forall s, id = val s -> s <> "" ->
     uuid (iac_item (ItemOps.cloneItem itemAndContent id st fresh)) = s) /\
  (id = undefined \/ id = null \/ id = val "" ->
     uuid (iac_item (ItemOps.cloneItem itemAndContent id st fresh)) = fresh) /\
  revision (iac_item (ItemOps.cloneItem itemAndContent id st fresh)) =
  undefined /\
  parentRevision (iac_item (ItemOps.cloneItem itemAndContent id st fresh)) =
  revision (iac_item itemAndContent) /\
  folderUuid (iac_item (ItemOps.cloneItem itemAndContent id st fresh)) =
  uuid (iac_item itemAndContent) /\
  store (iac_item (ItemOps.cloneItem itemAndContent id st fresh)) = st /\
  (let cloned := iac_item (ItemOps.cloneItem itemAndContent id st fresh) in
   (faveIndex cloned, trashed cloned, updatedAt cloned, createdAt cloned,
    typeName cloned, title cloned, openContents cloned, locations cloned,
    account cloned)) =
  (let item := iac_item itemAndContent in
   (faveIndex item, trashed item, updatedAt item, createdAt item,
    typeName item, title item, openContents item, locations item,
    account item)) /\
  iac_content (ItemOps.cloneItem itemAndContent id st fresh) =
  iac_content itemAndContent /\
  (forall w,
     ItemM.getContent_
       (iac_item (ItemOps.cloneItem itemAndContent id st fresh)) w =
     (Resolved (iac_content itemAndContent),
      iac_item (ItemOps.cloneItem itemAndContent id st fresh), w)).
Proof.
  unfold ItemOps.cloneItem, ItemM.new. simpl.
  repeat split.
  - intros s -> Hs. destruct (decide (s = "")); [contradiction | reflexivity].
  - intros [-> | [-> | ->]]; reflexivity.
Qed.

End OverviewProperties.

Section TombstoneRevision.
Context {Store : Type} `{Digest}.
Implicit Types a b : Item Store.

(** X10.  The revision of a removed item: [remove()] overwrites title,
    type, open contents, folder, favourite index, trashed flag and
    content, so the revision computed for the tombstone with its (empty)
    content depends only on the uuid, the parent revision and the two
    timestamps of the item that was removed. *)
Theorem tombstone_revision_erases a b :
  uuid a = uuid b ->
  parentRevision a = parentRevision b ->
  updatedAt a = updatedAt b ->
  createdAt a = createdAt b ->
  content (ItemM.tombstone a) = val ContentUtil.empty /\
  generateRevisionId
    {| iac_item := ItemM.tombstone a; iac_content := ContentUtil.empty |} =
  generateRevisionId
    {| iac_item := ItemM.tombstone b; iac_content := ContentUtil.empty |}.
Proof.
  intros Hu Hp Hup Hcr. split; [reflexivity |].
  unfold generateRevisionId, contentString.
  rewrite (contentMetadata_agree
             {| iac_item := ItemM.tombstone a;
                iac_content := ContentUtil.empty |}
             {| iac_item := ItemM.tombstone b;
                iac_content := ContentUtil.empty |}); [reflexivity |].
  unfold same_revision_fields. simpl. repeat split; assumption.
Qed.
End TombstoneRevision.

Section TypeProperties.
Context {Store : Type}.
Implicit Types this : Item Store.

Lemma ItemTypes_all_cases (P : string -> Prop) :
  Forall P ItemTypes_all -> forall t, t ∈ ItemTypes_all -> P t.
Proof. intros HP t Ht. exact (proj1 (Forall_forall P ItemTypes_all) HP t Ht). Qed.

(** X11.  The table [ITEM_TYPES] describes every type code that the
    class [ItemTypes] declares: for an item of such a type,
    [typeDescription()] is the name of the table entry that the source
    lists under this code, never the raw code.  The twenty entries have
    distinct codes, distinct names and distinct short aliases. *)
Theorem typeDescription_covers this :
  typeName this ∈ ItemTypes_all ->
  (exists info,
      (typeName this, info) ∈ ITEM_TYPES_entries /\
      ItemOps.typeDescription this = iti_name info) /\
  ItemOps.typeDescription this <> typeName this /\
  NoDup (List.map fst ITEM_TYPES_entries) /\
  NoDup (List.map (fun e => iti_name (snd e)) ITEM_TYPES_entries) /\
  NoDup (List.map (fun e => iti_shortAlias (snd e)) ITEM_TYPES_entries) /\
  length ITEM_TYPES_entries = length ItemTypes_all.
Proof.
  intros Ht. unfold ItemOps.typeDescription.
  split; [| split; [| repeat split;
                      solve [apply (bool_decide_unpack _); vm_compute; exact I
                            | reflexivity]]].
  - revert Ht. generalize (typeName this). apply ItemTypes_all_cases.
    unfold ItemTypes_all.
    repeat (constructor;
            [ cbv beta; match goal with
              | |- context [ITEM_TYPES !! ?k] =>
                let r := eval vm_compute in (ITEM_TYPES !! k) in
                match r with
                | Some ?i =>
                  exists i; split;
                  [ unfold ITEM_TYPES_entries; set_solver
                  | change (ITEM_TYPES !! k) with r; reflexivity ]
                end
              end |]).
    constructor.
  - revert Ht. generalize (typeName this). apply ItemTypes_all_cases.
    apply (bool_decide_unpack _). vm_compute. exact I.
Qed.
End TypeProperties.

Section RegularItems.
Context {Store : Type}.
Implicit Types this : Item Store.

(** X12.  With [startsWith(s, prefix)] testing whether [s] begins with
    [prefix], [isRegularItem()] is false for folders, saved searches
    and tombstones (so for every item in the form [remove()] gives it)
    and true for the seventeen other declared types, among them the
    type of a newly constructed item. *)
Theorem isRegularItem_system_types
        (startsWith : string -> string -> bool) this :
  (forall s p, startsWith s p = String.prefix p s) ->
  ItemOps.isRegularItem startsWith (ItemM.tombstone this) = false /\
  (ItemM.isTombstone this = true ->
   ItemOps.isRegularItem startsWith this = false) /\
  (typeName this ∈ ItemTypes_all ->
   ItemOps.isRegularItem startsWith this =
   bool_decide (typeName this ∉ [ItemTypes.FOLDER; ItemTypes.SAVED_SEARCH;
                                 ItemTypes.TOMBSTONE])) /\
  (forall (st : nullable Store) id fresh,
      ItemOps.isRegularItem startsWith (ItemM.new st id fresh) = true).
Proof.
  intros Hsw. unfold ItemOps.isRegularItem. repeat split.
  - rewrite Hsw. reflexivity.
  - unfold ItemM.isTombstone. intros Ht. apply bool_decide_eq_true_1 in Ht.
    rewrite Hsw, Ht. reflexivity.
  - rewrite Hsw. generalize (typeName this).
    refine (proj1 (Forall_forall _ ItemTypes_all) _).
    apply (bool_decide_unpack _). vm_compute. exact I.
  - intros st id fresh. rewrite Hsw. reflexivity.
Qed.
End RegularItems.

Module AsyncFacts.
Import asyncutil.

(** X13.  [result(promise)] never rejects: it resolves with a record
    whose [error] is set exactly when the promise was rejected, to the
    error of the rejection, and whose [value] is set exactly when the
    promise resolved, to its value; so the promise can be told from the
    record. *)
Theorem result_never_rejects {T} (p q : Promise T) :
  (exists r, result p = Resolved r /\
             (forall v, value r = val v <-> p = Resolved v) /\
             (forall e, error r = val e <-> p = Rejected e) /\
             (truthy (value r) = negb (truthy (error r)))) /\
  (result p = result q -> p = q).
Proof.
  split.
  - destruct p as [v | e]; eexists; (split; [reflexivity |]); simpl;
      repeat split; intros; congruence.
  - destruct p, q; simpl; congruence.
Qed.

Section Loops.
Context {World A : Type}.
Implicit Types (funcs fs gs : list (World -> Promise A * World)).
Implicit Types (w : World) (l : list A).

Lemma series_results_default funcs w :
  series funcs undefined w = series funcs (val []) w /\
  series funcs null w = series funcs (val []) w.
Proof. destruct funcs; split; reflexivity. Qed.

(** [series] composes: running [fs] followed by [gs] is running [fs],
    and, when that resolves, running [gs] from the world and with the
    results that [fs] left. *)
Lemma series_app fs gs (results : nullable (list A)) w :
  series (fs ++ gs)%list results w =
  match series fs results w with
  | (Resolved l, w') => series gs (val l) w'
  | (Rejected e, w') => (Rejected e, w')
  end.
Proof.
  revert results w. induction fs as [| f fs IH]; intros results w.
  - simpl. destruct gs; destruct results; reflexivity.
  - simpl. destruct (f w) as [[x | e] w']; [apply IH | reflexivity].
Qed.

Lemma series_snoc fs f (results : nullable (list A)) w :
  series (fs ++ [f])%list results w =
  match series fs results w with
  | (Resolved l, w1) =>
    match f w1 with
    | (Resolved x, w2) => (Resolved (l ++ [x])%list, w2)
    | (Rejected e, w2) => (Rejected e, w2)
    end
  | (Rejected e, w1) => (Rejected e, w1)
  end.
Proof.
  rewrite series_app. destruct (series fs results w) as [[l | e] w1];
    [| reflexivity].
  simpl. destruct (f w1) as [[x | e] w2]; reflexivity.
Qed.

Lemma series_outcome_from funcs l0 w :
  match series funcs (val l0) w with
  | (Resolved l, w') =>
    exists vals,
      l = (l0 ++ vals)%list /\ length vals = length funcs /\
      series funcs (val []) w = (Resolved vals, w') /\
      forall i f,
        funcs !! i = Some f ->
        exists wi wi' x,
          series (take i funcs) (val []) w = (Resolved (take i vals), wi) /\
          f wi = (Resolved x, wi') /\ vals !! i = Some x
  | (Rejected e, w') =>
    exists fs f gs vals w1,
      funcs = (fs ++ f :: gs)%list /\
      series fs (val l0) w = (Resolved (l0 ++ vals)%list, w1) /\
      length vals = length fs /\
      f w1 = (Rejected e, w')
  end.
Proof.
  induction funcs as [| f funcs IH] using rev_ind.
  - simpl. exists []. rewrite app_nil_r. repeat split; try reflexivity.
    intros i f Hf. rewrite lookup_nil in Hf. discriminate.
  - rewrite series_snoc.
    destruct (series funcs (val l0) w) as [[l | e] w1] eqn:Hs0.
    + destruct IH as (vals & -> & Hlen & Hs & Hi).
      destruct (f w1) as [[x | e] w2] eqn:Hf.
      * exists (vals ++ [x])%list. rewrite app_assoc.
        split; [reflexivity |]. split; [rewrite !length_app, Hlen; reflexivity |].
        split; [rewrite series_snoc, Hs, Hf; reflexivity |].
        intros i g Hg.
        destruct (decide (i < length funcs)%nat) as [Hlt | Hge].
        -- rewrite lookup_app_l in Hg by exact Hlt.
           destruct (Hi i g Hg) as (wi & wi' & y & H1 & H2 & H3).
           exists wi, wi', y.
           rewrite take_app_le by lia. rewrite take_app_le by lia.
           rewrite lookup_app_l by lia. auto.
        -- assert (i = length funcs) as ->.
           { apply lookup_lt_Some in Hg. rewrite length_app in Hg.
             simpl in Hg. lia. }
           rewrite list_lookup_middle in Hg by reflexivity.
           injection Hg as <-.
           exists w1, w2, x.
           rewrite take_app_length. rewrite <- Hlen, take_app_length.
           rewrite Hs, Hf. repeat split.
           rewrite list_lookup_middle; reflexivity.
      * exists funcs, f, [], vals, w1. repeat split; assumption.
    + destruct IH as (fs & g & gs & vals & w0 & -> & Hs & Hlen & Hg).
      exists fs, g, (gs ++ [f])%list, vals, w0.
      rewrite <- app_assoc. repeat split; assumption.
Qed.

(** X14.  A [series] that resolves has called every function once, in
    order, and returns the initial results (none when the argument is
    omitted) followed by one value per function, the value at each
    position being the one that the function at this position
    resolved with in the world its predecessors left; a [series] that
    rejects stopped at the first function that rejected: the
    functions before it resolved, the rejection and the world are the
    ones this function gave, and the functions after it were not
    called. *)
Theorem series_outcome funcs (results : nullable (list A)) w :
  match series funcs results w with
  | (Resolved l, w') =>
    exists vals,
      l = (match results with val l0 => l0 | _ => [] end ++ vals)%list /\
      length vals = length funcs /\
      series funcs (val []) w = (Resolved vals, w') /\
      forall i f,
        funcs !! i = Some f ->
        exists wi wi' x,
          series (take i funcs) (val []) w = (Resolved (take i vals), wi) /\
          f wi = (Resolved x, wi') /\ vals !! i = Some x
  | (Rejected e, w') =>
    exists fs f gs vals w1,
      funcs = (fs ++ f :: gs)%list /\
      series fs results w =
      (Resolved (match results with val l0 => l0 | _ => [] end ++ vals)%list,
       w1) /\
      length vals = length fs /\
      f w1 = (Rejected e, w')
  end.
Proof.
  destruct results as [| | l0].
  - rewrite (proj1 (series_results_default funcs w)).
    pose proof (series_outcome_from funcs [] w) as H.
    destruct (series funcs (val []) w) as [[l | e] w']; [exact H |].
    destruct H as (fs & f & gs & vals & w1 & Hf & Hs & Hl & Hr).
    exists fs, f, gs, vals, w1.
    rewrite (proj1 (series_results_default fs w)). auto.
  - rewrite (proj2 (series_results_default funcs w)).
    pose proof (series_outcome_from funcs [] w) as H.
    destruct (series funcs (val []) w) as [[l | e] w']; [exact H |].
    destruct H as (fs & f & gs & vals & w1 & Hf & Hs & Hl & Hr).
    exists fs, f, gs, vals, w1.
    rewrite (proj2 (series_results_default fs w)). auto.
  - exact (series_outcome_from funcs l0 w).
Qed.

Lemma until_more_fuel fuel fuel' func w (r : Promise bool * World) :
  until fuel func w = Some r -> (fuel <= fuel')%nat ->
  until fuel' func w = Some r.
Proof.
  revert fuel' w. induction fuel as [| fuel IH]; intros fuel' w Hu Hle;
    [discriminate |].
  destruct fuel' as [| fuel']; [lia |]. simpl in *.
  destruct (func w) as [[[|] | e] w']; try exact Hu.
  apply IH; [exact Hu | lia].
Qed.

(** X15.  [until(func)] calls [func] again as long as it resolves with
    a false value.  When the loop ends, it ended with the first call
    that did not resolve with false: it resolves with [true], never
    with [false], or rejects with the error of that call, in the world
    that call left.  Conversely, when the first [n] calls resolve with
    false and the next one resolves with true or rejects, the loop ends
    with that outcome after [n + 1] calls, and it is still running
    after any smaller number of calls. *)
Theorem until_first_done func w :
  (forall fuel r w',
      until fuel func w = Some (r, w') ->
      r <> Resolved false /\
      exists n w1, (n < fuel)%nat /\ not_done func n w w1 /\
                   func w1 = (r, w')) /\
  (forall n w1 r w',
      not_done func n w w1 ->
      func w1 = (r, w') ->
      r <> Resolved false ->
      forall fuel,
        until fuel func w =
        if decide (n < fuel)%nat then Some (r, w') else None).
Proof.
  split.
  - intros fuel. revert w. induction fuel as [| fuel IH]; intros w r w' Hu;
      [discriminate |].
    simpl in Hu. destruct (func w) as [[[|] | e] w1] eqn:Hf.
    + injection Hu as <- <-. split; [discriminate |].
      exists O, w. repeat split; [lia | constructor | exact Hf].
    + destruct (IH w1 r w' Hu) as (Hr & n & w2 & Hn & Hnd & Hf2).
      split; [exact Hr |].
      exists (S n), w2. repeat split; [lia | | exact Hf2].
      econstructor; eassumption.
    + injection Hu as <- <-. split; [discriminate |].
      exists O, w. repeat split; [lia | constructor | exact Hf].
  - intros n w1 r w' Hnd. induction Hnd as [w | n w wa wb Hf Hnd IH];
      intros Hr Hne fuel.
    + destruct fuel as [| fuel]; [reflexivity |]. simpl. rewrite Hr.
      destruct r as [[|] | e]; try reflexivity. congruence.
    + destruct fuel as [| fuel]; [reflexivity |]. simpl. rewrite Hf.
      rewrite (IH Hr Hne fuel).
      destruct (decide (n < fuel)%nat), (decide (S n < S fuel)%nat);
        try reflexivity; lia.
Qed.
End Loops.
End AsyncFacts.

Module VfsFacts.
Import vfs.
Section FileVFS.
Variable Path_join : string -> string -> string.
Implicit Types (st : ListState) (completions : list (string * option bool)).

Lemma on_stat_fold absPath files completions st :
  let st' := fold_left (on_stat Path_join absPath files) completions st in
  done st' =
  (done st + length (stat_infos Path_join absPath completions))%nat /\
  infoList st' =
  (infoList st ++ stat_infos Path_join absPath completions)%list /\
  cb_calls st' =
  (cb_calls st ++
   if decide (done st < length files <=
              done st + length (stat_infos Path_join absPath completions))%nat
   then [(infoList st ++
          take (length files - done st)
               (stat_infos Path_join absPath completions))%list]
   else [])%list.
Proof.
  revert st. induction completions as [| [name info] completions IH];
    intros st; simpl.
  - rewrite Nat.add_0_r, !app_nil_r. repeat split.
    destruct (decide _) as [Hd | Hd]; [lia | rewrite app_nil_r; reflexivity].
  - specialize (IH (on_stat Path_join absPath files st (name, info))).
    simpl in IH. destruct IH as (Hd & Hi & Hc).
    rewrite Hd, Hi, Hc. clear Hd Hi Hc.
    unfold stat_infos. simpl. destruct info as [isDirectory |]; simpl.
    + fold (stat_infos Path_join absPath completions).
      set (rest := stat_infos Path_join absPath completions).
      set (fi := {| name := name; path := Path_join absPath name;
                    isDir := isDirectory |}).
      split; [lia |]. split; [rewrite <- app_assoc; reflexivity |].
      destruct (decide (S (done st) = length files)) as [He | Hne].
      * rewrite decide_False by lia. rewrite decide_True by lia.
        rewrite app_nil_r. replace (length files - done st)%nat with 1%nat by lia.
        simpl. rewrite take_0. reflexivity.
      * destruct (decide (S (done st) < length files <=
                          S (done st) + length rest)%nat) as [Hin | Hout].
        -- rewrite !decide_True by lia. rewrite <- app_assoc. simpl.
           replace (length files - done st)%nat
             with (S (length files - S (done st))) by lia.
           reflexivity.
        -- rewrite !decide_False by lia. reflexivity.
    + fold (stat_infos Path_join absPath completions).
      repeat split.
Qed.

Lemma stat_infos_cons absPath name info completions :
  stat_infos Path_join absPath ((name, info) :: completions) =
  match info with
  | Some isDirectory =>
    {| name := name; path := Path_join absPath name; isDir := isDirectory |}
      :: stat_infos Path_join absPath completions
  | None => stat_infos Path_join absPath completions
  end.
Proof. destruct info; reflexivity. Qed.

Lemma stat_infos_length absPath completions :
  (length (stat_infos Path_join absPath completions) <= length completions)%nat
  /\ (length (stat_infos Path_join absPath completions) = length completions
      <-> Forall (fun c => is_Some (snd c)) completions).
Proof.
  induction completions as [| [name [d |]] cs [IH1 IH2]];
    rewrite ?stat_infos_cons; simpl.
  - split; [lia |]. split; [constructor | reflexivity].
  - split; [lia |]. rewrite Forall_cons. simpl. split.
    + intros Hl. split; [eauto |]. apply IH2. lia.
    + intros [_ Hf]. f_equal. apply IH2. exact Hf.
  - split; [lia |]. rewrite Forall_cons. simpl. split.
    + intros Hl. lia.
    + intros [[x Hx] _]. discriminate.
Qed.

(** X16.  [FileVFS.list] invokes its callback at most once, and never
    with an error.  When [readdir] fails, the callback is not invoked
    at all.  When [readdir] succeeds and each [stat] call completes
    once, the callback is invoked exactly when the directory is not
    empty and every [stat] succeeds; the list it receives then holds
    one entry per file, in the order in which the [stat] calls
    completed.  For an empty directory, and as soon as one [stat]
    fails, the callback is never invoked. *)
Theorem list_callback absPath readdir completions :
  (length (fst (list_ Path_join absPath readdir completions)) <= 1)%nat /\
  (readdir = None ->
   list_ Path_join absPath readdir completions =
   ([], [("Unable to read dir " ++ absPath)%string])) /\
  (forall files,
      readdir = Some files ->
      length completions = length files ->
      fst (list_ Path_join absPath readdir completions) =
      if decide (files <> [] /\
                 Forall (fun c => is_Some (snd c)) completions)
      then [stat_infos Path_join absPath completions]
      else []) /\
  (forall files infos,
      readdir = Some files ->
      length completions = length files ->
      infos ∈ fst (list_ Path_join absPath readdir completions) ->
      List.map name infos = List.map fst completions /\
      length infos = length files).
Proof.
  assert (forall files,
             fst (list_ Path_join absPath (Some files) completions) =
             if decide (0 < length files <=
                        length (stat_infos Path_join absPath completions))%nat
             then [take (length files)
                        (stat_infos Path_join absPath completions)]
             else []) as Hcalls.
  { intros files. unfold list_. simpl.
    destruct (on_stat_fold absPath files completions
                {| done := O; infoList := []; cb_calls := [];
                   console := [] |}) as (_ & _ & Hc).
    simpl in Hc. rewrite Hc, Nat.sub_0_r. reflexivity. }
  assert (forall files,
             length completions = length files ->
             fst (list_ Path_join absPath (Some files) completions) =
             if decide (files <> [] /\
                        Forall (fun c => is_Some (snd c)) completions)
             then [stat_infos Path_join absPath completions]
             else []) as Hall.
  { intros files Hlen. rewrite Hcalls.
    destruct (stat_infos_length absPath completions) as [Hle Hiff].
    destruct (decide (files <> [] /\ _)) as [[Hne Hf] | Hno].
    - apply Hiff in Hf. rewrite decide_True.
      + rewrite <- Hlen, <- Hf, firstn_all. reflexivity.
      + destruct files; [contradiction | simpl in *; lia].
    - rewrite decide_False; [reflexivity |]. intros [H0 Hn]. apply Hno. split.
      + intros ->. simpl in H0. lia.
      + apply Hiff. lia. }
  split; [| split; [| split]].
  - destruct readdir as [files |]; [| simpl; lia].
    rewrite Hcalls. destruct (decide _); simpl; lia.
  - intros ->. reflexivity.
  - intros files ->. apply Hall.
  - intros files infos -> Hlen. rewrite (Hall files Hlen).
    destruct (decide _) as [[Hne Hf] | Hno]; [| intros Hin; inversion Hin].
    intros Hin. apply list_elem_of_singleton in Hin. subst infos.
    split.
    + clear Hlen Hcalls Hall Hne. unfold stat_infos.
      induction Hf as [| [name [d |]] cs [x Hx] Hf IH]; simpl in *;
        [reflexivity | | discriminate].
      f_equal. exact IH.
    + rewrite <- Hlen. apply stat_infos_length. exact Hf.
Qed.
End FileVFS.
End VfsFacts.

Module KeyValueFacts.
Import key_value_store.

Section ListKeys.
Context {S World : Type} `{ObjectStore S World}.

(** X17.  [listKeys] resolves exactly when the iteration of the store
    does; the keys it resolves with are the keys that the iteration
    passed to the callback (for the empty prefix when none is given),
    each as often as it was passed, in ascending order, and this fixes
    the result: it is the only ascending arrangement of these keys.
    When the iteration rejects, [listKeys] rejects with the same error
    and the keys seen so far are dropped. *)
Theorem listKeys_sorted (store : S) (prefix : option string) (w : World) :
  exists iterated outcome w',
    iterate store (default "" prefix) w = (iterated, outcome, w') /\
    match outcome with
    | Resolved _ =>
      exists keys,
        listKeys store prefix w = (Resolved keys, w') /\
        Sorted String.le keys /\
        keys ≡ₚ iterated /\
        (forall l, Sorted String.le l -> l ≡ₚ iterated -> l = keys)
    | Rejected e => listKeys store prefix w = (Rejected e, w')
    end.
Proof.
  unfold listKeys.
  replace (match prefix with Some p => p | None => "" end)
    with (default "" prefix) by (destruct prefix; reflexivity).
  destruct (iterate store (default "" prefix) w) as [[iterated outcome] w'].
  exists iterated, outcome, w'. split; [reflexivity |].
  destruct outcome as [u | e]; [| reflexivity].
  exists (sort iterated). split; [reflexivity |]. unfold sort.
  split; [apply Sorted_merge_sort; apply _ |].
  split; [apply merge_sort_Permutation |].
  intros l Hl Hp. apply (Sorted_unique String.le); [exact Hl | |].
  - apply Sorted_merge_sort; apply _.
  - rewrite Hp. symmetry. apply merge_sort_Permutation.
Qed.
End ListKeys.

(** X18.  [currentVersion()] never reports a version above 2^50 and
    never [NaN]: a missing, zero or [NaN] old version and every old
    version above 2^50 (such as the 2^63 of the iOS bug, or infinity)
    are reported as 0, and every other old version is reported
    unchanged. *)
Theorem currentVersion_clamped (e_oldVersion : nullable number) :
  match currentVersion e_oldVersion with
  | Num z =>
    z <= MAX_SCHEMA_VERSION /\
    (e_oldVersion = val (Num z) \/
     z = 0 /\ match e_oldVersion with
              | val (Num v) => MAX_SCHEMA_VERSION < v
              | val NegInfinity => False
              | _ => True
              end)
  | NegInfinity => e_oldVersion = val NegInfinity
  | NaN => False
  | PosInfinity => False
  end.
Proof.
  unfold currentVersion.
  destruct e_oldVersion as [| | [z | | |]]; simpl;
    try (split; [unfold MAX_SCHEMA_VERSION; lia | right; split; trivial]);
    try reflexivity.
  destruct z as [| p | p]; simpl.
  - split; [unfold MAX_SCHEMA_VERSION; lia | left; reflexivity].
  - destruct (Z.ltb_spec MAX_SCHEMA_VERSION (Z.pos p)).
    + split; [unfold MAX_SCHEMA_VERSION; lia | right; split; trivial].
    + split; [lia | left; reflexivity].
  - split; [unfold MAX_SCHEMA_VERSION; lia | left; reflexivity].
Qed.
End KeyValueFacts.

Module SortByFacts.
Import underscore.
Section SortBy.
Context {A : Type} (f : A -> Z).

Lemma insert_by_Permutation x l : insert_by f x l ≡ₚ x :: l.
Proof.
  induction l as [| y l IH]; simpl; [reflexivity |].
  destruct (f x <? f y); [reflexivity |].
  rewrite IH. apply Permutation_swap.
Qed.

Lemma sortBy_fold_Permutation l acc :
  fold_left (fun sorted x => insert_by f x sorted) l acc ≡ₚ (acc ++ l)%list.
Proof.
  revert acc. induction l as [| x l IH]; intros acc; simpl.
  - rewrite app_nil_r. reflexivity.
  - rewrite IH, insert_by_Permutation.
    rewrite (Permutation_middle acc l x). reflexivity.
Qed.

Lemma sortBy_Permutation l : sortBy f l ≡ₚ l.
Proof. unfold sortBy. rewrite sortBy_fold_Permutation. reflexivity. Qed.

Lemma insert_by_sorted x l :
  StronglySorted (fun a b => f a <= f b) l ->
  StronglySorted (fun a b => f a <= f b) (insert_by f x l).
Proof.
  induction l as [| y l IH]; simpl; intros Hs.
  - repeat constructor.
  - apply StronglySorted_cons in Hs. destruct Hs as [Hy Hl].
    destruct (Z.ltb_spec (f x) (f y)) as [Hlt | Hge].
    + apply StronglySorted_cons. split.
      * constructor; [lia |].
        eapply Forall_impl; [exact Hy |]. simpl. intros z Hz. lia.
      * apply StronglySorted_cons. split; assumption.
    + apply StronglySorted_cons. split; [| exact (IH Hl)].
      rewrite insert_by_Permutation. constructor; [lia | exact Hy].
Qed.

Lemma sortBy_sorted l :
  StronglySorted (fun a b => f a <= f b) (sortBy f l).
Proof.
  unfold sortBy.
  assert (forall acc,
             StronglySorted (fun a b => f a <= f b) acc ->
             StronglySorted (fun a b => f a <= f b)
               (fold_left (fun sorted x => insert_by f x sorted) l acc))
    as Hgen.
  { induction l as [| x l IH]; intros acc Hacc; simpl; [exact Hacc |].
    apply IH. apply insert_by_sorted. exact Hacc. }
  apply Hgen. constructor.
Qed.

End SortBy.
End SortByFacts.

Module IconFacts.
Import item_icons.
Section MakeIconUrl.
Context {Data : Type} (loadImage : Data -> string).
Implicit Types (icons : list (site_info.Icon Data)) (minSize : Z).

Lemma find_sorted_least {A} (f : A -> Z) (p : A -> bool) (l : list A) x :
  StronglySorted (fun a b => f a <= f b) l ->
  find p l = Some x ->
  forall y, y ∈ l -> p y = true -> f x <= f y.
Proof.
  induction l as [| z l IH]; simpl; intros Hs Hf y Hy Hp; [discriminate |].
  apply StronglySorted_cons in Hs. destruct Hs as [Hz Hl].
  destruct (p z) eqn:Hpz.
  - injection Hf as <-. apply elem_of_cons in Hy.
    destruct Hy as [-> | Hy]; [lia |].
    exact (proj1 (Forall_forall _ _) Hz y Hy).
  - apply elem_of_cons in Hy. destruct Hy as [-> | Hy]; [congruence |].
    exact (IH Hl Hf y Hy Hp).
Qed.

Lemma last_sorted_greatest {A} (f : A -> Z) (l : list A) x :
  StronglySorted (fun a b => f a <= f b) l ->
  last l = Some x ->
  forall y, y ∈ l -> f y <= f x.
Proof.
  intros Hs Hlast y Hy. apply last_Some in Hlast. destruct Hlast as [l' ->].
  apply elem_of_app in Hy. destruct Hy as [Hy | Hy].
  - apply (StronglySorted_app_1_elem_of _ _ _ _ _ Hs Hy). left.
  - apply list_elem_of_singleton in Hy. subst. lia.
Qed.

Lemma candidates_loop minSize (l : list (site_info.Icon Data))
      (sq nsq : nullable (site_info.Icon Data)) :
  fold_left
    (fun '(squareIcon, nonSquareIcon) candidate =>
       if minSize <=? site_info.width candidate then
         if site_info.width candidate =? site_info.height candidate
         then (or_else squareIcon (val candidate), nonSquareIcon)
         else (squareIcon, or_else nonSquareIcon (val candidate))
       else (squareIcon, nonSquareIcon))
    l (sq, nsq) =
  (if truthy sq then sq
   else match find (fun c => (minSize <=? site_info.width c) &&
                             (site_info.width c =? site_info.height c)) l with
        | Some c => val c
        | None => sq
        end,
   if truthy nsq then nsq
   else match find (fun c => (minSize <=? site_info.width c) &&
                             negb (site_info.width c =? site_info.height c))
                   l with
        | Some c => val c
        | None => nsq
        end).
Proof.
  revert sq nsq. induction l as [| c l IH]; intros sq nsq; simpl.
  - destruct (truthy sq), (truthy nsq); reflexivity.
  - destruct (minSize <=? site_info.width c); simpl; [| apply IH].
    destruct (site_info.width c =? site_info.height c); simpl;
      rewrite IH; unfold or_else.
    + destruct (truthy sq) eqn:Hsq; [rewrite Hsq; reflexivity |].
      reflexivity.
    + destruct (truthy nsq) eqn:Hn; [rewrite Hn; reflexivity |].
      reflexivity.
Qed.

(** X19.  [makeIconUrl] returns the empty url and no icon exactly for
    an empty list of icons.  Otherwise it returns one of the given
    icons and the url that [loadImage] gives for its data, chosen as
    follows: when some icon is square and at least [minSize] wide, a
    narrowest such icon; otherwise, when some icon is at least
    [minSize] wide, a narrowest such icon; otherwise a widest icon. *)
Theorem makeIconUrl_selection icons minSize :
  match sel_icon (makeIconUrl loadImage icons minSize) with
  | val i =>
    i ∈ icons /\
    sel_url (makeIconUrl loadImage icons minSize) =
    loadImage (site_info.data i) /\
    (Exists (fun c => minSize <= site_info.width c /\
                      site_info.width c = site_info.height c) icons ->
     minSize <= site_info.width i /\
     site_info.width i = site_info.height i /\
     forall c, c ∈ icons -> minSize <= site_info.width c ->
               site_info.width c = site_info.height c ->
               site_info.width i <= site_info.width c) /\
    (Forall (fun c => ~ (minSize <= site_info.width c /\
                         site_info.width c = site_info.height c)) icons ->
     Exists (fun c => minSize <= site_info.width c) icons ->
     minSize <= site_info.width i /\
     forall c, c ∈ icons -> minSize <= site_info.width c ->
               site_info.width i <= site_info.width c) /\
    (Forall (fun c => site_info.width c < minSize) icons ->
     forall c, c ∈ icons -> site_info.width c <= site_info.width i)
  | null => icons = [] /\ sel_url (makeIconUrl loadImage icons minSize) = ""
  | undefined => False
  end.
Proof.
  destruct icons as [| i0 rest]; [simpl; auto |].
  set (icons := i0 :: rest). unfold makeIconUrl. fold icons.
  change (match icons with
          | [] => _
          | _ :: _ => ?b
          end) with b.
  rewrite candidates_loop. cbn [truthy].
  set (sorted := underscore.sortBy site_info.width icons).
  pose proof (SortByFacts.sortBy_Permutation site_info.width icons) as Hperm.
  pose proof (SortByFacts.sortBy_sorted site_info.width icons) as Hsorted.
  fold sorted in Hperm, Hsorted.
  assert (forall c, c ∈ sorted <-> c ∈ icons) as Hmem.
  { intros c. rewrite Hperm. reflexivity. }
  set (psq := fun c : site_info.Icon Data =>
                (minSize <=? site_info.width c) &&
                (site_info.width c =? site_info.height c)).
  set (pns := fun c : site_info.Icon Data =>
                (minSize <=? site_info.width c) &&
                negb (site_info.width c =? site_info.height c)).
  assert (forall c, psq c = true <->
                    minSize <= site_info.width c /\
                    site_info.width c = site_info.height c) as Hpsq.
  { intros c. unfold psq. rewrite andb_true_iff, Z.leb_le, Z.eqb_eq.
    reflexivity. }
  assert (forall c, pns c = true <->
                    minSize <= site_info.width c /\
                    site_info.width c <> site_info.height c) as Hpns.
  { intros c. unfold pns.
    rewrite andb_true_iff, negb_true_iff, Z.leb_le, Z.eqb_neq. reflexivity. }
  destruct (find psq sorted) as [s |] eqn:Hfs.
  - (* a square icon of the required size *)
    unfold or_else. cbn [truthy negb sel_icon sel_url].
    pose proof (find_some _ _ Hfs) as [Hin Hps].
    apply list_elem_of_In in Hin. apply Hpsq in Hps. destruct Hps as [Hw Hsq].
    split; [apply Hmem; exact Hin |]. split; [reflexivity |].
    split; [| split].
    + intros _. split; [exact Hw |]. split; [exact Hsq |].
      intros c Hc Hcw Hcs.
      apply (find_sorted_least site_info.width psq sorted s Hsorted Hfs c).
      * apply Hmem; exact Hc.
      * apply Hpsq. auto.
    + intros Hnone _. exfalso.
      apply (proj1 (Forall_forall _ _) Hnone s); [apply Hmem; exact Hin |].
      auto.
    + intros Hsmall. exfalso.
      pose proof (proj1 (Forall_forall _ _) Hsmall s
                        (proj1 (Hmem s) Hin)). simpl in *. lia.
  - assert (forall c, c ∈ icons -> psq c = false) as Hnosq.
    { intros c Hc. apply (find_none _ _ Hfs). apply list_elem_of_In.
      apply Hmem. exact Hc. }
    destruct (find pns sorted) as [n |] eqn:Hfn.
    + (* no square icon, but an icon of the required size *)
      unfold or_else. cbn [truthy negb sel_icon sel_url].
      pose proof (find_some _ _ Hfn) as [Hin Hpn].
      apply list_elem_of_In in Hin. apply Hpns in Hpn.
      destruct Hpn as [Hw Hns].
      split; [apply Hmem; exact Hin |]. split; [reflexivity |].
      split; [| split].
      * intros Hex. exfalso. apply Exists_exists in Hex.
        destruct Hex as (c & Hc & Hcw & Hcs).
        pose proof (Hnosq c Hc) as Hf.
        assert (psq c = true) by (apply Hpsq; auto). congruence.
      * intros _ _. split; [exact Hw |]. intros c Hc Hcw.
        apply (find_sorted_least site_info.width pns sorted n Hsorted Hfn c).
        -- apply Hmem; exact Hc.
        -- apply Hpns. split; [exact Hcw |]. intros Heq.
           pose proof (Hnosq c Hc) as Hf.
           assert (psq c = true) by (apply Hpsq; auto). congruence.
      * intros Hsmall. exfalso.
        pose proof (proj1 (Forall_forall _ _) Hsmall n
                          (proj1 (Hmem n) Hin)). simpl in *. lia.
    + (* no icon of the required size: the widest one *)
      assert (forall c, c ∈ icons -> site_info.width c < minSize) as Hall.
      { intros c Hc.
        destruct (Z.lt_ge_cases (site_info.width c) minSize) as [| Hge];
          [assumption |]. exfalso.
        destruct (decide (site_info.width c = site_info.height c)) as [He | Hn].
        - pose proof (Hnosq c Hc). assert (psq c = true) by (apply Hpsq; auto).
          congruence.
        - assert (pns c = false) as Hf.
          { apply (find_none _ _ Hfn). apply list_elem_of_In.
            apply Hmem. exact Hc. }
          assert (pns c = true) by (apply Hpns; auto). congruence. }
      unfold or_else. cbn [truthy negb].
      destruct (last sorted) as [m |] eqn:Hlast.
      * cbn [sel_icon sel_url].
        assert (m ∈ sorted) as Hm.
        { apply last_Some in Hlast. destruct Hlast as [l' ->].
          apply elem_of_app. right. left. }
        split; [apply Hmem; exact Hm |]. split; [reflexivity |].
        split; [| split].
        -- intros Hex. exfalso. apply Exists_exists in Hex.
           destruct Hex as (c & Hc & Hcw & Hcs).
           pose proof (Hall c Hc). lia.
        -- intros _ Hex. exfalso. apply Exists_exists in Hex.
           destruct Hex as (c & Hc & Hcw).
           pose proof (Hall c Hc). lia.
        -- intros _ c Hc.
           apply (last_sorted_greatest site_info.width sorted m Hsorted Hlast).
           apply Hmem. exact Hc.
      * exfalso. apply last_None in Hlast.
        assert (i0 ∈ sorted) as Hi0 by (apply Hmem; left).
        rewrite Hlast in Hi0. inversion Hi0.
Qed.
End MakeIconUrl.
End IconFacts.

Module PageFacts.
Import page.

Lemma Document_nested_ind (P : Document -> Prop) :
  (forall inputs frames,
      Forall (fun frame => match frame with
                           | SameOrigin d => P d
                           | _ => True
                           end) frames ->
      P (Doc inputs frames)) ->
  forall d, P d.
Proof.
  intros HDoc. fix IH 1. intros [inputs frames]. apply HDoc.
  induction frames as [| frame frames IHframes]; constructor.
  - destruct frame as [d | |]; [apply IH | exact I | exact I].
  - exact IHframes.
Qed.

Lemma collectFieldsInDocument_unfold fieldElements frames :
  collectFieldsInDocument (Doc fieldElements frames) =
  fold_left
    (fun fields frame =>
       match frame with
       | SameOrigin contentDocument =>
         (fields ++ List.map (add_to_key (length fields))
                             (collectFieldsInDocument contentDocument))%list
       | NoDocument => fields
       | SecurityException => fields
       end)
    frames
    (fold_left (fun fields elt => (fields ++ [describe fields elt])%list)
               fieldElements []).
Proof. reflexivity. Qed.

Lemma add_to_key_add n m f :
  add_to_key n (add_to_key m f) = add_to_key (n + m) f.
Proof.
  unfold add_to_key. simpl. f_equal. f_equal. lia.
Qed.

Lemma describe_add_to_key fields elt :
  describe fields elt = add_to_key (length fields) (describe [] elt).
Proof. reflexivity. Qed.

Lemma collect_inputs_loop fieldElements acc :
  fold_left (fun fields elt => (fields ++ [describe fields elt])%list)
            fieldElements acc =
  (acc ++ imap (fun i elt => add_to_key (length acc + i) (describe [] elt))
               fieldElements)%list.
Proof.
  revert acc. induction fieldElements as [| elt elts IH]; intros acc; simpl.
  - rewrite app_nil_r. reflexivity.
  - rewrite IH, <- app_assoc. simpl. f_equal. f_equal.
    + rewrite Nat.add_0_r. apply describe_add_to_key.
    + apply imap_ext. intros i x _. simpl. rewrite length_app. simpl.
      f_equal. lia.
Qed.

Lemma collect_frames_loop frames acc :
  Forall (fun frame =>
            match frame with
            | SameOrigin d =>
              collectFieldsInDocument d =
              imap (fun i elt => add_to_key i (describe [] elt))
                   (all_inputs d)
            | _ => True
            end) frames ->
  fold_left
    (fun fields frame =>
       match frame with
       | SameOrigin contentDocument =>
         (fields ++ List.map (add_to_key (length fields))
                             (collectFieldsInDocument contentDocument))%list
       | NoDocument => fields
       | SecurityException => fields
       end)
    frames acc =
  (acc ++ imap (fun i elt => add_to_key (length acc + i) (describe [] elt))
               (List.concat
                  (List.map (fun frame =>
                               match frame with
                               | SameOrigin d => all_inputs d
                               | _ => []
                               end) frames)))%list.
Proof.
  intros Hframes. revert acc.
  induction Hframes as [| frame frames Hframe Hframes IH]; intros acc; simpl.
  - rewrite app_nil_r. reflexivity.
  - rewrite IH. destruct frame as [d | |]; simpl; [| reflexivity ..].
    rewrite Hframe, <- app_assoc. f_equal.
    rewrite imap_app. f_equal.
    + change (List.map ?g ?l) with (g <$> l). rewrite fmap_imap.
      apply imap_ext. intros i x _. simpl. apply add_to_key_add.
    + apply imap_ext. intros i x _. simpl.
      rewrite length_app, length_map, length_imap. f_equal. lia.
Qed.

Lemma collectFieldsInDocument_imap (document : Document) :
  collectFieldsInDocument document =
  imap (fun i elt => add_to_key i (describe [] elt)) (all_inputs document).
Proof.
  induction document as [inputs frames Hframes] using Document_nested_ind.
  rewrite collectFieldsInDocument_unfold, collect_inputs_loop.
  rewrite (collect_frames_loop _ _ Hframes). simpl.
  rewrite imap_app. f_equal. rewrite length_imap. reflexivity.
Qed.

Lemma collectFieldsInDocument_elements (document : Document) :
  List.map element (collectFieldsInDocument document) = all_inputs document.
Proof.
  rewrite collectFieldsInDocument_imap.
  change (List.map ?g ?l) with (g <$> l). rewrite fmap_imap.
  generalize (all_inputs document). intros l.
  transitivity (imap (fun _ x => x) l); [apply imap_ext; reflexivity |].
  induction l as [| x l IH]; [reflexivity |].
  rewrite imap_cons. f_equal. exact IH.
Qed.

Lemma collectFieldsInDocument_key_lookup (document : Document) f :
  f ∈ collectFieldsInDocument document ->
  0 <= forms.key (field f) /\
  fst (find_fields document) !! Z.to_nat (forms.key (field f)) =
  Some (element f).
Proof.
  intros Hf. unfold find_fields. cbn [fst].
  rewrite collectFieldsInDocument_elements.
  rewrite collectFieldsInDocument_imap in Hf.
  apply list_elem_of_lookup in Hf. destruct Hf as [i Hi].
  rewrite list_lookup_imap in Hi.
  destruct (all_inputs document !! i) as [x |] eqn:Hx; [| discriminate].
  simpl in Hi. injection Hi as <-.
  cbn [add_to_key describe field element forms.key].
  rewrite Z.add_0_l, Nat2Z.id. split; [lia | exact Hx].
Qed.

(** X20.  [collectFieldsInDocument] describes every input element of
    the document and of the documents of its frames that can be
    accessed, recursively, in document order and each once; frames
    without a document and frames whose document cannot be accessed
    contribute nothing.  The key of each description is its position
    in the result, so keys are 0, 1, ... without gaps, and the field
    with key [k] describes the element at index [k] of [lastFields]
    as the [find-fields] handler sets it. *)
Theorem collectFieldsInDocument_keys (document : Document) :
  collectFieldsInDocument document =
  imap (fun i elt => add_to_key i (describe [] elt)) (all_inputs document) /\
  List.map element (collectFieldsInDocument document) = all_inputs document /\
  List.map (fun f => forms.key (field f)) (collectFieldsInDocument document) =
  List.map Z.of_nat (seq 0 (length (all_inputs document))) /\
  fst (find_fields document) = all_inputs document /\
  (forall f, f ∈ collectFieldsInDocument document ->
             0 <= forms.key (field f) /\
             fst (find_fields document) !! Z.to_nat (forms.key (field f)) =
             Some (element f)).
Proof.
  split; [apply collectFieldsInDocument_imap |].
  split; [apply collectFieldsInDocument_elements |]. split; [| split].
  - rewrite collectFieldsInDocument_imap.
    change (List.map ?g ?l) with (g <$> l). rewrite fmap_imap.
    generalize (all_inputs document). intros l.
    apply list_eq. intros i. rewrite list_lookup_imap, list_lookup_fmap.
    destruct (l !! i) as [x |] eqn:Hx; simpl.
    + rewrite lookup_seq_lt by (apply lookup_lt_Some in Hx; exact Hx).
      simpl. f_equal.
    + rewrite lookup_seq_ge by (apply lookup_ge_None in Hx; lia).
      reflexivity.
  - unfold find_fields. simpl. apply collectFieldsInDocument_elements.
  - apply collectFieldsInDocument_key_lookup.
Qed.
End PageFacts.

Module AutofillFacts.
Import page.

Lemma valid_key_Some lastFields k i :
  valid_key lastFields k = Some i ->
  k = JNumber (Num (Z.of_nat i)) /\ exists elt, lastFields !! i = Some elt.
Proof.
  unfold valid_key. destruct k as [| | | n | | |]; try discriminate.
  destruct n as [z | | |]; try discriminate.
  destruct (Z.leb_spec 0 z); simpl; [| discriminate].
  destruct (Z.ltb_spec z (Z.of_nat (length lastFields))); [| discriminate].
  intros Hi. injection Hi as <-. rewrite Z2Nat.id by assumption.
  split; [reflexivity |]. apply lookup_lt_is_Some. lia.
Qed.

Lemma valid_key_index lastFields i :
  (i < length lastFields)%nat ->
  valid_key lastFields (JNumber (Num (Z.of_nat i))) = Some i.
Proof.
  intros Hi. unfold valid_key.
  destruct (Z.leb_spec 0 (Z.of_nat i)); [| lia]. simpl.
  destruct (Z.ltb_spec (Z.of_nat i) (Z.of_nat (length lastFields))); [| lia].
  rewrite Nat2Z.id. reflexivity.
Qed.

Lemma autofill_snoc lastFields entries entry dom :
  autofill lastFields (entries ++ [entry])%list dom =
  autofill_entry lastFields (autofill lastFields entries dom) entry.
Proof. unfold autofill. rewrite fold_left_app. reflexivity. Qed.

Lemma autofill_entry_valid lastFields acc entry i elt :
  valid_key lastFields (forms.entry_key entry) = Some i ->
  lastFields !! i = Some elt ->
  autofill_entry lastFields acc entry =
  {| filled := S (filled acc);
     warnings := warnings acc;
     dom_after :=
       {| values := <[node elt := forms.entry_value entry]>
                      (values (dom_after acc));
          events := (events (dom_after acc) ++
                     [(node elt, "input"); (node elt, "change")])%list |} |}.
Proof.
  intros Hk Hl. unfold autofill_entry. rewrite Hk, Hl. reflexivity.
Qed.

Lemma autofill_entry_invalid lastFields acc entry :
  valid_key lastFields (forms.entry_key entry) = None ->
  autofill_entry lastFields acc entry =
  {| filled := filled acc;
     warnings :=
       (warnings acc ++ ["Failed to find input field to autofill"])%list;
     dom_after := dom_after acc |}.
Proof. intros Hk. unfold autofill_entry. rewrite Hk. reflexivity. Qed.

(** X21.  The [autofill] handler accounts for every entry: an entry
    whose key is a number that indexes [lastFields] fills one field,
    every other entry gives one warning and changes nothing, so the
    number returned plus the number of warnings is the number of
    entries.  Each filled field gets two events.  The value of an
    input node that no valid entry refers to is unchanged, and the
    node that the last entry refers to holds the value of that
    entry. *)
Theorem autofill_accounts lastFields entries dom :
  (filled (autofill lastFields entries dom) +
   length (warnings (autofill lastFields entries dom)))%nat =
  length entries /\
  filled (autofill lastFields entries dom) =
  length (filter (fun entry =>
                    is_Some (valid_key lastFields (forms.entry_key entry)))
                 entries) /\
  length (events (dom_after (autofill lastFields entries dom))) =
  (length (events dom) + 2 * filled (autofill lastFields entries dom))%nat /\
  (forall n,
      (forall entry i elt,
          entry ∈ entries ->
          valid_key lastFields (forms.entry_key entry) = Some i ->
          lastFields !! i = Some elt -> node elt <> n) ->
      values (dom_after (autofill lastFields entries dom)) !! n =
      values dom !! n) /\
  (forall before entry i elt,
      entries = (before ++ [entry])%list ->
      valid_key lastFields (forms.entry_key entry) = Some i ->
      lastFields !! i = Some elt ->
      values (dom_after (autofill lastFields entries dom)) !! node elt =
      Some (forms.entry_value entry)).
Proof.
  induction entries as [| entry entries IH] using rev_ind.
  - simpl. repeat split; try reflexivity; try lia.
    intros before entry i elt Hnil. destruct before; discriminate.
  - destruct IH as (Hcount & Hfilled & Hevents & Hother & _).
    rewrite autofill_snoc. rewrite length_app, filter_app, length_app.
    simpl length.
    destruct (valid_key lastFields (forms.entry_key entry)) as [i |] eqn:Hk.
    + destruct (valid_key_Some _ _ _ Hk) as [_ [elt Hl]].
      rewrite (autofill_entry_valid _ _ _ _ _ Hk Hl). simpl.
      rewrite filter_cons_True by (rewrite Hk; eauto). simpl length.
      split; [lia |]. split; [lia |].
      split; [rewrite length_app; simpl; lia |]. split.
      * intros n Hn. rewrite lookup_insert_ne.
        -- apply Hother. intros e j x He. apply Hn.
           apply elem_of_app. left. exact He.
        -- apply (Hn entry i elt); [| exact Hk | exact Hl].
           apply elem_of_app. right. left.
      * intros before e j x Heq Hj Hx.
        apply app_inj_tail in Heq. destruct Heq as [_ <-].
        rewrite Hk in Hj. injection Hj as <-. rewrite Hl in Hx.
        injection Hx as <-. apply lookup_insert_eq.
    + rewrite (autofill_entry_invalid _ _ _ Hk). simpl.
      rewrite filter_cons_False by (rewrite Hk; intros [x Hx]; discriminate).
      simpl length. split; [rewrite length_app; simpl; lia |].
      split; [lia |]. split; [lia |]. split.
      * intros n Hn. apply Hother. intros e j x He. apply Hn.
        apply elem_of_app. left. exact He.
      * intros before e j x Heq Hj Hx.
        apply app_inj_tail in Heq. destruct Heq as [_ <-]. congruence.
Qed.

(** X22.  The keys that [find-fields] reports are the keys that
    [autofill] accepts: after [find-fields] on a document, an
    [autofill] entry carrying the key of a reported field is filled
    without a warning, and it sets the value of exactly the input
    element that the field describes and dispatches [input] and
    [change] to it. *)
Theorem find_fields_then_autofill (document : Document) f value dom :
  f ∈ collectFieldsInDocument document ->
  autofill (fst (find_fields document))
           [ {| forms.entry_key := JNumber (Num (forms.key (field f)));
                forms.entry_value := value |} ] dom =
  {| filled := 1;
     warnings := [];
     dom_after :=
       {| values := <[node (element f) := value]> (values dom);
          events := (events dom ++ [(node (element f), "input");
                                    (node (element f), "change")])%list |} |}.
Proof.
  intros Hf.
  destruct (PageFacts.collectFieldsInDocument_key_lookup document f Hf)
    as [Hpos Hl].
  unfold autofill. cbn [fold_left].
  rewrite (autofill_entry_valid _ _ _ (Z.to_nat (forms.key (field f)))
                                (element f)); [reflexivity | | exact Hl].
  cbn [forms.entry_key].
  rewrite <- (Z2Nat.id (forms.key (field f))) at 1 by exact Hpos.
  apply valid_key_index. apply lookup_lt_Some in Hl. exact Hl.
Qed.
End AutofillFacts.

Module GroupFacts.
Import page.

Lemma find_form_scan (forms : list InputForm) (formElement : nullable nat)
      (n : nat) :
  (n <= length forms)%nat ->
  match fold_left (fun form i =>
                     match forms !! i with
                     | Some (fe, _) =>
                       if decide (fe = formElement) then Some i else form
                     | None => form
                     end) (seq 0 n) None with
  | Some i => (i < n)%nat /\ exists fs, forms !! i = Some (formElement, fs)
  | None => forall j g, (j < n)%nat -> forms !! j = Some g ->
                        fst g <> formElement
  end.
Proof.
  induction n as [| n IH]; intros Hn.
  - simpl. intros j g Hj. lia.
  - rewrite seq_S, fold_left_app. cbn [fold_left Nat.add].
    specialize (IH ltac:(lia)).
    destruct (forms !! n) as [[fe fs] |] eqn:Hfe;
      [| apply lookup_ge_None in Hfe; lia].
    destruct (decide (fe = formElement)) as [-> | Hne].
    + split; [lia | eauto].
    + destruct (fold_left _ (seq 0 n) None) as [i |].
      * destruct IH as [Hi Hfs]. split; [lia | exact Hfs].
      * intros j g Hj Hg. destruct (decide (j = n)) as [-> | Hjn].
        -- rewrite Hfe in Hg. injection Hg as <-. exact Hne.
        -- apply (IH j g); [lia | exact Hg].
Qed.

Lemma find_form_spec (forms : list InputForm) (formElement : nullable nat) :
  match find_form forms formElement with
  | Some i => exists fs, forms !! i = Some (formElement, fs)
  | None => formElement ∉ List.map fst forms
  end.
Proof.
  unfold find_form.
  pose proof (find_form_scan forms formElement (length forms) (le_n _)) as H.
  destruct (fold_left _ _ None) as [i |].
  - exact (proj2 H).
  - intros Hin. change (List.map fst forms) with (fst <$> forms) in Hin.
    apply list_elem_of_fmap in Hin. destruct Hin as (g & Hg & Hin).
    apply list_elem_of_lookup in Hin. destruct Hin as [j Hj].
    apply (H j g); [apply lookup_lt_Some in Hj; exact Hj | exact Hj | auto].
Qed.

(** The groups of [find-fields] after the fields [fields]. *)
Lemma group_fields_invariant (fields : list InputField) :
  NoDup (List.map fst (fold_left group_field fields [])) /\
  (forall j g,
      fold_left group_field fields [] !! j = Some g ->
      snd g <> [] /\
      snd g =
      List.map field
               (filter (fun f => parentForm (element f) = fst g) fields)) /\
  (forall f, f ∈ fields ->
             parentForm (element f) ∈
             List.map fst (fold_left group_field fields [])).
Proof.
  induction fields as [| f fields IH] using rev_ind.
  - simpl. split; [constructor |]. split.
    + intros j g Hg. rewrite lookup_nil in Hg. discriminate.
    + intros f Hf. inversion Hf.
  - destruct IH as (Hnd & Hgroups & Hcover).
    rewrite fold_left_app. simpl.
    set (groups := fold_left group_field fields []) in *.
    unfold group_field.
    pose proof (find_form_spec groups (parentForm (element f))) as Hfind.
    destruct (find_form groups (parentForm (element f))) as [i |].
    + (* the form has a group already *)
      destruct Hfind as [fs Hi].
      assert (List.map fst
                (alter (fun form => (fst form, (snd form ++ [field f])%list))
                       i groups) = List.map fst groups) as Hfst.
      { change (List.map fst ?l) with (fst <$> l).
        apply list_eq. intros j. rewrite !list_lookup_fmap, list_lookup_alter.
        destruct (decide (i = j)) as [<- | Hne]; [| reflexivity].
        rewrite Hi. reflexivity. }
      rewrite Hfst. split; [exact Hnd |]. split.
      * intros j g Hg. rewrite list_lookup_alter in Hg.
        rewrite filter_app.
        destruct (decide (i = j)) as [<- | Hne].
        -- rewrite Hi in Hg. simpl in Hg. injection Hg as <-. simpl.
           split; [destruct fs; discriminate |].
           rewrite filter_cons_True by reflexivity.
           rewrite map_app. simpl.
           destruct (Hgroups i _ Hi) as [_ Hfs]. simpl in Hfs.
           rewrite <- Hfs. reflexivity.
        -- destruct (Hgroups j g Hg) as [Hne' Hfs]. split; [exact Hne' |].
           rewrite filter_cons_False; [rewrite app_nil_r; exact Hfs |].
           intros Heq. apply Hne.
           apply (NoDup_lookup _ i j (parentForm (element f)) Hnd).
           ++ change (List.map fst groups) with (fst <$> groups).
              rewrite list_lookup_fmap, Hi. reflexivity.
           ++ change (List.map fst groups) with (fst <$> groups).
              rewrite list_lookup_fmap, Hg. simpl. rewrite Heq. reflexivity.
      * intros f' Hf'. apply elem_of_app in Hf'. destruct Hf' as [Hf' | Hf'].
        -- apply Hcover. exact Hf'.
        -- apply list_elem_of_singleton in Hf'. subst f'.
           change (List.map fst groups) with (fst <$> groups).
           apply list_elem_of_fmap. exists (parentForm (element f), fs).
           split; [reflexivity |].
           apply list_elem_of_lookup. exists i. exact Hi.
    + (* a new group *)
      rewrite map_app. simpl. split; [| split].
      * apply NoDup_app. split; [exact Hnd |]. split.
        -- intros x Hx Hx'. apply list_elem_of_singleton in Hx'. subst x.
           exact (Hfind Hx).
        -- apply NoDup_singleton.
      * intros j g Hg. rewrite filter_app.
        apply lookup_app_Some in Hg. destruct Hg as [Hg | [Hj Hg]].
        -- destruct (Hgroups j g Hg) as [Hne' Hfs]. split; [exact Hne' |].
           rewrite filter_cons_False; [rewrite app_nil_r; exact Hfs |].
           intros Heq. apply Hfind.
           change (List.map fst groups) with (fst <$> groups).
           apply list_elem_of_fmap. exists g. split; [auto |].
           apply list_elem_of_lookup. exists j. exact Hg.
        -- apply list_lookup_singleton_Some in Hg. destruct Hg as [_ <-].
           simpl. split; [discriminate |].
           rewrite filter_cons_True by reflexivity.
           rewrite (filter_no_match _ fields); [reflexivity |].
           apply Forall_forall. intros f' Hf' Heq.
           apply Hfind. rewrite <- Heq. apply Hcover. exact Hf'.
      * intros f' Hf'. apply elem_of_app.
        apply elem_of_app in Hf'. destruct Hf' as [Hf' | Hf'].
        -- left. apply Hcover. exact Hf'.
        -- right. apply list_elem_of_singleton in Hf'. subst f'. left.
Qed.

Lemma parentForm_from_nearest elt :
  parentForm_from elt =
  match List.filter instanceof_HTMLFormElement (ancestors_from elt) with
  | form :: _ => val (node_id form)
  | [] => null
  end.
Proof.
  revert elt. fix IH 1. intros [id is_form parent].
  cbn [parentForm_from ancestors_from List.filter instanceof_HTMLFormElement].
  destruct is_form; [reflexivity |].
  destruct parent as [elt' |]; [apply IH | reflexivity].
Qed.

(** [parentForm] gives the nearest ancestor that is an instance of
    [HTMLFormElement], or [null] when there is none. *)
Lemma parentForm_nearest input :
  parentForm input =
  match List.filter instanceof_HTMLFormElement (ancestors input) with
  | form :: _ => val (node_id form)
  | [] => null
  end.
Proof.
  unfold parentForm, ancestors.
  destruct (elt_parentNode input); [apply parentForm_from_nearest | reflexivity].
Qed.

(** X23.  The [find-fields] handler partitions the collected fields by
    the form element that [parentForm] finds for them, the nearest
    ancestor that is an instance of the [HTMLFormElement] of the
    page's window: it returns one group per such form element (the
    fields for which [parentForm] gives [null], those outside any
    form and those of the forms of frames, make one group of their
    own), no group is empty, each group holds exactly the
    descriptions of the fields of its form in the order in which they
    were collected, and every collected field belongs to the group of
    its form.  [parentForm] gives the nearest node above the input
    on which [instanceof HTMLFormElement] holds. *)
Theorem find_fields_groups (document : Document) :
  (exists formElements : list (nullable nat),
     NoDup formElements /\
     length formElements = length (snd (find_fields document)) /\
     (forall j formElement,
         formElements !! j = Some formElement ->
         exists fields,
           snd (find_fields document) !! j = Some fields /\
           fields <> [] /\
           fields =
           List.map field
                    (filter (fun f => parentForm (element f) = formElement)
                            (collectFieldsInDocument document))) /\
     (forall f, f ∈ collectFieldsInDocument document ->
                parentForm (element f) ∈ formElements)) /\
  (forall input,
      parentForm input =
      match List.filter instanceof_HTMLFormElement (ancestors input) with
      | form :: _ => val (node_id form)
      | [] => null
      end).
Proof.
  split; [| apply parentForm_nearest].
  destruct (group_fields_invariant (collectFieldsInDocument document))
    as (Hnd & Hgroups & Hcover).
  unfold find_fields. cbn [snd].
  set (groups := fold_left group_field (collectFieldsInDocument document) [])
    in *.
  exists (List.map fst groups). split; [exact Hnd |].
  split; [rewrite !length_map; reflexivity |]. split; [| exact Hcover].
  intros j formElement Hj.
  change (List.map fst groups) with (fst <$> groups) in Hj.
  rewrite list_lookup_fmap in Hj.
  destruct (groups !! j) as [g |] eqn:Hg; [| discriminate].
  simpl in Hj. injection Hj as <-.
  destruct (Hgroups j g Hg) as [Hne Hfs].
  exists (snd g). split; [| split; assumption].
  change (List.map snd groups) with (snd <$> groups).
  rewrite list_lookup_fmap, Hg. reflexivity.
Qed.

(** On the example page the search box of the page's search form
    makes the first group; the input outside any form makes the
    second one, together with the two inputs of the login form of the
    frame. *)
Lemma find_fields_busy_page :
  List.map (List.map forms.key) (snd (find_fields PageExamples.busy_page)) =
  [[0]; [1; 2; 3]] /\
  List.map parentForm (fst (find_fields PageExamples.busy_page)) =
  [val 9%nat; null; null; null].
Proof. split; vm_compute; reflexivity. Qed.
End GroupFacts.

Module CliFacts.
Import JSString.

Ltac capital_cases :=
  unfold capital_code in *;
  repeat match goal with
         | H : context [(?a <=? ?b)%nat] |- _ => destruct (Nat.leb_spec a b)
         | |- context [(?a <=? ?b)%nat] => destruct (Nat.leb_spec a b)
         end;
  cbn [andb orb] in *; try discriminate; try lia.

Lemma capital_code_bound n : capital_code n = true -> (n + 32 < 256)%nat.
Proof. intros Hn. capital_cases. Qed.

Lemma small_not_capital n :
  capital_code n = true -> capital_code (n + 32) = false.
Proof. intros Hn. capital_cases; reflexivity. Qed.

Lemma lower_char_capital n :
  capital_code n = true -> lower_char (ascii_of_nat n) = ascii_of_nat (n + 32).
Proof.
  intros Hn. unfold lower_char.
  rewrite nat_ascii_embedding by (pose proof (capital_code_bound n Hn); lia).
  rewrite Hn. reflexivity.
Qed.

Lemma lower_char_small n :
  capital_code n = true ->
  lower_char (ascii_of_nat (n + 32)) = ascii_of_nat (n + 32).
Proof.
  intros Hn. unfold lower_char.
  rewrite nat_ascii_embedding by (apply capital_code_bound, Hn).
  rewrite (small_not_capital n Hn). reflexivity.
Qed.

(** Two characters have the same [toLowerCase()] exactly when they are
    the same letter. *)
Lemma lower_char_same c1 c2 :
  lower_char c1 = lower_char c2 <-> same_letter c1 c2.
Proof.
  split.
  - pose proof (ascii_nat_embedding c1) as E1.
    pose proof (ascii_nat_embedding c2) as E2.
    unfold lower_char.
    set (n1 := nat_of_ascii c1) in *. set (n2 := nat_of_ascii c2) in *.
    clearbody n1 n2. subst c1 c2.
    destruct (capital_code n1) eqn:H1; destruct (capital_code n2) eqn:H2;
      intros Heq.
    + apply (f_equal nat_of_ascii) in Heq.
      rewrite !nat_ascii_embedding in Heq
        by (apply capital_code_bound; assumption).
      assert (n1 = n2) as -> by lia. apply same_char.
    + rewrite <- Heq. apply capital_small, H1.
    + rewrite Heq. apply small_capital, H2.
    + rewrite Heq. apply same_char.
  - intros [c | n Hn | n Hn]; [reflexivity | |].
    + rewrite (lower_char_capital n Hn), (lower_char_small n Hn).
      reflexivity.
    + rewrite (lower_char_capital n Hn), (lower_char_small n Hn).
      reflexivity.
Qed.

(** Two strings have the same [toLowerCase()] exactly when they are
    equal, letter case apart. *)
Lemma toLowerCase_caseless s1 s2 :
  toLowerCase s1 = toLowerCase s2 <-> caseless s1 s2.
Proof.
  split.
  - revert s2. induction s1 as [| c1 s1 IH]; intros [| c2 s2] Heq;
      simpl in Heq; try discriminate Heq; [constructor |].
    injection Heq as Hc Hs. constructor; [apply lower_char_same, Hc |].
    apply IH, Hs.
  - intros Hs. induction Hs as [| c1 c2 s1 s2 Hc _ IH]; [reflexivity |].
    simpl. rewrite IH. apply lower_char_same in Hc. rewrite Hc. reflexivity.
Qed.

(** [toLowerCase()] on a word with a capital of Latin-1 (U+00C9, whose
    small letter is U+00E9), and on characters that have no small
    letter. *)
Lemma toLowerCase_latin1 :
  toLowerCase (String "C" (String "A" (String "F" (String "201" "")))) =
  String "c" (String "a" (String "f" (String "233" ""))) /\
  toLowerCase (String "215" (String "223" (String "[" ""))) =
  String "215" (String "223" (String "[" "")).
Proof. split; reflexivity. Qed.

Lemma toLowerCase_length s : String.length (toLowerCase s) = String.length s.
Proof. induction s as [| c s IH]; simpl; [| rewrite IH]; reflexivity. Qed.

Lemma toLowerCase_substring n m s :
  substring n m (toLowerCase s) = toLowerCase (substring n m s).
Proof.
  revert n m. induction s as [| c s IH]; intros [| n] [| m]; simpl;
    try reflexivity.
  - rewrite IH. reflexivity.
  - apply IH.
  - apply IH.
Qed.

Lemma index_empty s : String.index 0 "" s = Some O.
Proof. destruct s; reflexivity. Qed.

Lemma indexOf_found s pattern :
  indexOf s pattern <> -1 <->
  exists n, substring n (String.length pattern) s = pattern.
Proof.
  unfold indexOf. destruct (String.index 0 pattern s) as [n |] eqn:Hi.
  - split; [| lia]. intros _. exists n.
    exact (String.index_correct1 _ _ _ _ Hi).
  - split; [intros Hne; contradiction |].
    intros [n Hn]. exfalso.
    destruct (decide (pattern = "")) as [-> | Hne].
    + rewrite index_empty in Hi. discriminate.
    + exact (String.index_correct3 0 n pattern s Hi Hne (Nat.le_0_l n) Hn).
Qed.

Section Lookup.
Context {Vault VItem World : Type}.
Variable title_of : VItem -> string.
Variable vault_listItems : Vault -> World -> Promise (list VItem) * World.

Lemma matches_loop pattern (items acc : list VItem) :
  fold_left (fun matches item =>
               if cli.patternMatch title_of pattern item
               then (matches ++ [item])%list else matches) items acc =
  (acc ++ List.filter (cli.patternMatch title_of pattern) items)%list.
Proof.
  revert acc. induction items as [| item items IH]; intros acc; simpl.
  - rewrite app_nil_r. reflexivity.
  - rewrite IH. destruct (cli.patternMatch title_of pattern item);
      [rewrite <- app_assoc |]; reflexivity.
Qed.

End Lookup.
End CliFacts.

Module IconProviderFacts.
Import icon_provider.
Section Provider.
Context {Data : Type}.
Variable normalize : string -> string.
Variable domain : string -> string.
Variable loadImage : Data -> string.
Variable iconSize : Z.
Implicit Types (p : Provider) (url : string).

Lemma makeIconUrl_url_icon (icons : list (site_info.Icon Data)) minSize :
  item_icons.sel_url (item_icons.makeIconUrl loadImage icons minSize) = "" \/
  exists i,
    item_icons.sel_icon (item_icons.makeIconUrl loadImage icons minSize) =
    val i /\
    item_icons.sel_url (item_icons.makeIconUrl loadImage icons minSize) =
    loadImage (site_info.data i).
Proof.
  unfold item_icons.makeIconUrl. destruct icons as [| i0 rest]; [left; reflexivity |].
  destruct (fold_left _ _ _) as [sq nsq].
  destruct (if negb (truthy (item_icons.or_else sq nsq)) then _ else _)
    as [| | i]; [left; reflexivity | left; reflexivity |].
  right. exists i. split; reflexivity.
Qed.

Lemma updated_icon_total (icons : list (site_info.Icon Data)) :
  exists fields,
    updated_icon (item_icons.makeIconUrl loadImage icons iconSize) =
    Some fields /\
    state fields <> Fetching /\
    (state fields = Found <->
     item_icons.sel_url (item_icons.makeIconUrl loadImage icons iconSize)
     <> "") /\
    (state fields = Found ->
     iconUrl fields =
     item_icons.sel_url (item_icons.makeIconUrl loadImage icons iconSize) /\
     exists i,
       item_icons.sel_icon (item_icons.makeIconUrl loadImage icons iconSize)
       = val i /\
       width fields = site_info.width i /\
       height fields = site_info.height i) /\
    (state fields = NoIcon ->
     fields = {| iconUrl := DEFAULT_ICON; state := NoIcon;
                 width := 48; height := 48 |}).
Proof.
  unfold updated_icon.
  destruct (makeIconUrl_url_icon icons iconSize) as [He | (i & Hi & Hu)].
  - rewrite decide_False by (intros Hne; exact (Hne He)).
    eexists. split; [reflexivity |]. simpl.
    split; [discriminate |]. split; [| split].
    + split; [discriminate | intros Hne; contradiction].
    + discriminate.
    + reflexivity.
  - destruct (decide _) as [Hne | He].
    + rewrite Hi. eexists. split; [reflexivity |]. simpl.
      split; [discriminate |]. split; [| split].
      * split; [intros _; exact Hne | reflexivity].
      * intros _. split; [reflexivity |]. exists i. auto.
      * discriminate.
    + eexists. split; [reflexivity |]. simpl.
      split; [discriminate |]. split; [| split].
      * split; [discriminate | intros Hne; contradiction].
      * discriminate.
      * reflexivity.
Qed.

Lemma query_extends url p :
  (exists new, heap (snd (query normalize domain url p)) =
               (heap p ++ new)%list) /\
  (forall k r, tempCache p !! k = Some r ->
               tempCache (snd (query normalize domain url p)) !! k = Some r) /\
  published (snd (query normalize domain url p)) = published p.
Proof.
  unfold query, alloc.
  destruct (String.length (normalize url) =? 0)%nat; simpl.
  - split; [eauto |]. split; [auto | reflexivity].
  - destruct (tempCache p !! normalize url) as [cachedIcon |] eqn:Hc; simpl.
    + assert (forall x : nat * Provider,
                 (x = (cachedIcon, p) \/ exists r, x = (r, p)) ->
                 (exists new, heap (snd x) = (heap p ++ new)%list) /\
                 (forall k r, tempCache p !! k = Some r ->
                              tempCache (snd x) !! k = Some r) /\
                 published (snd x) = published p) as Hsame.
      { intros x [-> | [r ->]]; simpl;
          (split; [exists []; rewrite app_nil_r; reflexivity |]);
          (split; [auto | reflexivity]). }
      apply Hsame.
      destruct (heap p !! cachedIcon) as [cached |]; [| left; reflexivity].
      destruct (decide (state cached = NoIcon)); [| left; reflexivity].
      destruct (tempCache p !! fallbackUrlForIcon normalize domain
                              (normalize url)) as [r |];
        [right; eauto | left; reflexivity].
    + split; [eauto |]. split; [| reflexivity].
      intros k r Hk. rewrite lookup_insert_ne; [exact Hk |].
      intros <-. congruence.
Qed.

Lemma query_cached url p r cached :
  (String.length (normalize url) =? 0)%nat = false ->
  tempCache p !! normalize url = Some r ->
  heap p !! r = Some cached ->
  state cached <> NoIcon ->
  query normalize domain url p = (r, p).
Proof.
  intros Hlen Hc Hh Hs. unfold query. rewrite Hlen, Hc, Hh.
  rewrite decide_False by exact Hs. reflexivity.
Qed.

(** X25.  [query(url)] shares one [Icon] object per normalized url.
    The first query of a url that is not cached creates an icon in the
    [Fetching] state, caches it and starts one lookup; while the icon
    is not in the [NoIcon] state, every later query of the url returns
    that same object and starts no lookup.  [updateCacheEntry] changes
    this object in place, so the icon that an earlier [query] returned
    shows the outcome: it is no longer [Fetching] afterwards. *)
Theorem query_shares_icon url p :
  (String.length (normalize url) =? 0)%nat = false ->
  tempCache p !! normalize url = None ->
  exists p1,
    query normalize domain url p = (length (heap p), p1) /\
    heap p1 !! length (heap p) =
    Some {| iconUrl := LOADING_ICON; state := Fetching;
            width := 48; height := 48 |} /\
    lookups p1 = (lookups p ++ [normalize url])%list /\
    query normalize domain url p1 = (length (heap p), p1) /\
    forall icons,
    exists p2 icon,
      updateCacheEntry normalize domain loadImage iconSize
                       (normalize url) icons p1 = Some p2 /\
      heap p2 !! length (heap p) = Some icon /\
      state icon <> Fetching /\
      (state icon = Found ->
       query normalize domain url p2 = (length (heap p), p2)).
Proof.
  intros Hlen Hnone.
  set (r := length (heap p)).
  set (loading := {| iconUrl := LOADING_ICON; state := Fetching;
                     width := 48; height := 48 |}).
  set (p1 := {| heap := (heap p ++ [loading])%list;
                tempCache := <[normalize url := r]> (tempCache p);
                lookups := (lookups p ++ [normalize url])%list;
                published := published p |}).
  assert (heap p1 !! r = Some loading) as Hh1.
  { simpl. apply list_lookup_middle. reflexivity. }
  assert (tempCache p1 !! normalize url = Some r) as Hc1.
  { simpl. apply lookup_insert_eq. }
  exists p1. split; [| split; [exact Hh1 | split; [reflexivity | split]]].
  - unfold query, alloc. rewrite Hlen, Hnone. reflexivity.
  - apply (query_cached url p1 r loading Hlen Hc1 Hh1). discriminate.
  - intros icons. unfold updateCacheEntry. rewrite Hc1.
    destruct (updated_icon_total icons)
      as (fields & Hf & Hnf & _ & _ & _). rewrite Hf.
    set (p1' := {| heap := <[r := fields]> (heap p1);
                   tempCache := tempCache p1;
                   lookups := lookups p1;
                   published := (published p1 ++ [normalize url])%list |}).
    assert (heap p1' !! r = Some fields) as Hh1'.
    { simpl. apply list_lookup_insert_eq. rewrite length_app. simpl.
      unfold r. lia. }
    assert (forall p2,
               p2 = p1' \/ (exists u, p2 = snd (query normalize domain u p1')) ->
               heap p2 !! r = Some fields /\
               (state fields = Found ->
                query normalize domain url p2 = (r, p2))) as Hfinal.
    { intros p2 Hp2.
      assert (heap p2 !! r = Some fields /\
              tempCache p2 !! normalize url = Some r) as [Hh2 Hc2].
      { destruct Hp2 as [-> | [u ->]]; [split; [exact Hh1' | exact Hc1] |].
        destruct (query_extends u p1') as ([new Hnew] & Hkeep & _).
        split; [| apply Hkeep; exact Hc1].
        rewrite Hnew. rewrite lookup_app_l; [exact Hh1' |].
        apply lookup_lt_Some in Hh1'. exact Hh1'. }
      split; [exact Hh2 |]. intros Hfound.
      apply (query_cached url p2 r fields Hlen Hc2 Hh2). congruence. }
    destruct (length icons =? 0)%nat.
    + destruct (decide _).
      * eexists _, fields. split; [reflexivity |].
        destruct (Hfinal
                    (snd (query normalize domain
                                (fallbackUrlForIcon normalize domain
                                                    (normalize url)) p1'))
                    (or_intror (ex_intro _ _ eq_refl))) as [H1 H2].
        split; [exact H1 |]. split; [exact Hnf | exact H2].
      * exists p1', fields. split; [reflexivity |].
        destruct (Hfinal p1' (or_introl eq_refl)) as [H1 H2].
        split; [exact H1 |]. split; [exact Hnf | exact H2].
    + exists p1', fields. split; [reflexivity |].
      destruct (Hfinal p1' (or_introl eq_refl)) as [H1 H2].
      split; [exact H1 |]. split; [exact Hnf | exact H2].
Qed.

(** X26.  [updateCacheEntry(url, icons)] on a cached url publishes the
    url once and rewrites the cached icon object, and no other object:
    to the [Found] state, with the url and the size of the icon that
    [makeIconUrl] selected, when that url is not empty; and otherwise
    (in particular when there are no icons) to the [NoIcon] state with
    the default icon of 48 by 48.  When there are no icons and the
    fallback url differs from the url, the fallback url is queried. *)
Theorem updateCacheEntry_outcome url icons p r :
  tempCache p !! url = Some r ->
  (r < length (heap p))%nat ->
  exists p2 icon,
    updateCacheEntry normalize domain loadImage iconSize url icons p =
    Some p2 /\
    heap p2 !! r = Some icon /\
    published p2 = (published p ++ [url])%list /\
    (forall r', r' <> r -> (r' < length (heap p))%nat ->
                heap p2 !! r' = heap p !! r') /\
    (state icon = Found <->
     item_icons.sel_url (item_icons.makeIconUrl loadImage icons iconSize)
     <> "") /\
    (state icon = Found ->
     iconUrl icon =
     item_icons.sel_url (item_icons.makeIconUrl loadImage icons iconSize) /\
     exists i,
       item_icons.sel_icon (item_icons.makeIconUrl loadImage icons iconSize)
       = val i /\
       width icon = site_info.width i /\ height icon = site_info.height i) /\
    (state icon <> Found ->
     icon = {| iconUrl := DEFAULT_ICON; state := NoIcon;
               width := 48; height := 48 |}) /\
    (icons = [] ->
     state icon = NoIcon /\
     (fallbackUrlForIcon normalize domain url <> url ->
      p2 = snd (query normalize domain
                      (fallbackUrlForIcon normalize domain url)
                      {| heap := <[r := icon]> (heap p);
                         tempCache := tempCache p;
                         lookups := lookups p;
                         published := (published p ++ [url])%list |}))).
Proof.
  intros Hc Hr. unfold updateCacheEntry. rewrite Hc.
  destruct (updated_icon_total icons)
    as (fields & Hf & Hnf & Hfound & Hsel & Hno). rewrite Hf.
  set (p1 := {| heap := <[r := fields]> (heap p);
                tempCache := tempCache p;
                lookups := lookups p;
                published := (published p ++ [url])%list |}).
  assert (forall p2,
             p2 = p1 \/ (exists u, p2 = snd (query normalize domain u p1)) ->
             heap p2 !! r = Some fields /\
             published p2 = (published p ++ [url])%list /\
             (forall r', r' <> r -> (r' < length (heap p))%nat ->
                         heap p2 !! r' = heap p !! r')) as Hframe.
  { intros p2 [-> | [u ->]].
    - simpl. split; [apply list_lookup_insert_eq; exact Hr |].
      split; [reflexivity |]. intros r' Hne _.
      apply list_lookup_insert_ne. congruence.
    - destruct (query_extends u p1) as ([new Hnew] & _ & Hpub).
      rewrite Hnew, Hpub. simpl. split; [| split; [reflexivity |]].
      + rewrite lookup_app_l by (rewrite length_insert; exact Hr).
        apply list_lookup_insert_eq. exact Hr.
      + intros r' Hne Hlt.
        rewrite lookup_app_l by (rewrite length_insert; exact Hlt).
        apply list_lookup_insert_ne. congruence. }
  assert (state fields <> Found ->
          fields = {| iconUrl := DEFAULT_ICON; state := NoIcon;
                      width := 48; height := 48 |}) as Hdefault.
  { intros Hnot. apply Hno. destruct (state fields); congruence. }
  assert (icons = [] -> state fields = NoIcon) as Hempty.
  { intros ->. destruct (state fields) eqn:Hs; [congruence | reflexivity |].
    exfalso. apply (proj1 Hfound); reflexivity. }
  destruct icons as [| i0 rest]; simpl length; cbn [Nat.eqb].
  - destruct (decide (fallbackUrlForIcon normalize domain url <> url))
      as [Hne | He].
    + eexists _, fields. split; [reflexivity |].
      destruct (Hframe
                  (snd (query normalize domain
                              (fallbackUrlForIcon normalize domain url) p1))
                  (or_intror (ex_intro _ _ eq_refl)))
        as (H1 & H2 & H3).
      split; [exact H1 |]. split; [exact H2 |]. split; [exact H3 |].
      split; [exact Hfound |]. split; [exact Hsel |].
      split; [exact Hdefault |]. intros _.
      split; [apply Hempty; reflexivity | reflexivity].
    + exists p1, fields. split; [reflexivity |].
      destruct (Hframe p1 (or_introl eq_refl)) as (H1 & H2 & H3).
      split; [exact H1 |]. split; [exact H2 |]. split; [exact H3 |].
      split; [exact Hfound |]. split; [exact Hsel |].
      split; [exact Hdefault |]. intros _.
      split; [apply Hempty; reflexivity | intros Hne; contradiction].
  - exists p1, fields. split; [reflexivity |].
    destruct (Hframe p1 (or_introl eq_refl)) as (H1 & H2 & H3).
    split; [exact H1 |]. split; [exact H2 |]. split; [exact H3 |].
    split; [exact Hfound |]. split; [exact Hsel |].
    split; [exact Hdefault |]. intros Hnil. discriminate.
Qed.
End Provider.
End IconProviderFacts.

Module IndexedDBFacts.
Import indexed_db.
Section Database.
Context {IDBDatabase : Type}.
Implicit Types (this : @IndexedDBDatabase IDBDatabase) (name : string).

(** X27.  The life cycle of an [IndexedDBDatabase].  [store(name)]
    creates a store for a name once and returns that same store for
    the name from then on; the store keeps the database promise that
    was current when it was created, so a store requested before
    [open()] stays without a database after [open()].  [delete()]
    rejects with 'Database is not open' on a database that was never
    opened or was deleted; after an [open()] that succeeded it forgets
    the database and all stores, whatever becomes of the request to
    delete, and gives the outcome of that request; after an [open()]
    that failed it rejects with the error of [open()] and forgets
    nothing. *)
Theorem database_life_cycle this name (request : option IDBDatabase)
        (deleteRequest : Promise unit) :
  store name (snd (store name this)) =
  (fst (store name this), snd (store name this)) /\
  (forall other, other <> name ->
                 stores (snd (store name this)) !! other =
                 stores this !! other) /\
  fst (store name (snd (open request (snd (store name (@reset IDBDatabase)))))) =
  Some {| db := null; storeName := name |} /\
  delete deleteRequest (@reset IDBDatabase) =
  (Rejected (PlainError "Database is not open"), reset) /\
  (forall db,
      request = Some db ->
      fst (open request this) = Resolved tt /\
      delete deleteRequest (snd (open request this)) =
      (deleteRequest, reset) /\
      fst (delete deleteRequest
                  (snd (delete deleteRequest (snd (open request this))))) =
      Rejected (PlainError "Database is not open")) /\
  (request = None ->
   fst (open request this) =
   Rejected (PlainError "Failed to open IndexedDB database") /\
   delete deleteRequest (snd (open request this)) =
   (Rejected (PlainError "Failed to open IndexedDB database"),
    snd (open request this)) /\
   stores (snd (open request this)) = stores this).
Proof.
  split; [| split; [| split; [| split; [| split]]]].
  - unfold store. destruct (stores this !! name) as [st |] eqn:Hst; simpl.
    + rewrite !Hst. simpl. rewrite ?Hst. reflexivity.
    + rewrite !lookup_insert_eq. simpl. rewrite ?lookup_insert_eq.
      reflexivity.
  - intros other Hne. unfold store.
    destruct (stores this !! name); simpl; [reflexivity |].
    apply lookup_insert_ne. congruence.
  - unfold store, open, reset. simpl. rewrite lookup_empty. simpl.
    rewrite lookup_insert_eq. simpl. rewrite lookup_insert_eq. reflexivity.
  - reflexivity.
  - intros db ->. repeat split.
  - intros ->. repeat split.
Qed.
End Database.
End IndexedDBFacts.

(** * Instances of the further properties on concrete inputs *)

Lemma updateTimestamps_exact_witness :
  updatedAt (ItemM.updateTimestamps (DateAt 1398413120300)
                                    (DateAt 1398413120300)
                                    MemStore.saved_item) =
  val (DateAt 1398413121000).
Proof.
  destruct (updateTimestamps_exact MemStore.saved_item
              (DateAt 1398413120300) 1398413120300) as [Hup _].
  - unfold JSDate.MAX_TIME. lia.
  - intros prev Hprev. injection Hprev as <-. exists 1398413120000.
    split; [reflexivity |]. unfold JSDate.MAX_TIME. lia.
  - exact Hup.
Defined.

Lemma updateTimestamps_each_advances_witness :
  exists t,
    updatedAt
      (ItemOps.updateTimestamps_each
         [(DateAt 1398413120300, DateAt 1398413120300);
          (DateAt 1398413120500, DateAt 1398413120500)]
         MemStore.saved_item) = val (DateAt t) /\
    1398413120000 + 1000 * 2 <= t.
Proof.
  destruct (updateTimestamps_each_advances
              [(DateAt 1398413120300, DateAt 1398413120300);
               (DateAt 1398413120500, DateAt 1398413120500)]
              MemStore.saved_item 1398413120000)
    as (t & Ht & Hle & _).
  - reflexivity.
  - unfold JSDate.MAX_TIME. simpl. lia.
  - intros c Hc. apply elem_of_cons in Hc as [-> | Hc].
    + exists 1398413120300. split; [reflexivity |].
      unfold JSDate.MAX_TIME. simpl. lia.
    + apply list_elem_of_singleton in Hc as ->.
      exists 1398413120500. split; [reflexivity |].
      unfold JSDate.MAX_TIME. simpl. lia.
  - exists t. split; [exact Ht | apply Hle].
Defined.

Lemma saved_item_needs_no_content_witness :
  ItemM.isSaved
    (ItemM.updateTimestamps 1398413120300 1398413120300
                            MemStore.listed_item) = true /\
  ItemM.saveTo
    (ItemM.updateTimestamps 1398413120300 1398413120300
                            MemStore.listed_item) tt MemStore.vault =
  saveItem tt
           (ItemM.set_store
              (ItemM.updateTimestamps 1398413120300 1398413120300
                                      MemStore.listed_item) tt)
           MemStore.vault.
Proof.
  destruct (saved_item_needs_no_content MemStore.listed_item tt
              1398413120300 1398413120300) as [Hs Ht]; [reflexivity |].
  split; [exact Hs | apply Ht].
Defined.

Lemma repairItem_consistent_silent_witness :
  item_repair.repairItem MemStore.saved_item RepairExamples.decline
                         MemStore.vault =
  (Resolved tt, MemStore.saved_item, [], MemStore.vault).
Proof.
  apply (repairItem_consistent_silent
           MemStore.saved_item RepairExamples.decline MemStore.vault
           MemStore.site_content MemStore.saved_item MemStore.vault);
    reflexivity.
Defined.

Lemma repairItem_mismatch_witness :
  item_repair.repairItem RepairExamples.stale_item RepairExamples.decline
                         MemStore.vault =
  (Resolved tt,
   item_repair.set_locations RepairExamples.stale_item ["mysite.com"],
   item_repair.mismatch_report RepairExamples.stale_item "mysite.com",
   MemStore.vault).
Proof.
  destruct (repairItem_mismatch
              RepairExamples.stale_item RepairExamples.decline MemStore.vault
              MemStore.site_content RepairExamples.stale_item MemStore.vault)
    as (_ & _ & _ & _ & Hdecl & _);
    [reflexivity | simpl; discriminate |].
  apply Hdecl. reflexivity.
Defined.

Lemma repairItem_declined_then_silent_witness :
  exists item2 reports w',
    item_repair.repairItem RepairExamples.stale_item RepairExamples.decline
                           MemStore.vault =
    (Resolved tt, item2, reports, w') /\
    (w' = MemStore.vault \/ w' = MemStore.vault) /\
    forall prompt' w'',
      item_repair.repairItem item2 prompt' w'' =
      (Resolved tt, item2, [], w'').
Proof.
  apply (repairItem_declined_then_silent
           RepairExamples.stale_item RepairExamples.decline MemStore.vault
           MemStore.site_content MemStore.vault); reflexivity.
Defined.

Lemma tombstone_revision_erases_witness :
  @generateRevisionId unit RevisionExamples.identity_digest
    {| iac_item := ItemM.tombstone (RevisionExamples.with_faveIndex null);
       iac_content := ContentUtil.empty |} =
  @generateRevisionId unit RevisionExamples.identity_digest
    {| iac_item :=
         ItemM.tombstone (RevisionExamples.with_faveIndex (val (Num 3)));
       iac_content := ContentUtil.empty |}.
Proof.
  apply (@tombstone_revision_erases unit RevisionExamples.identity_digest
           (RevisionExamples.with_faveIndex null)
           (RevisionExamples.with_faveIndex (val (Num 3))));
    reflexivity.
Defined.

Lemma typeDescription_covers_witness :
  ItemOps.typeDescription MemStore.saved_item <>
  typeName MemStore.saved_item /\
  exists info,
    (typeName MemStore.saved_item, info) ∈ ITEM_TYPES_entries /\
    ItemOps.typeDescription MemStore.saved_item = iti_name info.
Proof.
  destruct (typeDescription_covers MemStore.saved_item)
    as (Hinfo & Hne & _); [vm_compute; left |].
  split; [exact Hne | exact Hinfo].
Defined.

Lemma isRegularItem_system_types_witness :
  ItemOps.isRegularItem RepairExamples.startsWith
                        (ItemM.tombstone MemStore.saved_item) = false /\
  ItemOps.isRegularItem RepairExamples.startsWith MemStore.saved_item = true.
Proof.
  destruct (isRegularItem_system_types RepairExamples.startsWith
                                       MemStore.saved_item)
    as (Ht & _ & Hr & _); [reflexivity |].
  split; [exact Ht |]. rewrite Hr; [reflexivity | vm_compute; left].
Defined.

Lemma find_fields_then_autofill_witness :
  page.autofill
    (fst (page.find_fields PageExamples.login_page))
    [ {| forms.entry_key := JNumber (Num 2);
         forms.entry_value := "hunter2" |} ]
    {| page.values := ∅; page.events := [] |} =
  {| page.filled := 1;
     page.warnings := [];
     page.dom_after :=
       {| page.values := <[2%nat := "hunter2"]> ∅;
          page.events := [(2%nat, "input"); (2%nat, "change")] |} |}.
Proof.
  apply (AutofillFacts.find_fields_then_autofill
           PageExamples.login_page
           (page.add_to_key 2 (page.describe [] PageExamples.password_input))
           "hunter2" {| page.values := ∅; page.events := [] |}).
  apply list_elem_of_lookup. exists 2%nat. reflexivity.
Defined.

Lemma query_shares_icon_witness :
  exists p1,
    icon_provider.query IconExamples.normalize IconExamples.domain
                        IconExamples.login_url IconExamples.empty_provider =
    (0%nat, p1) /\
    icon_provider.query IconExamples.normalize IconExamples.domain
                        IconExamples.login_url p1 = (0%nat, p1).
Proof.
  destruct (IconProviderFacts.query_shares_icon
              IconExamples.normalize IconExamples.domain
              IconExamples.loadImage 32
              IconExamples.login_url IconExamples.empty_provider)
    as (p1 & Hq & _ & _ & Hagain & _); [reflexivity | reflexivity |].
  exists p1. split; [exact Hq | exact Hagain].
Defined.

Lemma updateCacheEntry_outcome_witness :
  exists p2 icon,
    icon_provider.updateCacheEntry
      IconExamples.normalize IconExamples.domain IconExamples.loadImage 32
      IconExamples.login_url [IconExamples.favicon]
      IconExamples.fetching_provider = Some p2 /\
    icon_provider.heap p2 !! 0%nat = Some icon /\
    icon_provider.published p2 = [IconExamples.login_url].
Proof.
  destruct (IconProviderFacts.updateCacheEntry_outcome
              IconExamples.normalize IconExamples.domain
              IconExamples.loadImage 32
              IconExamples.login_url [IconExamples.favicon]
              IconExamples.fetching_provider 0%nat)
    as (p2 & icon & Hu & Hh & Hp & _); [reflexivity | vm_compute; lia |].
  exists p2, icon. split; [exact Hu |]. split; [exact Hh | exact Hp].
Defined.
